(** * The puzzle session server (server/server.js), embedded in Rocq

    The server keeps one in-memory [gameState], a set of WebSocket clients,
    and reacts to three kinds of events per connection: the connection
    itself, an inbound message, and the close of the socket.  The embedding
    follows the source function by function; every handler is a function on
    an explicit [world] that holds the game state together with the pieces
    of the environment the handlers read or write (the random source behind
    [Math.random], the clock behind [Date.now], the uploads directory and
    the frames handed to [ws.send]). *)

From Stdlib Require Import ZArith Ascii String List Lia Permutation Sorted.
From stdpp Require Import base list strings pretty.

Local Open Scope Z_scope.

(** ** Numbers and arrays of the runtime *)

(** The numbers that a puzzle cell can hold.  Cells are produced by
    [Math.floor(Math.random() * 4)] and by [(cell + 1) % 4]; the latter
    yields [NaN] as soon as the cell it reads is [undefined]. *)
Inductive num : Type :=
  | Int (z : Z)
  | NaN.

#[global] Instance num_eq_dec : EqDecision num.
Proof. solve_decision. Defined.

(** [v + 1] for the result [v] of a property read ([None] is [undefined]). *)
Definition plus_one (v : option num) : num :=
  match v with
  | Some (Int z) => Int (z + 1)
  | Some NaN => NaN
  | None => NaN
  end.

(** [x % 4]: the remainder takes the sign of the dividend. *)
Definition mod4 (x : num) : num :=
  match x with
  | Int z => Int (Z.rem z 4)
  | NaN => NaN
  end.

(** [val === b], with [b] the result of a property read. *)
Definition strict_eq (val : num) (b : option num) : bool :=
  match val, b with
  | Int x, Some (Int y) => Z.eqb x y
  | _, _ => false
  end.

(** A JavaScript array: its indexed elements in order, [None] for a hole
    (an index below [length] that was never written).  Own properties whose
    key is neither an array index nor 'length' are not kept: [every] and
    [JSON.stringify], the only readers of a puzzle, do not see them (what
    an own property named 'every' does is part of the 'rotate' case). *)
Abbreviation array := (list (option num)).

Definition is_array_index (i : Z) : bool := (0 <=? i) && (i <? 2 ^ 32 - 1).

(** [a[i]] *)
Definition array_get (a : array) (i : Z) : option num :=
  if is_array_index i then mjoin (a !! Z.to_nat i) else None.

(** [a[i] = v]: inside the array the element is replaced; past its end the
    array grows, leaving holes between the old end and [i]; a key that is
    no array index does not touch the elements. *)
Definition array_set (a : array) (i : Z) (v : num) : array :=
  if is_array_index i then
    if decide (Z.to_nat i < length a)%nat
    then <[Z.to_nat i := Some v]> a
    else a ++ replicate (Z.to_nat i - length a) None ++ [Some v]
  else a.

(** [a.length = n]: the array is cut to its first [n] elements, or grows by
    holes. *)
Definition set_length (a : array) (n : nat) : array :=
  take n a ++ replicate (n - length a) None.

(** [a.every((val, i) => f(val, i))]: holes are skipped. *)
Fixpoint every_from (i : nat) (f : num -> nat -> bool) (a : array) : bool :=
  match a with
  | [] => true
  | None :: rest => every_from (S i) f rest
  | Some val :: rest => f val i && every_from (S i) f rest
  end.

Definition every (f : num -> nat -> bool) (a : array) : bool := every_from 0 f a.

(** ** The random source *)

(** [Math.random()] returns a number of [0,1), so that
    [Math.floor(Math.random() * k)] is an integer of [0,k) and each of them
    can come out.  The source of randomness is a sequence of naturals of
    which [used] have been consumed; a draw below [k] reduces the next one
    modulo [k]. *)
Record rng : Type := { source : nat -> nat; used : nat }.

Definition random_int (k : nat) (g : rng) : Z * rng :=
  (Z.of_nat (source g (used g) mod k), {| source := source g; used := S (used g) |}).

(** ** The puzzle generator and the comparison with the target *)

(** The loop [for (let i = 0; i < 9; i++) rotations.push(...)], with [n] the
    iterations that remain. *)
Fixpoint push_random (n : nat) (rotations : array) (g : rng) : array * rng :=
  match n with
  | O => (rotations, g)
  | S n' =>
      let '(r, g') := random_int 4 g in
      push_random n' (rotations ++ [Some (Int r)]) g'
  end.

Definition shufflePuzzle (g : rng) : array * rng :=
  let '(rotations, g) := push_random 9 [] g in
  if every (fun r _ => strict_eq r (Some (Int 0))) rotations then
    let '(k, g) := random_int 9 g in
    (array_set rotations k (Int 1), g)
  else (rotations, g).

Definition arraysEqual (a b : array) : bool :=
  every (fun val i => strict_eq val (mjoin (b !! i))) a.

(** [gameState.correctRotation] *)
Definition correctRotation0 : array := replicate 9 (Some (Int 0)).

(** A rotation value: one of 0, 1, 2, 3. *)
Definition rotation (c : option num) : Prop :=
  match c with
  | Some (Int v) => 0 <= v <= 3
  | _ => False
  end.

(** A well-formed puzzle: nine cells, each a rotation value. *)
Definition puzzle_ok (a : array) : Prop :=
  length a = 9%nat /\ Forall rotation a.

#[global] Instance rotation_dec c : Decision (rotation c).
Proof. destruct c as [[v|]|]; apply _. Defined.

#[global] Instance puzzle_ok_dec a : Decision (puzzle_ok a).
Proof. unfold puzzle_ok. apply _. Defined.

(** ** The clock *)

(** [Date.now()] reads a clock that the server does not control: the
    readings are a sequence of integers (milliseconds) of which [reads] have
    been taken.  Two calls inside one handler may return different
    readings. *)
Record timer : Type := { readings : nat -> Z; reads : nat }.

Definition Date_now (t : timer) : Z * timer :=
  (readings t (reads t), {| readings := readings t; reads := S (reads t) |}).

(** ** The [Map] of players *)

(** A JavaScript [Map] iterates in insertion order, and the leaderboard
    depends on that order, so the map is the list of its entries, each key
    once.  [set] on a key that is present replaces the value in place;
    [delete] leaves no entry of the key. *)
Section JsMap.
Context {V : Type}.

Fixpoint Map_get (k : string) (m : list (string * V)) : option V :=
  match m with
  | [] => None
  | (k', v) :: rest => if String.eqb k k' then Some v else Map_get k rest
  end.

Definition Map_has (k : string) (m : list (string * V)) : bool :=
  match Map_get k m with Some _ => true | None => false end.

Fixpoint Map_set (k : string) (v : V) (m : list (string * V)) : list (string * V) :=
  match m with
  | [] => [(k, v)]
  | (k', v') :: rest =>
      if String.eqb k k' then (k, v) :: rest else (k', v') :: Map_set k v rest
  end.

Fixpoint Map_delete (k : string) (m : list (string * V)) : list (string * V) :=
  match m with
  | [] => []
  | (k', v') :: rest =>
      if String.eqb k k' then Map_delete k rest else (k', v') :: Map_delete k rest
  end.

Definition Map_values (m : list (string * V)) : list V := map snd m.
Definition Map_keys (m : list (string * V)) : list string := map fst m.
End JsMap.

(** ** The values of a parsed message *)

(** A field of the object that [JSON.parse] has returned, as far as the
    handlers tell values apart: a field that the object does not have reads
    as [undefined]; a string can be the key of a player; a value of another
    type (a number, a boolean, an array, an object) is stored and never
    looked at. *)
Inductive field : Type :=
  | JSundefined
  | JSnull
  | JSstring (s : string)
  | JSother.

Coercion JSstring : string >-> field.

(** What a template literal makes of a field: its conversion to a string
    ('undefined' for a field that is absent, the decimal form of a number,
    and so on).  An object whose own [toString] and [valueOf] fields hide the
    methods of the prototype has no such conversion, and the literal throws
    TypeError. *)
Inductive converted : Type :=
  | Converted (s : string)
  | Unconvertible.

Coercion Converted : string >-> converted.

(** The property key that [puzzle[tileIndex]] makes of a field.  The field
    is converted to a string, and the handler goes different ways for: the
    decimal form of an integer [i] (from the number [i] or from a value
    that converts to the same string; it names an element of the array when
    it is an array index, see [array_set]); 'length'; 'every', the one
    method that the handler calls on a puzzle; any other name ('1.5',
    'undefined', 'push', ...), which reads and writes a property that
    nothing else looks at.  An object without a conversion to a string is
    no key: TypeError. *)
Inductive key : Type :=
  | Index (i : Z)
  | Length
  | Every
  | Name
  | NoKey.

Coercion Index : Z >-> key.

(** ** The data model *)

(** [gameState.status]: 'waiting', 'ready', 'playing', 'finished'. *)
Inductive GameStatus : Type := Waiting | Ready | InPlay | Over.

(** [player.status]: 'joined', 'playing', 'finished'. *)
Inductive PlayerStatus : Type := Joined | Playing | Finished.

#[global] Instance GameStatus_eq_dec : EqDecision GameStatus.
Proof. solve_decision. Defined.
#[global] Instance PlayerStatus_eq_dec : EqDecision PlayerStatus.
Proof. solve_decision. Defined.

Module Player.
Record t : Type := {
  id : string;
  name : string;
  status : PlayerStatus;
  time : Z;
  steps : Z;
  startTime : option Z;
  finishTime : option Z;
  puzzle : array
}.
End Player.

Module GameState.
Record t : Type := {
  status : GameStatus;
  image : field;
  imageUrl : option string;
  players : list (string * Player.t);
  correctRotation : array;
  gameStartTime : option Z
}.
End GameState.

(** One line of the leaderboard, as [broadcastLeaderboard] maps a player. *)
Module Entry.
Record t : Type := {
  id : string;
  name : string;
  status : PlayerStatus;
  time : Z;
  steps : Z;
  finishTime : option Z
}.
End Entry.

(** The frames that the server serialises with [JSON.stringify] and sends. *)
Inductive outmsg : Type :=
  | init (playerId playerName : string) (imageUrl : option string)
         (puzzle : array) (gameStatus : GameStatus)
  | imageUpdate (imageUrl : option string)
  | gameStart (startTime : option Z)
  | puzzleUpdate (puzzle : array)
  | playerFinished (playerId playerName : string) (time steps : Z)
  | gameEnd
  | gameReset
  | leaderboard (players : list Entry.t).

(** [ws.readyState] *)
Inductive ReadyState : Type := CONNECTING | OPEN | CLOSING | CLOSED.

(** A member of [wss.clients]: the socket (named by [conn]), the [playerId]
    that the connection handler drew for it and keeps in its closure, the
    [ws.playerId] property (null for a connection that is no player) and the
    state of the transport. *)
Module Client.
Record t : Type := {
  conn : nat;
  uuid : string;
  playerId : option string;
  readyState : ReadyState
}.
End Client.

(** What the uploads directory holds: [unlinkSync] removes a regular file
    and fails on a directory. *)
Inductive entry_kind : Type := RegularFile | Directory.

(** The exceptions that the handlers can raise. *)
Inductive exn : Type :=
  | SyntaxError
  | TypeError
  | SystemError (code : string).

(** Everything a handler reads or writes.  [uploads] is [None] when the
    directory does not exist; [sent] is the log of the frames handed to
    [ws.send], oldest first, each with the socket it was sent on. *)
Record world : Type := {
  gameState : GameState.t;
  clients : list Client.t;
  random : rng;
  clock : timer;
  uploads : option (list (string * entry_kind));
  sent : list (nat * outmsg)
}.

Definition with_gameState (gs : GameState.t) (w : world) : world :=
  {| gameState := gs; clients := clients w; random := random w;
     clock := clock w; uploads := uploads w; sent := sent w |}.

Definition with_clients (cs : list Client.t) (w : world) : world :=
  {| gameState := gameState w; clients := cs; random := random w;
     clock := clock w; uploads := uploads w; sent := sent w |}.

Definition with_random (g : rng) (w : world) : world :=
  {| gameState := gameState w; clients := clients w; random := g;
     clock := clock w; uploads := uploads w; sent := sent w |}.

Definition with_clock (t : timer) (w : world) : world :=
  {| gameState := gameState w; clients := clients w; random := random w;
     clock := t; uploads := uploads w; sent := sent w |}.

Definition with_uploads (u : option (list (string * entry_kind))) (w : world) : world :=
  {| gameState := gameState w; clients := clients w; random := random w;
     clock := clock w; uploads := u; sent := sent w |}.

Definition post (frames : list (nat * outmsg)) (w : world) : world :=
  {| gameState := gameState w; clients := clients w; random := random w;
     clock := clock w; uploads := uploads w; sent := sent w ++ frames |}.

Definition with_players (ps : list (string * Player.t)) (gs : GameState.t) : GameState.t :=
  {| GameState.status := GameState.status gs;
     GameState.image := GameState.image gs;
     GameState.imageUrl := GameState.imageUrl gs;
     GameState.players := ps;
     GameState.correctRotation := GameState.correctRotation gs;
     GameState.gameStartTime := GameState.gameStartTime gs |}.

Definition with_status (s : GameStatus) (gs : GameState.t) : GameState.t :=
  {| GameState.status := s;
     GameState.image := GameState.image gs;
     GameState.imageUrl := GameState.imageUrl gs;
     GameState.players := GameState.players gs;
     GameState.correctRotation := GameState.correctRotation gs;
     GameState.gameStartTime := GameState.gameStartTime gs |}.

Definition with_image (v : field) (gs : GameState.t) : GameState.t :=
  {| GameState.status := GameState.status gs;
     GameState.image := v;
     GameState.imageUrl := GameState.imageUrl gs;
     GameState.players := GameState.players gs;
     GameState.correctRotation := GameState.correctRotation gs;
     GameState.gameStartTime := GameState.gameStartTime gs |}.

Definition players_of (w : world) : list (string * Player.t) :=
  GameState.players (gameState w).

(** ** Names *)

Definition adjectives : list string :=
  ["快乐"; "勇敢"; "聪明"; "闪电"; "彩虹"; "星星"; "月亮"; "太阳"; "幸运"; "神秘"]%string.

Definition animals : list string :=
  ["熊猫"; "老虎"; "狮子"; "兔子"; "猫咪"; "小狗"; "狐狸"; "熊猫"; "龙"; "凤凰"]%string.

Definition generateRandomName (g : rng) : string * rng :=
  let '(number, g) := random_int 1000 g in
  let '(i, g) := random_int (length adjectives) g in
  let '(j, g) := random_int (length animals) g in
  (nth (Z.to_nat i) adjectives ""%string
     +:+ nth (Z.to_nat j) animals ""%string
     +:+ pretty number, g).

(** ** Fanout *)

Definition is_open (client : Client.t) : bool :=
  match Client.readyState client with OPEN => true | _ => false end.

(** [client.playerId === playerId] *)
Definition bound_to (playerId : string) (client : Client.t) : bool :=
  match Client.playerId client with
  | Some p => String.eqb p playerId
  | None => false
  end.

Definition addressed (data : outmsg) (cs : list Client.t) : list (nat * outmsg) :=
  map (fun client => (Client.conn client, data)) cs.

Definition broadcast (data : outmsg) (w : world) : world :=
  post (addressed data (filter (fun client => is_open client) (clients w))) w.

Definition sendToPlayer (playerId : string) (data : outmsg) (w : world) : world :=
  post (addressed data
          (filter (fun client => is_open client && bound_to playerId client) (clients w))) w.

(** ** The leaderboard *)

Definition summary (p : Player.t) : Entry.t :=
  {| Entry.id := Player.id p;
     Entry.name := Player.name p;
     Entry.status := Player.status p;
     Entry.time := Player.time p;
     Entry.steps := Player.steps p;
     Entry.finishTime := Player.finishTime p |}.

(** The comparator handed to [sort]: negative when [a] goes first. *)
Definition compare_entries (a b : Entry.t) : Z :=
  match Entry.status a, Entry.status b with
  | Finished, Finished => Entry.time a - Entry.time b
  | Finished, _ => -1
  | _, Finished => 1
  | _, _ => Entry.steps a - Entry.steps b
  end.

(** [Array.prototype.sort] is stable, and for a comparator that orders the
    elements consistently its result is the one stable sorted arrangement;
    it is computed here by insertion, an element going before the first one
    of those after it that it does not exceed. *)
Section Sort.
Context {A : Type} (cmp : A -> A -> Z).

Fixpoint sort_insert (x : A) (sorted : list A) : list A :=
  match sorted with
  | [] => [x]
  | y :: rest =>
      if cmp x y <=? 0 then x :: y :: rest else y :: sort_insert x rest
  end.

Definition Array_sort (l : list A) : list A := foldr sort_insert [] l.
End Sort.

Definition ranking (ps : list (string * Player.t)) : list Entry.t :=
  Array_sort compare_entries (map summary (Map_values ps)).

Definition broadcastLeaderboard (w : world) : world :=
  broadcast (leaderboard (ranking (players_of w))) w.

(** ** The connection handler *)

(** [req.url && req.url.includes('player')] *)
Definition includes_player (url : string) : bool :=
  match String.index 0 "player" url with Some _ => true | None => false end.

Definition new_player (playerId playerName : string) (puzzle : array) : Player.t :=
  {| Player.id := playerId;
     Player.name := playerName;
     Player.status := Joined;
     Player.time := 0;
     Player.steps := 0;
     Player.startTime := None;
     Player.finishTime := None;
     Player.puzzle := puzzle |}.

(** The body of [wss.on('connection', ...)] for the socket [c], which the
    library has put into [wss.clients] before it calls the handler;
    [playerId] is the value of [uuidv4()]. *)
Definition on_connection (c : nat) (url playerId : string) (w : world) : world :=
  let '(playerName, g) := generateRandomName (random w) in
  let isPlayer := includes_player url in
  let ws := {| Client.conn := c; Client.uuid := playerId;
               Client.playerId := if isPlayer then Some playerId else None;
               Client.readyState := OPEN |} in
  let w := with_random g (with_clients (clients w ++ [ws]) w) in
  if isPlayer then
    let '(puzzle, g) := shufflePuzzle (random w) in
    let w := with_random g w in
    let w := with_gameState
               (with_players
                  (Map_set playerId (new_player playerId playerName puzzle) (players_of w))
                  (gameState w)) w in
    let w := post [(c, init playerId playerName
                          (GameState.imageUrl (gameState w))
                          (match Map_get playerId (players_of w) with
                           | Some p => Player.puzzle p
                           | None => []
                           end)
                          (GameState.status (gameState w)))] w in
    broadcastLeaderboard w
  else w.

(** ** The message handler *)

(** The value that [JSON.parse] returns, by what the handler does with it:
    [null], of which no property can be read; an object whose [type] is one
    of the four of the [switch], with the fields that the case reads,
    whatever they hold; [other] stands for every other value (an object
    with another [type] or none, a number, a string, an array), for which
    [data.type] matches no case. *)
Inductive data : Type :=
  | null
  | uploadImage (imageData : field) (filename : converted)
  | startGame
  | rotate (playerId : field) (tileIndex : key)
  | resetGame
  | other (type : string).

(** An inbound frame, by what [JSON.parse] makes of its text. *)
Inductive frame : Type :=
  | Unparseable (text : string)
  | Parseable (d : data).

Definition JSON_parse (message : frame) : exn + data :=
  match message with
  | Unparseable _ => inl SyntaxError
  | Parseable d => inr d
  end.

(** What a handler leaves behind: it returns, or it throws and the
    exception leaves the handler with the world as it was at the throw. *)
Inductive outcome : Type :=
  | Returned (w : world)
  | Thrown (e : exn) (w : world).

(** [if (gameState.imageUrl)] *)
Definition truthy (s : option string) : bool :=
  match s with
  | None => false
  | Some s => negb (String.eqb s "")
  end.

(** The first [forEach] of 'startGame'. *)
Fixpoint restart_players (ps : list (string * Player.t)) (t : timer) (g : rng)
  : list (string * Player.t) * timer * rng :=
  match ps with
  | [] => ([], t, g)
  | (k, player) :: rest =>
      let '(now, t) := Date_now t in
      let '(puzzle, g) := shufflePuzzle g in
      let player := {| Player.id := Player.id player;
                       Player.name := Player.name player;
                       Player.status := Playing;
                       Player.time := 0;
                       Player.steps := 0;
                       Player.startTime := Some now;
                       Player.finishTime := None;
                       Player.puzzle := puzzle |} in
      let '(rest, t, g) := restart_players rest t g in
      ((k, player) :: rest, t, g)
  end.

(** The second [forEach] of 'startGame'. *)
Definition send_puzzles (ps : list (string * Player.t)) (w : world) : world :=
  foldl (fun w player =>
           sendToPlayer (Player.id player) (puzzleUpdate (Player.puzzle player)) w)
        w (Map_values ps).

Definition case_uploadImage (imageData : field) (filename : converted) (w : world)
  : outcome :=
  let gs := gameState w in
  match filename with
  | Unconvertible => Thrown TypeError (with_gameState (with_image imageData gs) w)
  | Converted filename =>
      let gs := {| GameState.status := GameState.status gs;
                   GameState.image := imageData;
                   GameState.imageUrl := Some ("/uploads/" +:+ filename);
                   GameState.players := GameState.players gs;
                   GameState.correctRotation := GameState.correctRotation gs;
                   GameState.gameStartTime := GameState.gameStartTime gs |} in
      Returned (broadcast (imageUpdate (GameState.imageUrl gs)) (with_gameState gs w))
  end.

Definition case_startGame (w : world) : world :=
  if truthy (GameState.imageUrl (gameState w)) then
    let '(now, t) := Date_now (clock w) in
    let '(ps, t, g) := restart_players (players_of w) t (random w) in
    let gs := gameState w in
    let gs := {| GameState.status := InPlay;
                 GameState.image := GameState.image gs;
                 GameState.imageUrl := GameState.imageUrl gs;
                 GameState.players := ps;
                 GameState.correctRotation := GameState.correctRotation gs;
                 GameState.gameStartTime := Some now |} in
    let w := with_gameState gs (with_random g (with_clock t w)) in
    let w := broadcast (gameStart (GameState.gameStartTime gs)) w in
    let w := send_puzzles (players_of w) w in
    broadcastLeaderboard w
  else w.

(** [number - startTime], with [null] converted to 0. *)
Definition minus_start (finishTime : Z) (startTime : option Z) : Z :=
  finishTime - default 0 startTime.

Definition all_finished (ps : list (string * Player.t)) : bool :=
  forallb (fun p => bool_decide (Player.status p = Finished)) (Map_values ps).

(** [puzzle[tileIndex] = (puzzle[tileIndex] + 1) % 4], for a key that
    converts.  The length of an array is a number, so that 'length' sets
    the length to one of 0, 1, 2, 3; under any other name the assignment
    leaves the elements as they are. *)
Definition turn (puzzle : array) (tileIndex : key) : array :=
  match tileIndex with
  | Index i => array_set puzzle i (mod4 (plus_one (array_get puzzle i)))
  | Length => set_length puzzle (Z.to_nat (Z.rem (Z.of_nat (length puzzle) + 1) 4))
  | Every | Name | NoKey => puzzle
  end.

Definition is_key (tileIndex : key) : bool :=
  match tileIndex with NoKey => false | _ => true end.

(** After [puzzle['every'] = NaN] the puzzle has an own property 'every'
    that is no function. *)
Definition hides_every (tileIndex : key) : bool :=
  match tileIndex with Every => true | _ => false end.

(** The 'rotate' case.  [players.get] finds a player only under a string.
    For a player who is playing, the assignment throws when [tileIndex] is
    no key, and the call of [a.every] in [arraysEqual] throws when the
    assignment has hidden that method; by then the step is counted. *)
Definition case_rotate (playerId : field) (tileIndex : key) (w : world) : outcome :=
  match playerId with
  | JSstring playerId =>
      match Map_get playerId (players_of w) with
      | Some player =>
          if bool_decide (Player.status player = Playing) then
            if negb (is_key tileIndex) then Thrown TypeError w else
            let puzzle := turn (Player.puzzle player) tileIndex in
            let steps := Player.steps player + 1 in
            if hides_every tileIndex then
              let player := {| Player.id := Player.id player;
                               Player.name := Player.name player;
                               Player.status := Player.status player;
                               Player.time := Player.time player;
                               Player.steps := steps;
                               Player.startTime := Player.startTime player;
                               Player.finishTime := Player.finishTime player;
                               Player.puzzle := puzzle |} in
              Thrown TypeError
                (with_gameState
                   (with_players (Map_set playerId player (players_of w)) (gameState w)) w)
            else
            let w :=
              if arraysEqual puzzle (GameState.correctRotation (gameState w)) then
                let '(now, t) := Date_now (clock w) in
                let player := {| Player.id := Player.id player;
                                 Player.name := Player.name player;
                                 Player.status := Finished;
                                 Player.time := minus_start now (Player.startTime player);
                                 Player.steps := steps;
                                 Player.startTime := Player.startTime player;
                                 Player.finishTime := Some now;
                                 Player.puzzle := puzzle |} in
                let w := with_gameState
                           (with_players (Map_set playerId player (players_of w)) (gameState w))
                           (with_clock t w) in
                let w := broadcast (playerFinished (Player.id player) (Player.name player)
                                      (Player.time player) (Player.steps player)) w in
                if all_finished (players_of w) then
                  broadcast gameEnd (with_gameState (with_status Over (gameState w)) w)
                else w
              else
                let player := {| Player.id := Player.id player;
                                 Player.name := Player.name player;
                                 Player.status := Player.status player;
                                 Player.time := Player.time player;
                                 Player.steps := steps;
                                 Player.startTime := Player.startTime player;
                                 Player.finishTime := Player.finishTime player;
                                 Player.puzzle := puzzle |} in
                with_gameState
                  (with_players (Map_set playerId player (players_of w)) (gameState w)) w in
            Returned (broadcastLeaderboard w)
          else Returned w
      | None => Returned w
      end
  | JSundefined | JSnull | JSother => Returned w
  end.

(** [fs.readdirSync(uploadDir).forEach(file => fs.unlinkSync(...))] on the
    entries of the directory: what is left of it, and the exception if one
    of the calls failed. *)
Fixpoint unlink_each (entries : list (string * entry_kind))
  : list (string * entry_kind) * option exn :=
  match entries with
  | [] => ([], None)
  | (_, RegularFile) :: rest => unlink_each rest
  | (file, Directory) :: rest => ((file, Directory) :: rest, Some (SystemError "EISDIR"))
  end.

Definition case_resetGame (w : world) : outcome :=
  let gs := gameState w in
  let gs := {| GameState.status := Waiting;
               GameState.image := JSnull;
               GameState.imageUrl := None;
               GameState.players := [];
               GameState.correctRotation := GameState.correctRotation gs;
               GameState.gameStartTime := None |} in
  let w := with_gameState gs w in
  match uploads w with
  | None => Thrown (SystemError "ENOENT") w
  | Some entries =>
      match unlink_each entries with
      | (remaining, Some e) => Thrown e (with_uploads (Some remaining) w)
      | (remaining, None) =>
          let w := with_uploads (Some remaining) w in
          let w := broadcast gameReset w in
          Returned (broadcastLeaderboard w)
      end
  end.

(** The body of [ws.on('message', ...)]; [ws] is the socket of the closure,
    which the body never mentions.  Reading [data.type] throws when [data]
    is [null]. *)
Definition on_message (ws : Client.t) (message : frame) (w : world) : outcome :=
  match JSON_parse message with
  | inl e => Thrown e w
  | inr null => Thrown TypeError w
  | inr (uploadImage imageData filename) => case_uploadImage imageData filename w
  | inr startGame => Returned (case_startGame w)
  | inr (rotate playerId tileIndex) => case_rotate playerId tileIndex w
  | inr resetGame => case_resetGame w
  | inr (other _) => Returned w
  end.

(** ** The close handler *)

Definition on_close (ws : Client.t) (w : world) : world :=
  let playerId := Client.uuid ws in
  if Map_has playerId (players_of w) then
    broadcastLeaderboard
      (with_gameState (with_players (Map_delete playerId (players_of w)) (gameState w)) w)
  else w.

(** ** The process *)

(** What reaches the server.  [Closing] is the start of a close handshake:
    the socket leaves the OPEN state and no handler runs. *)
Inductive event : Type :=
  | Connection (c : nat) (url uuid : string)
  | Message (c : nat) (message : frame)
  | Closing (c : nat)
  | Close (c : nat).

Definition is_conn (c : nat) (client : Client.t) : bool := Nat.eqb (Client.conn client) c.

Definition find_client (c : nat) (w : world) : option Client.t :=
  find (is_conn c) (clients w).

Definition mark_closing (c : nat) (client : Client.t) : Client.t :=
  if is_conn c client then
    {| Client.conn := Client.conn client; Client.uuid := Client.uuid client;
       Client.playerId := Client.playerId client; Client.readyState := CLOSING |}
  else client.

(** One event, run to completion.  Message and close events belong to a
    socket of [wss.clients]; the library takes the socket out of the set
    before the close handler runs. *)
Definition deliver (e : event) (w : world) : outcome :=
  match e with
  | Connection c url uuid => Returned (on_connection c url uuid w)
  | Message c message =>
      match find_client c w with
      | Some ws => on_message ws message w
      | None => Returned w
      end
  | Closing c => Returned (with_clients (map (mark_closing c) (clients w)) w)
  | Close c =>
      match find_client c w with
      | Some ws =>
          Returned (on_close ws
                      (with_clients (filter (fun client => negb (is_conn c client)) (clients w)) w))
      | None => Returned w
      end
  end.

(** The server installs no handler for uncaught exceptions, so that an
    exception which leaves a handler ends the process, and with it the
    session and every connection. *)
Inductive process : Type :=
  | Running (w : world)
  | Exited (e : exn).

Definition step (p : process) (e : event) : process :=
  match p with
  | Running w =>
      match deliver e w with
      | Returned w' => Running w'
      | Thrown x _ => Exited x
      end
  | Exited x => Exited x
  end.

Definition run (es : list event) (p : process) : process := foldl step p es.

(** The state in which the process starts. *)
Definition initial_gameState : GameState.t :=
  {| GameState.status := Waiting;
     GameState.image := JSnull;
     GameState.imageUrl := None;
     GameState.players := [];
     GameState.correctRotation := correctRotation0;
     GameState.gameStartTime := None |}.

Definition boot (src : nat -> nat) (ticks : nat -> Z)
    (dir : option (list (string * entry_kind))) : world :=
  {| gameState := initial_gameState;
     clients := [];
     random := {| source := src; used := 0 |};
     clock := {| readings := ticks; reads := 0 |};
     uploads := dir;
     sent := [] |}.

(** ** The address of the player page *)

(** The three variables of [process.env] that the server reads; [None] is a
    variable that is not set. *)
Record environment : Type := {
  PUBLIC_URL : option string;
  RAILWAY_PUBLIC_DOMAIN : option string;
  RENDER_SERVICE_URL : option string
}.

(** One address of a network interface, as [os.networkInterfaces()] lists
    it under the name of the interface. *)
Record iface : Type := {
  family : string;
  internal : bool;
  address : string
}.

(** [s] without the prefix [p], if it starts with it. *)
Fixpoint strip_prefix (p s : string) : option string :=
  match p with
  | EmptyString => Some s
  | String a p' =>
      match s with
      | EmptyString => None
      | String b s' => if Ascii.eqb a b then strip_prefix p' s' else None
      end
  end.

(** [s.replace(/^https?:\/\//, '')] *)
Definition strip_scheme (s : string) : string :=
  match strip_prefix "http://" s with
  | Some rest => rest
  | None =>
      match strip_prefix "https://" s with
      | Some rest => rest
      | None => s
      end
  end.

(** [s.replace(/\/$/, '')]: without the [m] flag [$] is the end of the
    string, so that one slash goes when the string ends with it. *)
Fixpoint strip_trailing_slash (s : string) : string :=
  match s with
  | EmptyString => EmptyString
  | String c rest =>
      match rest with
      | EmptyString => if Ascii.eqb c "/"%char then EmptyString else s
      | String _ _ => String c (strip_trailing_slash rest)
      end
  end.

(** [iface.family === 'IPv4' && !iface.internal] *)
Definition external_IPv4 (i : iface) : bool :=
  String.eqb (family i) "IPv4" && negb (internal i).

Definition getLocalIP (env : environment) (interfaces : list (string * list iface)) : string :=
  if truthy (PUBLIC_URL env) then
    strip_trailing_slash (strip_scheme (default EmptyString (PUBLIC_URL env)))
  else if truthy (RAILWAY_PUBLIC_DOMAIN env) then
    default EmptyString (RAILWAY_PUBLIC_DOMAIN env)
  else if truthy (RENDER_SERVICE_URL env) then
    strip_trailing_slash (strip_scheme (default EmptyString (RENDER_SERVICE_URL env)))
  else
    match find external_IPv4 (flat_map snd interfaces) with
    | Some i => address i
    | None => "localhost"%string
    end.

Definition getProtocol (env : environment) : string :=
  if truthy (PUBLIC_URL env) then
    if String.prefix "https" (default EmptyString (PUBLIC_URL env))
    then "https"%string else "http"%string
  else if truthy (RAILWAY_PUBLIC_DOMAIN env) || truthy (RENDER_SERVICE_URL env) then
    "https"%string
  else "http"%string.

(** The [playerUrl] of the '/qrcode' route, which the route encodes and
    returns as [url]. *)
Definition playerUrl (env : environment) (interfaces : list (string * list iface)) : string :=
  getProtocol env +:+ "://" +:+ getLocalIP env interfaces +:+ "/player.html".

(** * The vocabulary of the properties *)

(** ** Puzzles *)

(** A cell that holds an integer. *)
Definition whole (c : option num) : Prop := exists z, c = Some (Int z).

(** The cell that the [k]-th iteration of the generator's loop pushes. *)
Definition nth_draw (g : rng) (k : nat) : option num :=
  Some (Int (Z.of_nat (source g (used g + k) mod 4))).

(** The puzzle that the assignment [puzzle[i] = (puzzle[i] + 1) % 4] leaves. *)
Definition turned (a : array) (i : Z) : array :=
  array_set a i (mod4 (plus_one (array_get a i))).

(** A rotate message that names one of the nine tiles; the other events
    carry no tile index. *)
Definition well_indexed (e : event) : Prop :=
  match e with
  | Message _ (Parseable (rotate _ (Index i))) => 0 <= i < 9
  | Message _ (Parseable (rotate _ _)) => False
  | _ => True
  end.

(** The target is the all-zero configuration and every registered player
    holds a well-formed puzzle. *)
Definition puzzles_ok (w : world) : Prop :=
  GameState.correctRotation (gameState w) = correctRotation0
  /\ forall id p, Map_get id (players_of w) = Some p -> puzzle_ok (Player.puzzle p).

(** ** The order of the leaderboard *)

(** [a] does not go after [b] for the comparator [cmp]. *)
Definition before {A : Type} (cmp : A -> A -> Z) (a b : A) : Prop := cmp a b <= 0.

(** The ordering rule, as a relation between an entry and a later one: two
    finished entries by time, a finished one before any other, two
    unfinished ones by steps. *)
Definition in_rank_order (a b : Entry.t) : Prop :=
  match Entry.status a, Entry.status b with
  | Finished, Finished => Entry.time a <= Entry.time b
  | Finished, _ => True
  | _, Finished => False
  | _, _ => Entry.steps a <= Entry.steps b
  end.

(** Two entries between which the rule does not decide. *)
Definition tied (e x : Entry.t) : Prop := compare_entries e x = 0.

#[global] Instance tied_dec e x : Decision (tied e x).
Proof. unfold tied. apply _. Defined.

(** The players of the example: A and B have finished, after 120 ms and
    80 ms and with more steps than the others; C and D are playing, with 5
    and 2 steps. *)
Definition example_player (id : string) (status : PlayerStatus) (time steps : Z) : Player.t :=
  {| Player.id := id; Player.name := id; Player.status := status;
     Player.time := time; Player.steps := steps;
     Player.startTime := Some 1000;
     Player.finishTime := if decide (status = Finished) then Some (1000 + time) else None;
     Player.puzzle := correctRotation0 |}.

Definition example_registry : list (string * Player.t) :=
  [("A"%string, example_player "A" Finished 120 40);
   ("B"%string, example_player "B" Finished 80 70);
   ("C"%string, example_player "C" Playing 0 5);
   ("D"%string, example_player "D" Playing 0 2)].

(** ** Frames *)

(** The frames of one [broadcast]: one per open client. *)
Definition to_all (data : outmsg) (w : world) : list (nat * outmsg) :=
  addressed data (filter (fun client => is_open client) (clients w)).

(** The frames of the second loop of 'startGame'. *)
Definition puzzle_frames (ps : list (string * Player.t)) (cs : list Client.t)
  : list (nat * outmsg) :=
  flat_map (fun player =>
              addressed (puzzleUpdate (Player.puzzle player))
                (filter (fun client => is_open client && bound_to (Player.id player) client) cs))
           (Map_values ps).

(** The frames that tell of a completion. *)
Definition tells_completion (data : outmsg) : bool :=
  match data with
  | playerFinished _ _ _ _ | gameEnd => true
  | _ => false
  end.

(** ** Histories of rotations *)

Definition is_playing (id : string) (w : world) : bool :=
  match Map_get id (players_of w) with
  | Some p => bool_decide (Player.status p = Playing)
  | None => false
  end.

(** The rotate messages for one player, handled one after the other. *)
Fixpoint play (ws : Client.t) (id : string) (history : list Z) (w : world) : outcome :=
  match history with
  | [] => Returned w
  | i :: rest =>
      match on_message ws (Parseable (rotate id i)) w with
      | Returned w' => play ws id rest w'
      | Thrown e w' => Thrown e w'
      end
  end.

(** The world that the 'rotate' case leaves, also when it throws.  For a
    tile index that is an integer it does not throw. *)
Definition rotated (id : string) (tileIndex : key) (w : world) : world :=
  match case_rotate id tileIndex w with
  | Returned w' => w'
  | Thrown _ w' => w'
  end.

(** The rotations of a history that the handler accepts: those that find
    the player playing. *)
Fixpoint accepted (id : string) (history : list Z) (w : world) : list Z :=
  match history with
  | [] => []
  | i :: rest =>
      (if is_playing id w then [i] else []) ++ accepted id rest (rotated id i w)
  end.

(** How many of the rotations [l] are on the tile [k]. *)
Definition count_on (k : Z) (l : list Z) : Z :=
  Z.of_nat (length (filter (fun i => i = k) l)).

(** ** The start of a round *)

(** What the first loop of 'startGame' makes of a player [p], when the
    clock stood at [t] and [n] players were registered. *)
Definition restarted (t : timer) (n : nat) (p p' : Player.t) : Prop :=
  Player.id p' = Player.id p
  /\ Player.name p' = Player.name p
  /\ Player.status p' = Playing
  /\ Player.time p' = 0
  /\ Player.steps p' = 0
  /\ Player.finishTime p' = None
  /\ (exists k, (reads t <= k < reads t + n)%nat
                /\ Player.startTime p' = Some (readings t k))
  /\ (exists g, Player.puzzle p' = (shufflePuzzle g).1).

(** The puzzles that [n] calls of the generator return one after the other,
    the first call drawing from the source [g], and the source that the
    last call leaves. *)
Fixpoint generated (n : nat) (g : rng) : list array * rng :=
  match n with
  | O => ([], g)
  | S n' =>
      let '(puzzle, g) := shufflePuzzle g in
      let '(rest, g) := generated n' g in
      (puzzle :: rest, g)
  end.

(** The readings of the clock [t] that [n] calls of [Date.now] return. *)
Definition next_readings (n : nat) (t : timer) : list Z :=
  map (fun k => readings t (reads t + k)%nat) (seq 0 n).

(** The asset reference is null or a non-empty string. *)
Definition url_ok (w : world) : Prop :=
  GameState.imageUrl (gameState w) = None
  \/ truthy (GameState.imageUrl (gameState w)) = true.

(** ** The status of a player *)

Definition is_startGame (e : event) : bool :=
  match e with
  | Message _ (Parseable startGame) => true
  | _ => false
  end.

(** The connection event that registers a player under the id [id]. *)
Definition registers (id : string) (e : event) : bool :=
  match e with
  | Connection _ _ uuid => String.eqb uuid id
  | _ => false
  end.

(** How the status [s] of a player can have become [s'] along the events
    [es]: it stayed, or went from playing to finished, or a start request
    was among the events and the player is playing or finished. *)
Definition advanced (es : list event) (s s' : PlayerStatus) : Prop :=
  s' = s
  \/ (s = Playing /\ s' = Finished)
  \/ (Exists (fun e => is_startGame e = true) es /\ s' <> Joined).

(** The place of a status in the order joined, playing, finished. *)
Definition rank (s : PlayerStatus) : Z :=
  match s with
  | Joined => 0
  | Playing => 1
  | Finished => 2
  end.

(** ** A session *)

(** A player and an administrator connect, the administrator publishes an
    image and starts the round.  The random source yields zeros only, so
    that every generated puzzle is the all-zero draw with its first cell
    forced to 1; the clock advances by 10 ms from one reading to the
    next. *)
Definition zero_source : nat -> nat := fun _ => 0%nat.

Definition ticking : nat -> Z := fun n => 1000 + 10 * Z.of_nat n.

Definition opening : list event :=
  [Connection 1 "/?role=player" "p1";
   Connection 2 "/?role=admin" "a1";
   Message 2 (Parseable (uploadImage "pixels" "cat.png"));
   Message 2 (Parseable startGame)].

(** The world in which the process is after the events [es], if it is still
    running. *)
Definition world_after (es : list event) (w : world) : world :=
  match run es (Running w) with
  | Running w' => w'
  | Exited _ => w
  end.

Definition lobby : world := boot zero_source ticking (Some [("cat.png"%string, RegularFile)]).

Definition round : world := world_after opening lobby.

Definition status_of (id : string) (w : world) : option PlayerStatus :=
  Player.status <$> Map_get id (players_of w).

Definition puzzle_of (id : string) (w : world) : option array :=
  Player.puzzle <$> Map_get id (players_of w).

Definition steps_of (id : string) (w : world) : option Z :=
  Player.steps <$> Map_get id (players_of w).

Definition the_player (id : string) (w : world) : Player.t :=
  match Map_get id (players_of w) with
  | Some p => p
  | None => new_player id "" []
  end.

(** The administrator's socket of the session. *)
Definition admin : Client.t :=
  {| Client.conn := 2; Client.uuid := "a1"; Client.playerId := None;
     Client.readyState := OPEN |}.

(** The socket of p1 in a world, as [wss.clients] holds it. *)
Definition the_player_socket (w : world) : Client.t :=
  match find_client 1 w with
  | Some ws => ws
  | None => admin
  end.

Definition turn_first_tile : event := Message 1 (Parseable (rotate "p1" 0)).

(** The round after two of the three rotations that solve the puzzle. *)
Definition nearly_solved : world := world_after [turn_first_tile; turn_first_tile] round.

(** The round after p1 has solved the puzzle with three rotations of the
    first tile. *)
Definition solved : world :=
  world_after [turn_first_tile; turn_first_tile; turn_first_tile] round.

(** ** How the game state moves *)

(** The player that a rotation of tile [i] leaves when the puzzle does not
    match the target, and the one it leaves when it does, [now] being the
    reading of the clock. *)
Definition moved (i : key) (p : Player.t) : Player.t :=
  {| Player.id := Player.id p;
     Player.name := Player.name p;
     Player.status := Player.status p;
     Player.time := Player.time p;
     Player.steps := Player.steps p + 1;
     Player.startTime := Player.startTime p;
     Player.finishTime := Player.finishTime p;
     Player.puzzle := turn (Player.puzzle p) i |}.

Definition completed (i : key) (now : Z) (p : Player.t) : Player.t :=
  {| Player.id := Player.id p;
     Player.name := Player.name p;
     Player.status := Finished;
     Player.time := minus_start now (Player.startTime p);
     Player.steps := Player.steps p + 1;
     Player.startTime := Player.startTime p;
     Player.finishTime := Some now;
     Player.puzzle := turn (Player.puzzle p) i |}.

(** The game states that one handled event can make of the game state
    [gs]: one case for each assignment path of the handlers. *)
Inductive gameState_step (gs : GameState.t) : GameState.t -> Prop :=
  | step_same :
      gameState_step gs gs
  | step_join (k name : string) (g : rng) :
      gameState_step gs
        (with_players
           (Map_set k (new_player k name (shufflePuzzle g).1) (GameState.players gs)) gs)
  | step_upload (imageData : field) (filename : string) :
      gameState_step gs
        {| GameState.status := GameState.status gs;
           GameState.image := imageData;
           GameState.imageUrl := Some ("/uploads/" +:+ filename);
           GameState.players := GameState.players gs;
           GameState.correctRotation := GameState.correctRotation gs;
           GameState.gameStartTime := GameState.gameStartTime gs |}
  | step_start (now : Z) (t : timer) (g : rng) :
      truthy (GameState.imageUrl gs) = true ->
      gameState_step gs
        {| GameState.status := InPlay;
           GameState.image := GameState.image gs;
           GameState.imageUrl := GameState.imageUrl gs;
           GameState.players := (restart_players (GameState.players gs) t g).1.1;
           GameState.correctRotation := GameState.correctRotation gs;
           GameState.gameStartTime := Some now |}
  | step_move (k : string) (p : Player.t) (i : key) :
      Map_get k (GameState.players gs) = Some p ->
      Player.status p = Playing ->
      arraysEqual (turn (Player.puzzle p) i) (GameState.correctRotation gs) = false ->
      gameState_step gs (with_players (Map_set k (moved i p) (GameState.players gs)) gs)
  | step_complete (k : string) (p : Player.t) (i : key) (now : Z) :
      Map_get k (GameState.players gs) = Some p ->
      Player.status p = Playing ->
      arraysEqual (turn (Player.puzzle p) i) (GameState.correctRotation gs) = true ->
      gameState_step gs
        (let gs' := with_players (Map_set k (completed i now p) (GameState.players gs)) gs in
         if all_finished (GameState.players gs') then with_status Over gs' else gs')
  | step_reset :
      gameState_step gs
        {| GameState.status := Waiting;
           GameState.image := JSnull;
           GameState.imageUrl := None;
           GameState.players := [];
           GameState.correctRotation := GameState.correctRotation gs;
           GameState.gameStartTime := None |}
  | step_leave (k : string) :
      gameState_step gs (with_players (Map_delete k (GameState.players gs)) gs).

(** The player that the first loop of 'startGame' makes of [p]. *)
Definition restart (now : Z) (puzzle : array) (p : Player.t) : Player.t :=
  {| Player.id := Player.id p;
     Player.name := Player.name p;
     Player.status := Playing;
     Player.time := 0;
     Player.steps := 0;
     Player.startTime := Some now;
     Player.finishTime := None;
     Player.puzzle := puzzle |}.

(** ** What holds in every state *)

(** The session: the status is never 'ready'; it is 'waiting' exactly as
    long as no round has started since the process began or was reset, and
    then everybody has just joined; outside 'waiting' an asset is set;
    where the reference of the image is null, so is the image (the two are
    cleared together, while an upload sets the reference whatever the
    message holds as image data, [null] or nothing at all included); the
    target is the all-zero configuration. *)
Definition session_sound (gs : GameState.t) : Prop :=
  GameState.status gs <> Ready
  /\ (GameState.status gs = Waiting <-> GameState.gameStartTime gs = None)
  /\ (GameState.status gs <> Waiting -> truthy (GameState.imageUrl gs) = true)
  /\ (GameState.imageUrl gs = None -> GameState.image gs = JSnull)
  /\ (GameState.status gs = Waiting ->
      Forall (fun entry => Player.status entry.2 = Joined) (GameState.players gs))
  /\ GameState.correctRotation gs = correctRotation0.

(** A player under the key [k]: it carries its key as id and has counted no
    negative number of steps; joined, it has no steps and no times;
    playing, it has a start time, no finish time and time 0; finished, it
    has both times, [time] is their difference, and it has made a step. *)
Definition player_sound (k : string) (p : Player.t) : Prop :=
  Player.id p = k
  /\ 0 <= Player.steps p
  /\ match Player.status p with
     | Joined =>
         Player.steps p = 0 /\ Player.time p = 0
         /\ Player.startTime p = None /\ Player.finishTime p = None
     | Playing =>
         Player.time p = 0 /\ Player.finishTime p = None
         /\ exists started, Player.startTime p = Some started
     | Finished =>
         0 < Player.steps p
         /\ exists started finished,
              Player.startTime p = Some started /\ Player.finishTime p = Some finished
              /\ Player.time p = finished - started
     end.

(** A player is finished exactly when its puzzle matches the target. *)
Definition finished_iff_solved (p : Player.t) : Prop :=
  Player.status p = Finished <-> arraysEqual (Player.puzzle p) correctRotation0 = true.

(** ** Solving a puzzle *)

(** The rotations that the tile [j] of a puzzle still needs to come back to
    0, and the rotations that the nine tiles need together. *)
Definition need (a : array) (j : Z) : Z :=
  match array_get a j with
  | Some (Int v) => (4 - v) mod 4
  | _ => 0
  end.

Definition remaining (a : array) : Z :=
  need a 0 + need a 1 + need a 2 + need a 3 + need a 4
  + need a 5 + need a 6 + need a 7 + need a 8.

(** ** Where frames go *)

(** The frame [f] is addressed to a socket of [cs] that is open. *)
Definition reaches_open (cs : list Client.t) (f : nat * outmsg) : Prop :=
  exists client, client ∈ cs /\ Client.conn client = f.1 /\ is_open client = true.

(** * Properties *)

(** ** Arrays *)

Lemma rotation_whole c : rotation c -> whole c.
Proof. destruct c as [[v|]|]; try done. by exists v. Qed.

Lemma strict_eq_true z b : strict_eq (Int z) b = true <-> b = Some (Int z).
Proof.
  destruct b as [[y|]|]; simpl; split; try discriminate.
  - intros H%Z.eqb_eq. by subst.
  - intros [= ->]. apply Z.eqb_refl.
Qed.

Lemma mjoin_lookup_Some (b : array) (j : nat) (x : num) :
  mjoin (b !! j) = Some x <-> b !! j = Some (Some x).
Proof. destruct (b !! j) as [[y|]|]; simpl; split; congruence. Qed.

(** On an array of integers without holes, [every] with the comparison of
    [arraysEqual] holds exactly when the other array agrees at each index. *)
Lemma every_from_agree (b : array) (a : array) (i : nat) :
  Forall whole a ->
  every_from i (fun val j => strict_eq val (mjoin (b !! j))) a = true
  <-> (forall k, (k < length a)%nat -> b !! (i + k)%nat = a !! k).
Proof.
  revert i. induction a as [|c a IH]; intros i Ha.
  - simpl. split; [intros _ k Hk; lia | done].
  - apply Forall_cons in Ha as [[z ->] Ha]. cbn [every_from length].
    rewrite andb_true_iff, strict_eq_true, mjoin_lookup_Some, (IH (S i) Ha).
    split.
    + intros [H0 Hr] [|k] Hk.
      * by rewrite Nat.add_0_r.
      * rewrite Nat.add_succ_r, <- Nat.add_succ_l.
        rewrite Hr by (cbn [length] in Hk; lia). done.
    + intros H. split.
      * specialize (H 0%nat). rewrite Nat.add_0_r in H. apply H. lia.
      * intros k Hk. rewrite Nat.add_succ_l, <- Nat.add_succ_r.
        rewrite H by lia. done.
Qed.

Lemma arraysEqual_true_iff (a b : array) :
  Forall whole a -> length a = length b ->
  arraysEqual a b = true <-> a = b.
Proof.
  intros Ha Hlen. unfold arraysEqual, every. rewrite every_from_agree by done.
  split.
  - intros H. apply list_eq. intros k.
    destruct (decide (k < length a)%nat) as [Hk|Hk].
    + symmetry. apply (H k Hk).
    + rewrite !lookup_ge_None_2; [done | lia | lia].
  - intros -> k _. done.
Qed.

Lemma puzzle_ok_whole a : puzzle_ok a -> Forall whole a.
Proof. intros [_ H]. eapply Forall_impl; [exact H | apply rotation_whole]. Qed.

Lemma correctRotation0_ok : puzzle_ok correctRotation0.
Proof.
  split; [reflexivity |].
  apply Forall_replicate. simpl. lia.
Qed.

(** A well-formed puzzle equals the target, in the sense of [arraysEqual],
    exactly when all its cells are 0. *)
Lemma arraysEqual_target (a : array) :
  puzzle_ok a -> arraysEqual a correctRotation0 = true <-> a = correctRotation0.
Proof.
  intros Ha. apply arraysEqual_true_iff.
  - by apply puzzle_ok_whole.
  - destruct Ha as [-> _]. reflexivity.
Qed.

Lemma every_from_zero (a : array) (i : nat) :
  Forall whole a ->
  every_from i (fun r _ => strict_eq r (Some (Int 0))) a = true
  <-> a = replicate (length a) (Some (Int 0)).
Proof.
  revert i. induction a as [|c a IH]; intros i Ha; simpl.
  - done.
  - apply Forall_cons in Ha as [[z ->] Ha].
    rewrite andb_true_iff, (IH (S i) Ha), strict_eq_true.
    split.
    + intros [[= ->] <-]. done.
    + intros [= -> H]. by rewrite <- H.
Qed.

(** ** The generator *)

Lemma push_random_eq (n : nat) (acc : array) (g : rng) :
  push_random n acc g =
  (acc ++ map (nth_draw g) (seq 0 n), {| source := source g; used := used g + n |}).
Proof.
  revert acc g. induction n as [|n IH]; intros acc g.
  - simpl. rewrite app_nil_r, Nat.add_0_r. by destruct g.
  - cbn [push_random random_int]. rewrite IH. cbn [source used].
    rewrite <- app_assoc. f_equal.
    + f_equal. cbn [seq map app]. f_equal.
      * unfold nth_draw. by rewrite Nat.add_0_r.
      * rewrite <- seq_shift, map_map. apply map_ext. intros k.
        unfold nth_draw. cbn [source used].
        by replace (S (used g) + k)%nat with (used g + S k)%nat by lia.
    + f_equal. lia.
Qed.

Lemma nth_draw_rotation g k : rotation (nth_draw g k).
Proof.
  unfold nth_draw, rotation.
  pose proof (Nat.mod_upper_bound (source g (used g + k)) 4). lia.
Qed.

Lemma drawn_ok (g : rng) : puzzle_ok (push_random 9 [] g).1.
Proof.
  rewrite push_random_eq. cbn [fst app]. split.
  - by rewrite length_map, length_seq.
  - apply List.Forall_forall. intros c (k & <- & _)%in_map_iff. apply nth_draw_rotation.
Qed.

Lemma all_zero_iff (a : array) :
  puzzle_ok a ->
  every (fun r _ => strict_eq r (Some (Int 0))) a = true <-> a = correctRotation0.
Proof.
  intros Ha. unfold every. rewrite every_from_zero by by apply puzzle_ok_whole.
  destruct Ha as [-> _]. done.
Qed.

Lemma forced_one_ok (k : nat) :
  (k < 9)%nat ->
  puzzle_ok (<[k := Some (Int 1)]> correctRotation0)
  /\ <[k := Some (Int 1)]> correctRotation0 <> correctRotation0.
Proof.
  intros Hk. split; [split |].
  - by rewrite length_insert.
  - apply Forall_insert; [apply correctRotation0_ok |]. simpl. lia.
  - intros H. apply (f_equal (fun a : array => a !! k)) in H.
    rewrite list_lookup_insert_eq in H by (simpl; lia).
    unfold correctRotation0 in H. rewrite lookup_replicate_2 in H by done.
    discriminate.
Qed.

Lemma shufflePuzzle_eq (g : rng) :
  shufflePuzzle g =
  let drawn := (push_random 9 [] g).1 in
  if bool_decide (drawn = correctRotation0)
  then (<[(source g (used g + 9) mod 9)%nat := Some (Int 1)]> correctRotation0,
        {| source := source g; used := used g + 10 |})
  else (drawn, {| source := source g; used := used g + 9 |}).
Proof.
  pose proof (drawn_ok g) as Hok.
  unfold shufflePuzzle. rewrite push_random_eq in *. cbn [fst app] in *.
  set (drawn := map (nth_draw g) (seq 0 9)) in *.
  destruct (every _ drawn) eqn:E.
  - apply (all_zero_iff _ Hok) in E. rewrite bool_decide_eq_true_2 by done.
    cbn [random_int source used]. rewrite E. f_equal; [| f_equal; lia].
    unfold array_set.
    pose proof (Nat.mod_upper_bound (source g (used g + 9)) 9) as Hb.
    replace (is_array_index _) with true.
    + rewrite Nat2Z.id. rewrite decide_True; [done |]. simpl. lia.
    + symmetry. unfold is_array_index. apply andb_true_iff. split.
      * apply Z.leb_le. lia.
      * apply Z.ltb_lt. change (2 ^ 32 - 1) with 4294967295. lia.
  - rewrite bool_decide_eq_false_2; [done |].
    intros H. apply (all_zero_iff _ Hok) in H. congruence.
Qed.

Lemma shufflePuzzle_fresh (g : rng) :
  puzzle_ok (shufflePuzzle g).1 /\ (shufflePuzzle g).1 <> correctRotation0.
Proof.
  rewrite shufflePuzzle_eq. cbn zeta.
  destruct (bool_decide ((push_random 9 [] g).1 = correctRotation0)) eqn:E; cbn [fst].
  - apply forced_one_ok, Nat.mod_upper_bound. lia.
  - split; [apply drawn_ok | by apply bool_decide_eq_false in E].
Qed.

(** C9.  Whatever the random source, the generator returns nine rotation
    values, each one of 0, 1, 2, 3, and the result is never the all-zero
    target ([arraysEqual] with [correctRotation] rejects it): when the nine
    uniform draws are all zero, the position given by the next draw below 9
    is forced to 1, and otherwise the draws are returned as they are. *)
Theorem shufflePuzzle_never_solved (g : rng) :
  let drawn := (push_random 9 [] g).1 in
  let rotations := (shufflePuzzle g).1 in
  puzzle_ok rotations
  /\ rotations <> correctRotation0
  /\ arraysEqual rotations correctRotation0 = false
  /\ rotations =
       if bool_decide (drawn = correctRotation0)
       then <[(source g (used g + 9) mod 9)%nat := Some (Int 1)]> correctRotation0
       else drawn.
Proof.
  intros drawn rotations.
  destruct (shufflePuzzle_fresh g) as [Hok Hne]. fold rotations in Hok, Hne.
  split; [done |]. split; [done |]. split.
  - destruct (arraysEqual rotations correctRotation0) eqn:E; [| done].
    by apply arraysEqual_target in E.
  - unfold rotations. rewrite shufflePuzzle_eq. cbn zeta. fold drawn.
    by destruct (bool_decide (drawn = correctRotation0)).
Qed.

(** ** Sorting *)

Section SortFacts.
Context {A : Type} (cmp : A -> A -> Z).

Hypothesis cmp_total : forall a b, before cmp a b \/ before cmp b a.
Hypothesis cmp_trans : forall a b c, before cmp a b -> before cmp b c -> before cmp a c.

Lemma sort_insert_perm (x : A) (l : list A) :
  Permutation (sort_insert cmp x l) (x :: l).
Proof.
  induction l as [|y l IH]; cbn [sort_insert]; [done |].
  destruct (cmp x y <=? 0); [done |].
  rewrite IH. apply perm_swap.
Qed.

Lemma Array_sort_perm (l : list A) : Permutation (Array_sort cmp l) l.
Proof.
  induction l as [|x l IH]; cbn [Array_sort foldr]; [done |].
  fold (Array_sort cmp l). rewrite sort_insert_perm. by constructor.
Qed.

Lemma sort_insert_sorted (x : A) (l : list A) :
  StronglySorted (before cmp) l -> StronglySorted (before cmp) (sort_insert cmp x l).
Proof.
  induction 1 as [|y l Hl IH Hy]; cbn [sort_insert].
  - repeat constructor.
  - destruct (Z.leb_spec (cmp x y) 0) as [Hxy|Hxy].
    + constructor; [by constructor |].
      constructor; [done |].
      eapply Forall_impl; [exact Hy |]. intros z Hz. by eapply cmp_trans.
    + constructor; [done |].
      eapply Permutation_Forall; [symmetry; apply sort_insert_perm |].
      constructor; [| done].
      destruct (cmp_total x y) as [H|H]; [unfold before in H; lia | done].
Qed.

Lemma Array_sort_sorted (l : list A) : StronglySorted (before cmp) (Array_sort cmp l).
Proof.
  induction l as [|x l IH]; cbn [Array_sort foldr]; [constructor |].
  by apply sort_insert_sorted.
Qed.

(** Insertion does not reorder the elements that satisfy [P], as long as
    the inserted element never has to pass one of them. *)
Lemma sort_insert_filter (P : A -> Prop) `{!forall a, Decision (P a)} (x : A) (l : list A) :
  (forall y, P x -> P y -> before cmp x y) ->
  filter P (sort_insert cmp x l) = filter P (x :: l).
Proof.
  intros Htie. induction l as [|y l IH]; cbn [sort_insert]; [done |].
  destruct (Z.leb_spec (cmp x y) 0) as [Hxy|Hxy]; [done |].
  rewrite (filter_cons _ y), IH, !(filter_cons _ x), (filter_cons _ y).
  destruct (decide (P x)) as [Hx|Hx]; [| done].
  destruct (decide (P y)) as [Hy|Hy]; [| done].
  specialize (Htie y Hx Hy). unfold before in Htie. lia.
Qed.

Lemma Array_sort_filter (P : A -> Prop) `{!forall a, Decision (P a)} (l : list A) :
  (forall x y, P x -> P y -> before cmp x y) ->
  filter P (Array_sort cmp l) = filter P l.
Proof.
  intros Htie. induction l as [|x l IH]; cbn [Array_sort foldr]; [done |].
  fold (Array_sort cmp l). rewrite sort_insert_filter by eauto.
  by rewrite !(filter_cons _ x), IH.
Qed.
End SortFacts.

(** ** The order of the leaderboard *)

Lemma compare_entries_total (a b : Entry.t) :
  before compare_entries a b \/ before compare_entries b a.
Proof.
  unfold before, compare_entries.
  destruct (Entry.status a), (Entry.status b); lia.
Qed.

Lemma compare_entries_trans (a b c : Entry.t) :
  before compare_entries a b -> before compare_entries b c ->
  before compare_entries a c.
Proof.
  unfold before, compare_entries.
  destruct (Entry.status a), (Entry.status b), (Entry.status c); lia.
Qed.

Lemma compare_entries_tied (e x y : Entry.t) :
  compare_entries e x = 0 -> compare_entries e y = 0 ->
  before compare_entries x y.
Proof.
  unfold before, compare_entries.
  destruct (Entry.status e), (Entry.status x), (Entry.status y); lia.
Qed.

Lemma in_rank_order_before (a b : Entry.t) :
  in_rank_order a b <-> before compare_entries a b.
Proof.
  unfold in_rank_order, before, compare_entries.
  destruct (Entry.status a), (Entry.status b); lia.
Qed.

Lemma ranking_sorted (ps : list (string * Player.t)) :
  StronglySorted in_rank_order (ranking ps).
Proof.
  unfold ranking.
  pose proof (Array_sort_sorted compare_entries compare_entries_total
                compare_entries_trans (map summary (Map_values ps))) as H.
  induction H as [|e l Hl IH He]; constructor; [done |].
  eapply Forall_impl; [exact He |]. intros x. apply in_rank_order_before.
Qed.

(** C6.  The leaderboard holds the summaries of the registered players,
    each once, arranged by a total order: every entry stands in the rule's
    order to every later one (finished entries ascend by time, they precede
    all unfinished ones whatever the times and steps, unfinished entries
    ascend by steps), and entries that tie keep the order in which the
    registry iterates.  For A (finished, 120 ms), B (finished, 80 ms),
    C (playing, 5 steps), D (playing, 2 steps), in whatever order they were
    registered, the leaderboard is B, A, D, C. *)
Theorem leaderboard_order (ps : list (string * Player.t)) :
  Permutation (ranking ps) (map summary (Map_values ps))
  /\ StronglySorted in_rank_order (ranking ps)
  /\ (forall e, filter (tied e) (ranking ps) = filter (tied e) (map summary (Map_values ps)))
  /\ (forall a b, in_rank_order a b \/ in_rank_order b a)
  /\ (forall a b c, in_rank_order a b -> in_rank_order b c -> in_rank_order a c)
  /\ Forall (fun registry => map Entry.id (ranking registry) = ["B"; "A"; "D"; "C"]%string)
       (permutations example_registry).
Proof.
  split; [apply Array_sort_perm |].
  split; [apply ranking_sorted |].
  split.
  { intros e. apply Array_sort_filter. intros x y. apply compare_entries_tied. }
  split.
  { intros a b. rewrite !in_rank_order_before. apply compare_entries_total. }
  split.
  { intros a b c. rewrite !in_rank_order_before. apply compare_entries_trans. }
  vm_compute. repeat constructor.
Qed.

(** ** The map of players *)

Section JsMapFacts.
Context {V : Type}.
Implicit Types (m : list (string * V)) (k : string) (v : V).

Lemma Map_get_set_eq k v m : Map_get k (Map_set k v m) = Some v.
Proof.
  induction m as [|[k' v'] m IH]; cbn [Map_set Map_get].
  - by rewrite String.eqb_refl.
  - destruct (String.eqb_spec k k') as [->|Hne]; cbn [Map_get].
    + by rewrite String.eqb_refl.
    + by rewrite (proj2 (String.eqb_neq k k') Hne).
Qed.

Lemma Map_get_set_ne k k' v m : k <> k' -> Map_get k' (Map_set k v m) = Map_get k' m.
Proof.
  intros Hne. induction m as [|[k0 v0] m IH]; cbn [Map_set Map_get].
  - by rewrite (proj2 (String.eqb_neq k' k)).
  - destruct (String.eqb_spec k k0) as [->|Hk]; cbn [Map_get].
    + by rewrite !(proj2 (String.eqb_neq k' k0)).
    + by rewrite IH.
Qed.

Lemma Map_get_delete_eq k m : Map_get k (Map_delete k m) = None.
Proof.
  induction m as [|[k0 v0] m IH]; cbn [Map_delete Map_get]; [done |].
  destruct (String.eqb_spec k k0) as [->|Hk]; cbn [Map_get]; [done |].
  by rewrite (proj2 (String.eqb_neq k k0) Hk).
Qed.

Lemma Map_get_delete_ne k k' m : k <> k' -> Map_get k' (Map_delete k m) = Map_get k' m.
Proof.
  intros Hne. induction m as [|[k0 v0] m IH]; cbn [Map_delete Map_get]; [done |].
  destruct (String.eqb_spec k k0) as [->|Hk]; cbn [Map_get].
  - by rewrite (proj2 (String.eqb_neq k' k0)).
  - by rewrite IH.
Qed.

Lemma Map_keys_set_present k v v0 m :
  Map_get k m = Some v0 -> Map_keys (Map_set k v m) = Map_keys m.
Proof.
  induction m as [|[k0 v1] m IH]; cbn [Map_set Map_get Map_keys map fst]; [done |].
  destruct (String.eqb_spec k k0) as [->|Hk]; [done |].
  intros H. cbn [map fst]. f_equal. by apply IH.
Qed.
End JsMapFacts.

(** ** Rotations *)

(** The branches of the 'rotate' case by the kind of the key. *)
Ltac by_key k := destruct k; cbn [is_key hides_every negb].

Lemma case_rotate_absent id i w :
  Map_get id (players_of w) = None -> rotated id i w = w.
Proof. intros H. unfold rotated, case_rotate. by rewrite H. Qed.

Lemma case_rotate_idle id i w p :
  Map_get id (players_of w) = Some p -> Player.status p <> Playing ->
  rotated id i w = w.
Proof.
  intros H Hs. unfold rotated, case_rotate. rewrite H.
  by rewrite bool_decide_eq_false_2.
Qed.

(** A 'rotate' case that returns has found no player under a string, or
    leaves the world of [rotated]. *)
Lemma case_rotate_Returned (playerId : field) (k : key) (w w' : world) :
  case_rotate playerId k w = Returned w' ->
  w' = w \/ exists id : string, playerId = id /\ w' = rotated id k w.
Proof.
  destruct playerId as [| |id|]; try (intros [= <-]; by left).
  intros H. right. exists id. split; [done |]. unfold rotated. by rewrite H.
Qed.

Lemma case_uploadImage_Returned (imageData : field) (filename : converted) (w w' : world) :
  case_uploadImage imageData filename w = Returned w' ->
  exists name : string,
    filename = name
    /\ w' = broadcast (imageUpdate (Some ("/uploads/" +:+ name)))
              (with_gameState
                 {| GameState.status := GameState.status (gameState w);
                    GameState.image := imageData;
                    GameState.imageUrl := Some ("/uploads/" +:+ name);
                    GameState.players := GameState.players (gameState w);
                    GameState.correctRotation := GameState.correctRotation (gameState w);
                    GameState.gameStartTime := GameState.gameStartTime (gameState w) |} w).
Proof. destruct filename as [name|]; [| done]. intros [= <-]. by exists name. Qed.

Lemma in_range_index (i : Z) : 0 <= i < 9 -> is_array_index i = true.
Proof.
  intros Hi. unfold is_array_index. apply andb_true_iff. split.
  - apply Z.leb_le. lia.
  - apply Z.ltb_lt. change (2 ^ 32 - 1) with 4294967295. lia.
Qed.

(** Inside a well-formed puzzle a rotation replaces the cell [v] by
    [(v + 1) mod 4] and leaves a well-formed puzzle. *)
Lemma turned_in_range (a : array) (i : Z) :
  puzzle_ok a -> 0 <= i < 9 ->
  exists v, a !! Z.to_nat i = Some (Some (Int v)) /\ 0 <= v <= 3
            /\ turned a i = <[Z.to_nat i := Some (Int ((v + 1) mod 4))]> a
            /\ puzzle_ok (turned a i).
Proof.
  intros [Hlen Hall] Hi.
  assert (Hn : (Z.to_nat i < length a)%nat) by lia.
  destruct (lookup_lt_is_Some_2 a _ Hn) as [c Hc].
  pose proof (proj1 (Forall_lookup _ a) Hall _ _ Hc) as Hv.
  destruct c as [[v|]|]; try done. cbn [rotation] in Hv.
  exists v. split; [done |]. split; [done |].
  assert (Heq : turned a i = <[Z.to_nat i := Some (Int ((v + 1) mod 4))]> a).
  { unfold turned, array_set, array_get. rewrite in_range_index by done.
    rewrite decide_True by done. rewrite Hc. cbn [mjoin option_join plus_one mod4].
    rewrite Z.rem_mod_nonneg by lia. done. }
  split; [done |]. rewrite Heq. split.
  - by rewrite length_insert.
  - apply Forall_insert; [done |]. cbn [rotation].
    pose proof (Z.mod_pos_bound (v + 1) 4). lia.
Qed.

(** ** What the fanout leaves untouched *)

Lemma players_of_with_gameState gs w :
  players_of (with_gameState gs w) = GameState.players gs.
Proof. reflexivity. Qed.

Lemma players_with_players ps gs : GameState.players (with_players ps gs) = ps.
Proof. reflexivity. Qed.

Lemma players_with_status s gs :
  GameState.players (with_status s gs) = GameState.players gs.
Proof. reflexivity. Qed.

Lemma players_of_broadcast d w : players_of (broadcast d w) = players_of w.
Proof. reflexivity. Qed.

Lemma players_of_broadcastLeaderboard w : players_of (broadcastLeaderboard w) = players_of w.
Proof. reflexivity. Qed.

Lemma gameState_broadcast d w : gameState (broadcast d w) = gameState w.
Proof. reflexivity. Qed.

Lemma gameState_broadcastLeaderboard w : gameState (broadcastLeaderboard w) = gameState w.
Proof. reflexivity. Qed.

Lemma gameState_with_gameState gs w : gameState (with_gameState gs w) = gs.
Proof. reflexivity. Qed.

Lemma gameState_with_clock t w : gameState (with_clock t w) = gameState w.
Proof. reflexivity. Qed.

Lemma sent_broadcast d w : sent (broadcast d w) = sent w ++ to_all d w.
Proof. reflexivity. Qed.

Lemma sent_broadcastLeaderboard w :
  sent (broadcastLeaderboard w) = sent w ++ to_all (leaderboard (ranking (players_of w))) w.
Proof. reflexivity. Qed.

Lemma sent_with_gameState gs w : sent (with_gameState gs w) = sent w.
Proof. reflexivity. Qed.

Lemma sent_with_clock t w : sent (with_clock t w) = sent w.
Proof. reflexivity. Qed.

Lemma to_all_broadcast d d' w : to_all d (broadcast d' w) = to_all d w.
Proof. reflexivity. Qed.

Lemma to_all_with_gameState d gs w : to_all d (with_gameState gs w) = to_all d w.
Proof. reflexivity. Qed.

Lemma to_all_with_clock d t w : to_all d (with_clock t w) = to_all d w.
Proof. reflexivity. Qed.

Lemma status_with_status s gs : GameState.status (with_status s gs) = s.
Proof. reflexivity. Qed.

Lemma status_with_players ps gs :
  GameState.status (with_players ps gs) = GameState.status gs.
Proof. reflexivity. Qed.

Create Rewrite HintDb world.
#[global] Hint Rewrite
  players_of_with_gameState players_with_players players_with_status players_of_broadcast
  players_of_broadcastLeaderboard gameState_broadcast gameState_broadcastLeaderboard
  gameState_with_gameState gameState_with_clock sent_broadcast
  sent_broadcastLeaderboard sent_with_gameState sent_with_clock to_all_broadcast
  to_all_with_gameState to_all_with_clock status_with_status status_with_players
  : world.

Lemma case_rotate_playing id (i : Z) w p :
  Map_get id (players_of w) = Some p -> Player.status p = Playing ->
  rotated id i w =
  let puzzle := turned (Player.puzzle p) i in
  let steps := Player.steps p + 1 in
  broadcastLeaderboard
    (if arraysEqual puzzle (GameState.correctRotation (gameState w)) then
       let now := (Date_now (clock w)).1 in
       let player := {| Player.id := Player.id p;
                        Player.name := Player.name p;
                        Player.status := Finished;
                        Player.time := minus_start now (Player.startTime p);
                        Player.steps := steps;
                        Player.startTime := Player.startTime p;
                        Player.finishTime := Some now;
                        Player.puzzle := puzzle |} in
       let w1 := with_gameState
                   (with_players (Map_set id player (players_of w)) (gameState w))
                   (with_clock (Date_now (clock w)).2 w) in
       let w2 := broadcast (playerFinished (Player.id p) (Player.name p)
                              (minus_start now (Player.startTime p)) steps) w1 in
       if all_finished (players_of w2) then
         broadcast gameEnd (with_gameState (with_status Over (gameState w2)) w2)
       else w2
     else
       let player := {| Player.id := Player.id p;
                        Player.name := Player.name p;
                        Player.status := Player.status p;
                        Player.time := Player.time p;
                        Player.steps := steps;
                        Player.startTime := Player.startTime p;
                        Player.finishTime := Player.finishTime p;
                        Player.puzzle := puzzle |} in
       with_gameState
         (with_players (Map_set id player (players_of w)) (gameState w)) w).
Proof.
  intros H Hs. unfold rotated, case_rotate. rewrite H.
  rewrite bool_decide_eq_true_2 by done. reflexivity.
Qed.

(** ** Histories of rotations *)

(** What a rotation does to the player it names, and to no other. *)
Lemma case_rotate_player id (i : Z) w p :
  Map_get id (players_of w) = Some p -> Player.status p = Playing ->
  exists p',
    Map_get id (players_of (rotated id i w)) = Some p'
    /\ Player.puzzle p' = turned (Player.puzzle p) i
    /\ Player.steps p' = Player.steps p + 1
    /\ (Player.status p' = Playing \/ Player.status p' = Finished).
Proof.
  intros Hget Hs. rewrite (case_rotate_playing _ _ _ _ Hget Hs). cbn zeta.
  rewrite players_of_broadcastLeaderboard.
  destruct (arraysEqual _ _).
  - set (player := {| Player.id := Player.id p; Player.status := Finished |}).
    exists player. split; [| cbn; auto].
    destruct (all_finished _); autorewrite with world; apply Map_get_set_eq.
  - eexists. autorewrite with world.
    split; [apply Map_get_set_eq |]. cbn. rewrite Hs. auto.
Qed.

Lemma case_rotate_others id id' i w :
  id <> id' ->
  Map_get id' (players_of (rotated id i w)) = Map_get id' (players_of w).
Proof.
  intros Hne. unfold rotated, case_rotate.
  destruct (Map_get id (players_of w)) as [p|] eqn:Hget; [| done].
  destruct (bool_decide (Player.status p = Playing)); [| done].
  by_key i; try done; try (autorewrite with world; by apply Map_get_set_ne);
    (destruct (arraysEqual _ _); destruct (Date_now (clock w)) as [now t];
     [destruct (all_finished _) |]; autorewrite with world; by apply Map_get_set_ne).
Qed.

Lemma cell_of_puzzle (a : array) (k : Z) :
  puzzle_ok a -> 0 <= k < 9 ->
  exists v, array_get a k = Some (Int v) /\ 0 <= v <= 3.
Proof.
  intros [Hlen Hall] Hk.
  assert (Hn : (Z.to_nat k < length a)%nat) by lia.
  destruct (lookup_lt_is_Some_2 a _ Hn) as [c Hc].
  pose proof (proj1 (Forall_lookup _ a) Hall _ _ Hc) as Hv.
  destruct c as [[v|]|]; try done. exists v.
  unfold array_get. rewrite in_range_index by done. by rewrite Hc.
Qed.

Lemma count_on_cons (k i : Z) (l : list Z) :
  count_on k (i :: l) = (if decide (i = k) then 1 else 0) + count_on k l.
Proof.
  unfold count_on. rewrite filter_cons.
  destruct (decide (i = k)); cbn [length]; lia.
Qed.

(** The cell [k] after a rotation of the tile [i] of a well-formed puzzle. *)
Lemma turned_cell (a : array) (i k v : Z) :
  puzzle_ok a -> 0 <= i < 9 -> 0 <= k < 9 ->
  array_get a k = Some (Int v) ->
  array_get (turned a i) k = Some (Int ((v + (if decide (i = k) then 1 else 0)) mod 4)).
Proof.
  intros Hok Hi Hk Hv.
  destruct (cell_of_puzzle _ _ Hok Hk) as (v' & Hv' & Hrange).
  assert (v' = v) as -> by congruence.
  destruct (turned_in_range _ _ Hok Hi) as (u & Hu & _ & -> & _).
  unfold array_get in *. rewrite in_range_index in * by done.
  destruct (decide (i = k)) as [->|Hne].
  - rewrite list_lookup_insert_eq by (destruct Hok; lia).
    rewrite Hu in Hv. cbn in Hv. injection Hv as ->. done.
  - rewrite list_lookup_insert_ne by lia.
    rewrite Hv. rewrite Z.add_0_r, Z.mod_small by lia. done.
Qed.

Lemma on_message_rotate ws (id : string) (i : Z) w :
  on_message ws (Parseable (rotate id i)) w = Returned (rotated id i w).
Proof.
  unfold on_message, JSON_parse, rotated, case_rotate.
  destruct (Map_get id (players_of w)) as [p|]; [| done].
  by destruct (bool_decide (Player.status p = Playing)).
Qed.

(** C4, as stated, fails: the round starts from a shuffled puzzle, so that
    a cell is not the number of rotations it has received.  After the one
    accepted rotation of its first tile, p1 has 2 in that cell. *)
Lemma cell_is_not_the_count :
  accepted "p1" [0] round = [0]
  /\ count_on 0 (accepted "p1" [0] round) mod 4 = 1
  /\ exists w' a,
       play admin "p1" [0] round = Returned w'
       /\ puzzle_of "p1" w' = Some a
       /\ array_get a 0 = Some (Int 2)
       /\ array_get a 0 <> Some (Int (count_on 0 (accepted "p1" [0] round) mod 4)).
Proof.
  split; [by vm_compute |]. split; [by vm_compute |].
  exists (world_after [Message 1 (Parseable (rotate "p1" 0))] round).
  eexists. split; [by vm_compute |]. split; [by vm_compute |].
  split; [by vm_compute |]. by vm_compute.
Qed.

(** C4, as amended.  Take a player with a well-formed puzzle and any
    history of rotate messages for that player whose tile indices are among
    the nine cells.  The messages are all handled; afterwards the puzzle is
    well-formed (each cell one of 0, 1, 2, 3), each cell equals its value
    before the history plus the number of accepted rotations on it, modulo
    4, and the steps have grown by the number of accepted rotations.  In
    particular one accepted rotation advances its cell by one step modulo 4
    and the steps by 1. *)
Theorem rotation_history (ws : Client.t) (id : string) (history : list Z)
    (w : world) (p : Player.t) :
  Map_get id (players_of w) = Some p ->
  puzzle_ok (Player.puzzle p) ->
  Forall (fun i => 0 <= i < 9) history ->
  exists w' p',
    play ws id history w = Returned w'
    /\ Map_get id (players_of w') = Some p'
    /\ puzzle_ok (Player.puzzle p')
    /\ Player.steps p' = Player.steps p + Z.of_nat (length (accepted id history w))
    /\ forall k, 0 <= k < 9 ->
         exists v, array_get (Player.puzzle p) k = Some (Int v)
                   /\ array_get (Player.puzzle p') k
                      = Some (Int ((v + count_on k (accepted id history w)) mod 4)).
Proof.
  intros Hget Hok Hhist. revert w p Hget Hok.
  induction Hhist as [|i history Hi Hhist IH]; intros w p Hget Hok.
  - exists w, p. cbn [play accepted length].
    split; [done |]. split; [done |]. split; [done |]. split; [lia |].
    intros k Hk. destruct (cell_of_puzzle _ _ Hok Hk) as (v & Hv & Hrange).
    exists v. split; [done |].
    change (count_on k []) with 0. by rewrite Z.add_0_r, Z.mod_small by lia.
  - cbn [play accepted]. rewrite on_message_rotate.
    destruct (decide (Player.status p = Playing)) as [Hs|Hs].
    + assert (is_playing id w = true) as ->.
      { unfold is_playing. rewrite Hget. by apply bool_decide_eq_true_2. }
      destruct (case_rotate_player id i w p Hget Hs) as (p1 & Hget1 & Hp1 & Hsteps1 & _).
      destruct (turned_in_range _ _ Hok Hi) as (_ & _ & _ & _ & Hok1).
      rewrite <- Hp1 in Hok1.
      destruct (IH _ _ Hget1 Hok1) as (w' & p' & Hplay & Hget' & Hok' & Hsteps' & Hcells).
      exists w', p'. split; [done |]. split; [done |]. split; [done |].
      split; [cbn [app length]; lia |].
      intros k Hk. destruct (cell_of_puzzle _ _ Hok Hk) as (v & Hv & Hrange).
      exists v. split; [done |].
      destruct (Hcells k Hk) as (v1 & Hv1 & ->).
      rewrite Hp1, (turned_cell _ _ _ _ Hok Hi Hk Hv) in Hv1.
      injection Hv1 as <-. cbn [app]. rewrite count_on_cons.
      by rewrite Zplus_mod_idemp_l, Z.add_assoc.
    + assert (is_playing id w = false) as ->.
      { unfold is_playing. rewrite Hget. by apply bool_decide_eq_false_2. }
      rewrite (case_rotate_idle _ _ _ _ Hget Hs).
      destruct (IH _ _ Hget Hok) as (w' & p' & Hplay & Hget' & Hok' & Hsteps' & Hcells).
      exists w', p'. done.
Qed.

(** ** The process *)

Lemma run_Exited (es : list event) (x : exn) : run es (Exited x) = Exited x.
Proof. induction es as [|e es IH]; [done |]. exact IH. Qed.

Lemma run_cons (e : event) (es : list event) (p : process) :
  run (e :: es) p = run es (step p e).
Proof. reflexivity. Qed.

(** ** A tile index outside the grid *)

(** C1.  After the events of [opening] the round is running and p1 holds
    the puzzle 1,0,0,0,0,0,0,0,0.  A rotate message for p1 with tile index 9, which
    names none of the nine cells, is not ignored: the handler counts a
    step, appends NaN as a tenth element to the puzzle and broadcasts the
    leaderboard.  The puzzle is no longer one of nine rotation values, and
    when three rotations of tile 0 have brought all nine cells to 0 the
    player is still playing. *)
Theorem rotate_outside_the_grid :
  run opening (Running lobby) = Running round
  /\ status_of "p1" round = Some Playing
  /\ puzzle_of "p1" round
     = Some [Some (Int 1); Some (Int 0); Some (Int 0); Some (Int 0); Some (Int 0);
             Some (Int 0); Some (Int 0); Some (Int 0); Some (Int 0)]
  /\ steps_of "p1" round = Some 0
  /\ exists w',
       deliver (Message 1 (Parseable (rotate "p1" 9))) round = Returned w'
       /\ w' <> round
       /\ steps_of "p1" w' = Some 1
       /\ puzzle_of "p1" w'
          = Some [Some (Int 1); Some (Int 0); Some (Int 0); Some (Int 0); Some (Int 0);
                  Some (Int 0); Some (Int 0); Some (Int 0); Some (Int 0); Some NaN]
       /\ length (sent w') = (length (sent round) + 2)%nat
       /\ (forall a, puzzle_of "p1" w' = Some a -> ~ puzzle_ok a)
       /\ exists w'',
            run [Message 1 (Parseable (rotate "p1" 0));
                 Message 1 (Parseable (rotate "p1" 0));
                 Message 1 (Parseable (rotate "p1" 0))] (Running w') = Running w''
            /\ puzzle_of "p1" w''
               = Some [Some (Int 0); Some (Int 0); Some (Int 0); Some (Int 0); Some (Int 0);
                       Some (Int 0); Some (Int 0); Some (Int 0); Some (Int 0); Some NaN]
            /\ status_of "p1" w'' = Some Playing.
Proof.
  split; [by vm_compute |].
  split; [by vm_compute |]. split; [by vm_compute |]. split; [by vm_compute |].
  exists (world_after [Message 1 (Parseable (rotate "p1" 9))] round).
  split; [by vm_compute |].
  split.
  { intros H. apply (f_equal (fun w => length (sent w))) in H. vm_compute in H. discriminate. }
  split; [by vm_compute |]. split; [by vm_compute |]. split; [by vm_compute |].
  split.
  { intros a Ha [Hlen _]. vm_compute in Ha. injection Ha as <-. discriminate. }
  exists (world_after [Message 1 (Parseable (rotate "p1" 9));
                       Message 1 (Parseable (rotate "p1" 0));
                       Message 1 (Parseable (rotate "p1" 0));
                       Message 1 (Parseable (rotate "p1" 0))] round).
  split; [by vm_compute |]. split; by vm_compute.
Qed.

(** ** A completion check that the tile index misleads *)

(** C5.  The completion check compares the whole array with the target, and
    the handler does not check the tile index (the defect of C1), so that
    finished exactly when the nine cells are 0 fails both ways.  In the
    round of the session p1 holds 1,0,0,0,0,0,0,0,0.  After a rotate
    message with tile index 9 and three rotations of tile 0, the last of
    which is accepted and leaves 0 in each of the nine cells, p1 is still
    playing: no frame tells of a completion and the session goes on.  After
    three rotate messages with tile index 'length', which set the length of
    the puzzle to 2, to 3 and to 0, p1 is finished with three steps and a
    puzzle that has no cell left, playerFinished and gameEnd have gone to
    both sockets and the session is over, and no tile was ever turned. *)
Theorem completion_check_fails_both_ways :
  (exists w' a,
     run (opening ++ [Message 1 (Parseable (rotate "p1" 9));
                      turn_first_tile; turn_first_tile; turn_first_tile])
       (Running lobby) = Running w'
     /\ puzzle_of "p1" w' = Some a
     /\ (forall j, 0 <= j < 9 -> array_get a j = Some (Int 0))
     /\ steps_of "p1" w' = Some 4
     /\ status_of "p1" w' = Some Playing
     /\ GameState.status (gameState w') = InPlay
     /\ filter (fun f => tells_completion f.2) (sent w') = [])
  /\ (exists w1 w3 name time,
        run (opening ++ [Message 1 (Parseable (rotate "p1" Length))]) (Running lobby)
          = Running w1
        /\ puzzle_of "p1" w1 = Some [Some (Int 1); Some (Int 0)]
        /\ status_of "p1" w1 = Some Playing
        /\ run [Message 1 (Parseable (rotate "p1" Length));
                Message 1 (Parseable (rotate "p1" Length))] (Running w1) = Running w3
        /\ puzzle_of "p1" w3 = Some []
        /\ steps_of "p1" w3 = Some 3
        /\ status_of "p1" w3 = Some Finished
        /\ GameState.status (gameState w3) = Over
        /\ filter (fun f => tells_completion f.2) (sent w3)
           = [(1%nat, playerFinished "p1" name time 3);
              (2%nat, playerFinished "p1" name time 3);
              (1%nat, gameEnd); (2%nat, gameEnd)]).
Proof.
  split.
  - exists (world_after [Message 1 (Parseable (rotate "p1" 9));
                         turn_first_tile; turn_first_tile; turn_first_tile] round).
    exists (replicate 9 (Some (Int 0)) ++ [Some NaN]).
    split; [by vm_compute |]. split; [by vm_compute |]. split.
    { intros j Hj.
      assert (j = 0 \/ j = 1 \/ j = 2 \/ j = 3 \/ j = 4 \/ j = 5 \/ j = 6 \/ j = 7 \/ j = 8)
        as Hcases by lia.
      repeat (destruct Hcases as [->|Hcases]); try subst j; by vm_compute. }
    split; [by vm_compute |]. split; [by vm_compute |]. split; by vm_compute.
  - exists (world_after [Message 1 (Parseable (rotate "p1" Length))] round).
    exists (world_after [Message 1 (Parseable (rotate "p1" Length));
                         Message 1 (Parseable (rotate "p1" Length));
                         Message 1 (Parseable (rotate "p1" Length))] round).
    eexists _, _.
    split; [by vm_compute |]. split; [by vm_compute |]. split; [by vm_compute |].
    split; [by vm_compute |]. split; [by vm_compute |]. split; [by vm_compute |].
    split; [by vm_compute |]. split; [by vm_compute |]. vm_compute. reflexivity.
Qed.

(** ** Exceptions that leave a handler *)

(** C2.  The handler does not catch the exception of [JSON.parse]: for an
    unparseable frame it throws SyntaxError, whatever the socket and the
    state.  In the round of the session, one such frame from the
    administrator's socket ends the process, so that no later event of any
    connection is handled. *)
Theorem unparseable_message_ends_process (ws : Client.t) (text : string) (w : world)
    (later : list event) :
  on_message ws (Unparseable text) w = Thrown SyntaxError w
  /\ run (Message 2 (Unparseable "{") :: later) (Running round) = Exited SyntaxError.
Proof.
  split; [reflexivity |].
  rewrite run_cons.
  replace (step (Running round) (Message 2 (Unparseable "{"))) with (Exited SyntaxError)
    by by vm_compute.
  apply run_Exited.
Qed.

(** When every entry of the uploads directory can be unlinked, a reset
    clears the session and broadcasts gameReset and then the empty
    leaderboard. *)
Lemma reset_clears (ws : Client.t) (w : world) (entries : list (string * entry_kind)) :
  uploads w = Some entries ->
  Forall (fun entry => entry.2 = RegularFile) entries ->
  exists w',
    on_message ws (Parseable resetGame) w = Returned w'
    /\ GameState.status (gameState w') = Waiting
    /\ players_of w' = []
    /\ GameState.imageUrl (gameState w') = None
    /\ GameState.gameStartTime (gameState w') = None
    /\ uploads w' = Some []
    /\ sent w' = sent w ++ to_all gameReset w ++ to_all (leaderboard []) w.
Proof.
  intros Hdir Hfiles. unfold on_message, JSON_parse, case_resetGame.
  cbn [uploads with_gameState]. rewrite Hdir.
  assert (Hun : unlink_each entries = ([], None)).
  { clear Hdir. induction Hfiles as [|[file kind] entries Hkind _ IH]; [done |].
    cbn in Hkind. subst kind. exact IH. }
  rewrite Hun. eexists. split; [reflexivity |].
  repeat split; try done.
  cbn. by rewrite <- app_assoc.
Qed.

(** C8.  The reset handler clears the session first and then deletes the
    uploads without catching what the file system throws.  When the
    directory is missing, or holds an entry that cannot be unlinked, the
    exception leaves the handler after the state was cleared and before
    any broadcast: no frame is sent.  In the round of the session such a
    reset ends the process. *)
Theorem reset_stops_at_failed_deletion (ws : Client.t) (w : world)
    (file : string) (rest : list (string * entry_kind)) (later : list event) :
  (exists w',
     on_message ws (Parseable resetGame) (with_uploads None w)
       = Thrown (SystemError "ENOENT") w'
     /\ players_of w' = [] /\ sent w' = sent w)
  /\ (exists w',
        on_message ws (Parseable resetGame)
          (with_uploads (Some (("cat.png"%string, RegularFile) :: (file, Directory) :: rest)) w)
          = Thrown (SystemError "EISDIR") w'
        /\ players_of w' = [] /\ sent w' = sent w
        /\ uploads w' = Some ((file, Directory) :: rest))
  /\ run (Message 2 (Parseable resetGame) :: later) (Running (with_uploads None round))
     = Exited (SystemError "ENOENT").
Proof.
  split; [eexists; split; [reflexivity | done] |].
  split; [eexists; split; [reflexivity | done] |].
  rewrite run_cons.
  replace (step _ _) with (Exited (SystemError "ENOENT")) by by vm_compute.
  apply run_Exited.
Qed.

(** ** The start of a round *)

Lemma restarted_later (t : timer) (n : nat) (p p' : Player.t) :
  restarted {| readings := readings t; reads := S (reads t) |} n p p' ->
  restarted t (S n) p p'.
Proof.
  intros (? & ? & ? & ? & ? & ? & (k & Hk & ?) & ?). cbn [reads readings] in *.
  repeat split; try done. exists k. split; [lia | done].
Qed.

Lemma restart_players_spec (ps : list (string * Player.t)) (t : timer) (g : rng) :
  Map_keys (restart_players ps t g).1.1 = Map_keys ps
  /\ (restart_players ps t g).1.2
     = {| readings := readings t; reads := reads t + length ps |}
  /\ forall id,
       match Map_get id ps with
       | Some p => exists p', Map_get id (restart_players ps t g).1.1 = Some p'
                              /\ restarted t (length ps) p p'
       | None => Map_get id (restart_players ps t g).1.1 = None
       end.
Proof.
  revert t g. induction ps as [|[k p] ps IH]; intros t g.
  - cbn. split; [done |]. split; [| done]. destruct t. cbn. f_equal. lia.
  - cbn [restart_players Date_now].
    destruct (shufflePuzzle g) as [puzzle g1] eqn:Hshuffle.
    specialize (IH {| readings := readings t; reads := S (reads t) |} g1).
    destruct (restart_players ps _ g1) as [[ps' t'] g'].
    cbn [fst snd] in *. destruct IH as (Hkeys & Ht & Hget).
    split; [cbn; by f_equal |].
    split; [rewrite Ht; cbn; f_equal; lia |].
    intros id. cbn [Map_get]. destruct (String.eqb id k).
    + eexists. split; [done |].
      repeat split; try done.
      * exists (reads t). split; [cbn; lia | done].
      * exists g. by rewrite Hshuffle.
    + specialize (Hget id). destruct (Map_get id ps) as [p0|]; [| done].
      destruct Hget as (p' & Hp' & Hre). exists p'. split; [done |].
      by apply restarted_later.
Qed.

(** The first loop of 'startGame' calls the generator once for each player,
    in the order of the registry, and reads the clock once for each. *)
Lemma restart_players_draws (ps : list (string * Player.t)) (t : timer) (g : rng) :
  map Player.puzzle (Map_values (restart_players ps t g).1.1) = (generated (length ps) g).1
  /\ (restart_players ps t g).2 = (generated (length ps) g).2
  /\ map Player.startTime (Map_values (restart_players ps t g).1.1)
     = map Some (next_readings (length ps) t).
Proof.
  revert t g. induction ps as [|[k p] ps IH]; intros t g; [done |].
  cbn [restart_players Date_now length generated].
  destruct (shufflePuzzle g) as [puzzle g1].
  specialize (IH {| readings := readings t; reads := S (reads t) |} g1).
  destruct (restart_players ps _ g1) as [[ps' t'] g'].
  destruct (generated (length ps) g1) as [rest g2].
  cbn [fst snd] in *. destruct IH as (Hpuzzles & Hsource & Htimes).
  unfold Map_values in *. cbn [map fst snd Player.puzzle Player.startTime].
  rewrite Hpuzzles, Hsource, Htimes. split; [done |]. split; [done |].
  unfold next_readings. cbn [seq map readings reads]. rewrite Nat.add_0_r. do 2 f_equal.
  rewrite <- seq_shift, map_map. apply map_ext. intros n. f_equal. lia.
Qed.

Lemma post_post (a b : list (nat * outmsg)) (w : world) :
  post b (post a w) = post (a ++ b) w.
Proof. unfold post. cbn. by rewrite app_assoc. Qed.

Lemma post_nil (w : world) : post [] w = w.
Proof. destruct w. unfold post. cbn. by rewrite app_nil_r. Qed.

Lemma send_puzzles_eq (ps : list (string * Player.t)) (w : world) :
  send_puzzles ps w = post (puzzle_frames ps (clients w)) w.
Proof.
  unfold send_puzzles, puzzle_frames.
  induction (Map_values ps) as [|player l IH] in w |- *.
  - cbn. by rewrite post_nil.
  - cbn [foldl flat_map]. rewrite IH. unfold sendToPlayer. by rewrite post_post.
Qed.

Lemma case_startGame_eq (w : world) :
  truthy (GameState.imageUrl (gameState w)) = true ->
  case_startGame w =
  let now := (Date_now (clock w)).1 in
  let r := restart_players (players_of w) (Date_now (clock w)).2 (random w) in
  let gs := {| GameState.status := InPlay;
               GameState.image := GameState.image (gameState w);
               GameState.imageUrl := GameState.imageUrl (gameState w);
               GameState.players := r.1.1;
               GameState.correctRotation := GameState.correctRotation (gameState w);
               GameState.gameStartTime := Some now |} in
  let w1 := with_gameState gs (with_random r.2 (with_clock r.1.2 w)) in
  broadcastLeaderboard
    (post (puzzle_frames r.1.1 (clients w)) (broadcast (gameStart (Some now)) w1)).
Proof.
  intros Hurl. unfold case_startGame. rewrite Hurl. cbn [Date_now fst snd].
  destruct (restart_players _ _ _) as [[ps t] g]. cbn [fst snd].
  by rewrite send_puzzles_eq.
Qed.

Lemma case_startGame_ignored (w : world) :
  truthy (GameState.imageUrl (gameState w)) = false -> case_startGame w = w.
Proof. intros Hurl. unfold case_startGame. by rewrite Hurl. Qed.

(** ** What each event does to the asset and to the players *)

Lemma on_connection_gameState c url uuid w :
  GameState.imageUrl (gameState (on_connection c url uuid w))
    = GameState.imageUrl (gameState w)
  /\ forall id, uuid <> id ->
       Map_get id (players_of (on_connection c url uuid w)) = Map_get id (players_of w).
Proof.
  unfold on_connection. destruct (generateRandomName _) as [playerName g].
  destruct (includes_player url); [| done].
  cbn [random with_random]. destruct (shufflePuzzle g) as [puzzle g'].
  split; [done |]. intros id Hne. autorewrite with world.
  by apply Map_get_set_ne.
Qed.

Lemma case_rotate_imageUrl id i w :
  GameState.imageUrl (gameState (rotated id i w)) = GameState.imageUrl (gameState w).
Proof.
  unfold rotated, case_rotate. destruct (Map_get id (players_of w)) as [p|]; [| done].
  destruct (bool_decide _); [| done].
  by_key i; try done;
    (destruct (arraysEqual _ _); [| done];
     cbn [Date_now]; autorewrite with world; by destruct (all_finished _)).
Qed.

Lemma case_startGame_imageUrl w :
  GameState.imageUrl (gameState (case_startGame w)) = GameState.imageUrl (gameState w).
Proof.
  destruct (truthy (GameState.imageUrl (gameState w))) eqn:Hurl.
  - by rewrite case_startGame_eq.
  - by rewrite case_startGame_ignored.
Qed.

Lemma on_close_gameState ws w :
  GameState.imageUrl (gameState (on_close ws w)) = GameState.imageUrl (gameState w)
  /\ forall id p, Map_get id (players_of (on_close ws w)) = Some p ->
                  Map_get id (players_of w) = Some p.
Proof.
  unfold on_close. destruct (Map_has _ _); [| done].
  split; [done |]. intros id p. autorewrite with world.
  destruct (String.eqb_spec (Client.uuid ws) id) as [->|Hne].
  - by rewrite Map_get_delete_eq.
  - by rewrite Map_get_delete_ne.
Qed.

Lemma deliver_url_ok (e : event) (w w' : world) :
  deliver e w = Returned w' -> url_ok w -> url_ok w'.
Proof.
  unfold url_ok. destruct e as [c url uuid|c message|c|c]; cbn [deliver].
  - intros [= <-]. by rewrite (proj1 (on_connection_gameState _ _ _ _)).
  - destruct (find_client c w) as [ws|]; [| by intros [= <-]].
    destruct message as [text|[|imageData filename| |id i| |type]];
      unfold on_message, JSON_parse; try done.
    + intros (name & -> & ->)%case_uploadImage_Returned _. by right.
    + intros [= <-]. by rewrite case_startGame_imageUrl.
    + intros [->|(id' & -> & ->)]%case_rotate_Returned; [done |].
      by rewrite case_rotate_imageUrl.
    + unfold case_resetGame. cbn [uploads with_gameState].
      destruct (uploads w) as [entries|]; [| done].
      destruct (unlink_each entries) as [remaining [x|]]; [done |].
      intros [= <-] _. by left.
    + by intros [= <-].
  - by intros [= <-].
  - destruct (find_client c w) as [ws|]; [| by intros [= <-]].
    intros [= <-]. by rewrite (proj1 (on_close_gameState _ _)).
Qed.

Lemma run_snoc (es : list event) (e : event) (p : process) :
  run (es ++ [e]) p = step (run es p) e.
Proof. unfold run. by rewrite foldl_app. Qed.

(** In every state that the process reaches the asset reference is null or
    a non-empty string, and the target is the all-zero configuration. *)
Lemma reachable_url_ok src ticks dir (es : list event) (w : world) :
  run es (Running (boot src ticks dir)) = Running w -> url_ok w.
Proof.
  revert w. induction es as [|e es IH] using rev_ind; intros w.
  - intros [= <-]. by left.
  - rewrite run_snoc. destruct (run es _) as [w0|x]; [| done].
    cbn [step]. destruct (deliver e w0) as [w1|x w1] eqn:He; [| done].
    intros [= <-]. eapply deliver_url_ok; eauto.
Qed.

(** C7.  In every state that the process reaches, a start request is
    handled as follows.  When the asset reference is null, the handler
    returns with the world as it was: no state changes and nothing is
    sent.  Otherwise the session status becomes playing, [gameStartTime]
    is the reading of the clock taken first, the registry keeps its keys,
    and every registered player, whatever its status was, is playing with
    0 steps, a [startTime] read from the clock while the request was
    handled, no [finishTime], and a puzzle that the generator has just
    returned: nine rotation values, not all of them 0.  The puzzles are
    fresh: the handler calls the generator once for each player, in the
    order of the registry, so that the puzzles of the players are the
    results of that many successive calls from the random source as the
    request found it, and the source is left as the last call leaves it.
    Likewise the start times are the readings of the clock that follow the
    one of [gameStartTime], one for each player. *)
Theorem start_round (ws : Client.t) (src : nat -> nat) (ticks : nat -> Z)
    (dir : option (list (string * entry_kind))) (es : list event) (w : world) :
  run es (Running (boot src ticks dir)) = Running w ->
  match GameState.imageUrl (gameState w) with
  | None => on_message ws (Parseable startGame) w = Returned w
  | Some _ =>
      exists w',
        on_message ws (Parseable startGame) w = Returned w'
        /\ GameState.status (gameState w') = InPlay
        /\ GameState.gameStartTime (gameState w') = Some (Date_now (clock w)).1
        /\ Map_keys (players_of w') = Map_keys (players_of w)
        /\ (forall id p,
             Map_get id (players_of w) = Some p ->
             exists p',
               Map_get id (players_of w') = Some p'
               /\ restarted (Date_now (clock w)).2 (length (players_of w)) p p'
               /\ puzzle_ok (Player.puzzle p')
               /\ Player.puzzle p' <> correctRotation0)
        /\ map Player.puzzle (Map_values (players_of w'))
           = (generated (length (players_of w)) (random w)).1
        /\ random w' = (generated (length (players_of w)) (random w)).2
        /\ map Player.startTime (Map_values (players_of w'))
           = map Some (next_readings (length (players_of w)) (Date_now (clock w)).2)
        /\ clock w' = {| readings := readings (clock w);
                         reads := S (reads (clock w)) + length (players_of w) |}
  end.
Proof.
  intros Hrun. pose proof (reachable_url_ok _ _ _ _ _ Hrun) as Hurl.
  unfold on_message, JSON_parse.
  destruct (GameState.imageUrl (gameState w)) as [u|] eqn:Hu.
  - destruct Hurl as [Hurl|Hurl]; [by rewrite Hu in Hurl |].
    rewrite (case_startGame_eq _ Hurl). cbn zeta.
    eexists. split; [reflexivity |]. autorewrite with world.
    split; [done |]. split; [done |].
    destruct (restart_players_spec (players_of w) (Date_now (clock w)).2 (random w))
      as (Hkeys & Hclock & Hget).
    destruct (restart_players_draws (players_of w) (Date_now (clock w)).2 (random w))
      as (Hpuzzles & Hsource & Htimes).
    split; [done |]. split; [| by split_and!].
    intros id p Hp. specialize (Hget id). rewrite Hp in Hget.
    destruct Hget as (p' & Hp' & Hre). exists p'. split; [done |]. split; [done |].
    destruct Hre as (_ & _ & _ & _ & _ & _ & _ & g & ->).
    apply shufflePuzzle_fresh.
  - by rewrite case_startGame_ignored by by rewrite Hu.
Qed.

(** ** The status of a player along a run *)

Lemma rotated_player_status id (k : key) w p :
  Map_get id (players_of w) = Some p -> Player.status p = Playing ->
  exists p',
    Map_get id (players_of (rotated id k w)) = Some p'
    /\ (Player.status p' = Playing \/ Player.status p' = Finished).
Proof.
  intros Hget Hs. unfold rotated, case_rotate. rewrite Hget.
  rewrite bool_decide_eq_true_2 by done.
  by_key k; try (by eauto);
    try (eexists; autorewrite with world; split; [apply Map_get_set_eq | by left]);
    (destruct (arraysEqual _ _); cbn [Date_now];
     [destruct (all_finished _) |]; autorewrite with world;
     (eexists; split; [apply Map_get_set_eq | cbn; auto])).
Qed.

Lemma case_rotate_status id i w id' p' :
  Map_get id' (players_of (rotated id i w)) = Some p' ->
  exists p, Map_get id' (players_of w) = Some p
            /\ (Player.status p' = Player.status p
                \/ (Player.status p = Playing /\ Player.status p' = Finished)).
Proof.
  destruct (String.eqb_spec id id') as [<-|Hne].
  - destruct (Map_get id (players_of w)) as [p|] eqn:Hget.
    + destruct (decide (Player.status p = Playing)) as [Hs|Hs].
      * destruct (rotated_player_status id i w p Hget Hs) as (p1 & Hget1 & Hs1).
        rewrite Hget1. intros [= <-]. exists p. split; [done |].
        rewrite Hs. destruct Hs1; auto.
      * rewrite (case_rotate_idle _ _ _ _ Hget Hs), Hget. intros [= <-]. eauto.
    + by rewrite (case_rotate_absent _ _ _ Hget), Hget.
  - rewrite case_rotate_others by done. eauto.
Qed.

Lemma case_startGame_status w id p' :
  Map_get id (players_of (case_startGame w)) = Some p' ->
  exists p, Map_get id (players_of w) = Some p
            /\ (Player.status p' = Player.status p \/ Player.status p' = Playing).
Proof.
  destruct (truthy (GameState.imageUrl (gameState w))) eqn:Hurl.
  - rewrite (case_startGame_eq _ Hurl). cbn zeta. autorewrite with world.
    change (players_of (post ?f ?w)) with (players_of w). autorewrite with world.
    cbn [GameState.players].
    destruct (restart_players_spec (players_of w) (Date_now (clock w)).2 (random w))
      as (_ & _ & Hget).
    specialize (Hget id). destruct (Map_get id (players_of w)) as [p|].
    + destruct Hget as (p1 & -> & Hre). intros [= <-]. exists p. split; [done |].
      right. apply Hre.
    + by rewrite Hget.
  - rewrite (case_startGame_ignored _ Hurl). eauto.
Qed.

(** One event: a player that is registered afterwards, and that the event
    did not register, was registered before, and its status stayed, or
    went from playing to finished, or the event is a start request which
    left the player playing. *)
Lemma status_step (e : event) (w w' : world) (id : string) (p' : Player.t) :
  deliver e w = Returned w' ->
  registers id e = false ->
  Map_get id (players_of w') = Some p' ->
  exists p, Map_get id (players_of w) = Some p
            /\ advanced [e] (Player.status p) (Player.status p').
Proof.
  unfold advanced.
  destruct e as [c url uuid|c message|c|c]; cbn [deliver registers].
  - intros [= <-] Hne%String.eqb_neq.
    rewrite (proj2 (on_connection_gameState _ _ _ _)) by done. eauto.
  - destruct (find_client c w) as [ws|]; [| intros [= <-]; eauto].
    destruct message as [text|[|imageData filename| |id0 i| |type]];
      unfold on_message, JSON_parse; try done.
    + intros (name & -> & ->)%case_uploadImage_Returned _. eauto.
    + intros [= <-] _ Hget.
      destruct (case_startGame_status _ _ _ Hget) as (p & Hp & [Hs|Hs]); exists p.
      * auto.
      * split; [done |]. right. right. split; [by constructor | by rewrite Hs].
    + intros [->|(id' & -> & ->)]%case_rotate_Returned _ Hget; [eauto |].
      destruct (case_rotate_status _ _ _ _ _ Hget) as (p & Hp & [Hs|Hs]); eauto.
    + unfold case_resetGame. cbn [uploads with_gameState].
      destruct (uploads w) as [entries|]; [| done].
      destruct (unlink_each entries) as [remaining [x|]]; [done |].
      by intros [= <-].
    + intros [= <-]. eauto.
  - intros [= <-]. eauto.
  - destruct (find_client c w) as [ws|]; [| intros [= <-]; eauto].
    intros [= <-] _ Hget. apply on_close_gameState in Hget. eauto.
Qed.

Lemma advanced_cons (e : event) (es : list event) (s s1 s' : PlayerStatus) :
  advanced [e] s s1 -> advanced es s1 s' -> advanced (e :: es) s s'.
Proof.
  unfold advanced. intros H1 H2.
  assert (Hhd : Exists (fun e => is_startGame e = true) [e] ->
                Exists (fun e => is_startGame e = true) (e :: es)).
  { intros H. apply Exists_cons in H as [H|H];
      [by apply Exists_cons_hd | by apply Exists_nil in H]. }
  destruct H1 as [->|[[-> ->]|[He Hs1]]], H2 as [->|[[? ->]|[Hes Hs']]];
    subst; try discriminate; try (by auto);
    right; right; (split; [first [by apply Hhd | by apply Exists_cons_tl] | done]).
Qed.

Lemma status_run (es : list event) (w w' : world) (id : string) (p' : Player.t) :
  run es (Running w) = Running w' ->
  Forall (fun e => registers id e = false) es ->
  Map_get id (players_of w') = Some p' ->
  exists p, Map_get id (players_of w) = Some p
            /\ advanced es (Player.status p) (Player.status p').
Proof.
  revert w. induction es as [|e es IH]; intros w Hrun Hreg Hget.
  - injection Hrun as ->. exists p'. split; [done |]. by left.
  - apply Forall_cons in Hreg as [He Hes]. rewrite run_cons in Hrun. cbn [step] in Hrun.
    destruct (deliver e w) as [w1|x w1] eqn:Hdeliver.
    + destruct (IH _ Hrun Hes Hget) as (p1 & Hp1 & Hadv).
      destruct (status_step _ _ _ _ _ Hdeliver He Hp1) as (p & Hp & Hstep).
      exists p. split; [done |]. by eapply advanced_cons.
    + by rewrite run_Exited in Hrun.
Qed.

(** C3, as stated, fails: p1 has finished the round, nobody resets the
    session, and a start request returns p1 to playing. *)
Lemma startGame_returns_finished_player_to_play :
  status_of "p1" solved = Some Finished
  /\ exists w',
       deliver (Message 2 (Parseable startGame)) solved = Returned w'
       /\ status_of "p1" w' = Some Playing.
Proof.
  split; [by vm_compute |].
  exists (world_after [Message 2 (Parseable startGame)] solved).
  split; by vm_compute.
Qed.

(** C3, as amended.  Along every sequence of events that the process
    handles, a player who is registered before and after (no connection of
    the sequence being given its id) keeps its status or advances from
    playing to finished, unless a start request is among the events: a
    start request returns every registered player to playing, also a
    finished one, and then the player is playing or finished at the end.
    So the status never regresses without a start request, and the only
    regression is from finished to playing. *)
Theorem status_advances (es : list event) (w w' : world) (id : string) (p p' : Player.t) :
  run es (Running w) = Running w' ->
  Forall (fun e => registers id e = false) es ->
  Map_get id (players_of w) = Some p ->
  Map_get id (players_of w') = Some p' ->
  advanced es (Player.status p) (Player.status p')
  /\ (rank (Player.status p) <= rank (Player.status p')
      \/ (Exists (fun e => is_startGame e = true) es
          /\ Player.status p = Finished /\ Player.status p' = Playing)).
Proof.
  intros Hrun Hreg Hp Hp'.
  destruct (status_run _ _ _ _ _ Hrun Hreg Hp') as (p0 & Hp0 & Hadv).
  assert (p0 = p) as -> by congruence.
  split; [done |].
  destruct Hadv as [->|[[-> ->]|[Hes Hs']]].
  - left. lia.
  - left. cbn. lia.
  - destruct (Player.status p), (Player.status p'); cbn; try done; auto; left; lia.
Qed.

(** ** Puzzles stay well-formed under rotations of the nine tiles *)

Lemma on_connection_puzzle c url uuid w id p :
  Map_get id (players_of (on_connection c url uuid w)) = Some p ->
  Map_get id (players_of w) = Some p
  \/ exists g, Player.puzzle p = (shufflePuzzle g).1.
Proof.
  destruct (String.eqb_spec uuid id) as [->|Hne].
  - unfold on_connection. destruct (generateRandomName _) as [playerName g].
    destruct (includes_player url); [| by left].
    cbn [random with_random]. destruct (shufflePuzzle g) as [puzzle g'] eqn:Hshuffle.
    change (Map_get id (Map_set id (new_player id playerName puzzle) (players_of w))
            = Some p -> Map_get id (players_of w) = Some p
                        \/ exists g, Player.puzzle p = (shufflePuzzle g).1).
    rewrite Map_get_set_eq. intros [= <-].
    right. exists g. by rewrite Hshuffle.
  - rewrite (proj2 (on_connection_gameState _ _ _ _)) by done. by left.
Qed.

Lemma case_rotate_puzzle id (i : Z) w id' p' :
  Map_get id' (players_of (rotated id i w)) = Some p' ->
  exists p, Map_get id' (players_of w) = Some p
            /\ (Player.puzzle p' = Player.puzzle p
                \/ Player.puzzle p' = turned (Player.puzzle p) i).
Proof.
  destruct (String.eqb_spec id id') as [<-|Hne].
  - destruct (Map_get id (players_of w)) as [p|] eqn:Hget.
    + destruct (decide (Player.status p = Playing)) as [Hs|Hs].
      * destruct (case_rotate_player id i w p Hget Hs) as (p1 & Hget1 & Hp1 & _).
        rewrite Hget1. intros [= <-]. eauto.
      * rewrite (case_rotate_idle _ _ _ _ Hget Hs), Hget. intros [= <-]. eauto.
    + by rewrite (case_rotate_absent _ _ _ Hget), Hget.
  - rewrite case_rotate_others by done. eauto.
Qed.

Lemma case_startGame_puzzle w id p' :
  Map_get id (players_of (case_startGame w)) = Some p' ->
  Map_get id (players_of w) = Some p'
  \/ exists g, Player.puzzle p' = (shufflePuzzle g).1.
Proof.
  destruct (truthy (GameState.imageUrl (gameState w))) eqn:Hurl.
  - rewrite (case_startGame_eq _ Hurl). cbn zeta. autorewrite with world.
    change (players_of (post ?f ?w)) with (players_of w). autorewrite with world.
    cbn [GameState.players].
    destruct (restart_players_spec (players_of w) (Date_now (clock w)).2 (random w))
      as (_ & _ & Hget).
    specialize (Hget id). destruct (Map_get id (players_of w)) as [p|].
    + destruct Hget as (p1 & -> & Hre). intros [= <-]. right. apply Hre.
    + by rewrite Hget.
  - rewrite (case_startGame_ignored _ Hurl). by left.
Qed.

Lemma deliver_correctRotation (e : event) (w w' : world) :
  deliver e w = Returned w' ->
  GameState.correctRotation (gameState w') = GameState.correctRotation (gameState w).
Proof.
  destruct e as [c url uuid|c message|c|c]; cbn [deliver].
  - intros [= <-]. unfold on_connection.
    destruct (generateRandomName _) as [playerName g].
    destruct (includes_player url); [| done].
    cbn [random with_random]. by destruct (shufflePuzzle g).
  - destruct (find_client c w) as [ws|]; [| by intros [= <-]].
    destruct message as [text|[|imageData filename| |id i| |type]];
      unfold on_message, JSON_parse; try done.
    + by intros (name & -> & ->)%case_uploadImage_Returned.
    + intros [= <-]. destruct (truthy (GameState.imageUrl (gameState w))) eqn:Hurl.
      * by rewrite case_startGame_eq.
      * by rewrite case_startGame_ignored.
    + intros [->|(id' & -> & ->)]%case_rotate_Returned; [done |].
      unfold rotated, case_rotate.
      destruct (Map_get id' (players_of w)) as [p|]; [| done].
      destruct (bool_decide _); [| done].
      by_key i; try done;
        (destruct (arraysEqual _ _); [| done];
         cbn [Date_now]; autorewrite with world; by destruct (all_finished _)).
    + unfold case_resetGame. cbn [uploads with_gameState].
      destruct (uploads w) as [entries|]; [| done].
      destruct (unlink_each entries) as [remaining [x|]]; [done |].
      by intros [= <-].
    + by intros [= <-].
  - by intros [= <-].
  - destruct (find_client c w) as [ws|]; [| by intros [= <-]].
    intros [= <-]. unfold on_close. by destruct (Map_has _ _).
Qed.

Lemma deliver_puzzles_ok (e : event) (w w' : world) :
  deliver e w = Returned w' -> well_indexed e -> puzzles_ok w -> puzzles_ok w'.
Proof.
  intros Hdeliver Hindex [Hcorrect Hok]. split.
  { by rewrite (deliver_correctRotation _ _ _ Hdeliver). }
  revert Hdeliver Hindex.
  destruct e as [c url uuid|c message|c|c]; cbn [deliver well_indexed].
  - intros [= <-] _ id p Hp.
    destruct (on_connection_puzzle _ _ _ _ _ _ Hp) as [Hp0|[g ->]]; [eauto |].
    apply shufflePuzzle_fresh.
  - destruct (find_client c w) as [ws|]; [| by intros [= <-]].
    destruct message as [text|[|imageData filename| |id0 i| |type]];
      unfold on_message, JSON_parse; try done.
    + intros (name & -> & ->)%case_uploadImage_Returned _. exact Hok.
    + intros [= <-] _ id p Hp.
      destruct (case_startGame_puzzle _ _ _ Hp) as [Hp0|[g ->]]; [eauto |].
      apply shufflePuzzle_fresh.
    + intros [->|(id' & -> & ->)]%case_rotate_Returned Hi; [done |].
      destruct i as [i| | | |]; try done. intros id p' Hp'.
      destruct (case_rotate_puzzle _ _ _ _ _ Hp') as (p & Hp & [->| ->]); [eauto |].
      by destruct (turned_in_range _ _ (Hok _ _ Hp) Hi) as (_ & _ & _ & _ & ?).
    + unfold case_resetGame. cbn [uploads with_gameState].
      destruct (uploads w) as [entries|]; [| done].
      destruct (unlink_each entries) as [remaining [x|]]; [done |].
      by intros [= <-].
    + by intros [= <-].
  - by intros [= <-].
  - destruct (find_client c w) as [ws|]; [| by intros [= <-]].
    intros [= <-] _ id p Hp. apply on_close_gameState in Hp. eauto.
Qed.

(** As long as the tile index of every rotate message is one of 0, ..., 8,
    every registered player holds nine rotation values in every state that
    the process reaches, and the target stays the all-zero configuration. *)
Lemma reachable_puzzles_ok src ticks dir (es : list event) (w : world) :
  run es (Running (boot src ticks dir)) = Running w ->
  Forall well_indexed es ->
  puzzles_ok w.
Proof.
  revert w. induction es as [|e es IH] using rev_ind; intros w.
  - intros [= <-] _. split; [done |]. by intros id p.
  - rewrite run_snoc. intros Hrun [Hes He%Forall_inv]%Forall_app.
    destruct (run es _) as [w0|x]; [| done].
    cbn [step] in Hrun. destruct (deliver e w0) as [w1|x w1] eqn:Hdeliver; [| done].
    injection Hrun as <-. eapply deliver_puzzles_ok; eauto.
Qed.

(** ** The sender of a message *)

(** C10.  What a message does to the world does not depend on the socket
    it arrives on: two sockets of [wss.clients], players or not, lead to
    the same outcome for the same frame.  In particular a rotate message
    from any socket acts on the player named by its [playerId] field (that
    player's puzzle is turned and its steps are counted), a start request
    from any socket starts the round when an asset is set, and a reset from
    any socket empties the registry when the uploads can be deleted. *)
Theorem message_effect_ignores_sender (c1 c2 : nat) (ws1 ws2 : Client.t)
    (message : frame) (w : world) :
  find_client c1 w = Some ws1 ->
  find_client c2 w = Some ws2 ->
  deliver (Message c1 message) w = deliver (Message c2 message) w
  /\ (forall id (i : Z) p,
        Map_get id (players_of w) = Some p -> Player.status p = Playing ->
        exists w' p',
          deliver (Message c1 (Parseable (rotate id i))) w = Returned w'
          /\ Map_get id (players_of w') = Some p'
          /\ Player.puzzle p' = turned (Player.puzzle p) i
          /\ Player.steps p' = Player.steps p + 1)
  /\ (truthy (GameState.imageUrl (gameState w)) = true ->
      exists w',
        deliver (Message c1 (Parseable startGame)) w = Returned w'
        /\ GameState.status (gameState w') = InPlay)
  /\ (forall entries,
        uploads w = Some entries ->
        Forall (fun entry => entry.2 = RegularFile) entries ->
        exists w',
          deliver (Message c1 (Parseable resetGame)) w = Returned w'
          /\ GameState.status (gameState w') = Waiting
          /\ players_of w' = []).
Proof.
  intros H1 H2. cbn [deliver]. rewrite H1, H2.
  split; [reflexivity |]. split; [| split].
  - intros id i p Hp Hs. rewrite on_message_rotate.
    destruct (case_rotate_player id i w p Hp Hs) as (p' & Hp' & Hpuzzle & Hsteps & _).
    eauto 6.
  - intros Hurl. unfold on_message, JSON_parse. rewrite (case_startGame_eq _ Hurl).
    eexists. split; [reflexivity | done].
  - intros entries Hdir Hfiles.
    destruct (reset_clears ws1 w entries Hdir Hfiles) as (w' & Hw' & Hstatus & Hps & _).
    eauto.
Qed.

(** ** The theorems at work in the session *)

Lemma status_advances_witness :
  run [turn_first_tile; turn_first_tile; turn_first_tile] (Running round) = Running solved
  /\ advanced [turn_first_tile; turn_first_tile; turn_first_tile]
       (Player.status (the_player "p1" round)) (Player.status (the_player "p1" solved))
  /\ (rank (Player.status (the_player "p1" round))
        <= rank (Player.status (the_player "p1" solved))
      \/ (Exists (fun e => is_startGame e = true)
            [turn_first_tile; turn_first_tile; turn_first_tile]
          /\ Player.status (the_player "p1" round) = Finished
          /\ Player.status (the_player "p1" solved) = Playing)).
Proof.
  split; [by vm_compute |].
  apply (status_advances [turn_first_tile; turn_first_tile; turn_first_tile]
           round solved "p1" (the_player "p1" round) (the_player "p1" solved)).
  - by vm_compute.
  - repeat constructor.
  - by vm_compute.
  - by vm_compute.
Defined.

Lemma rotation_history_witness :
  puzzle_ok (Player.puzzle (the_player "p1" round))
  /\ exists w' p',
       play admin "p1" [0; 0] round = Returned w'
       /\ Map_get "p1" (players_of w') = Some p'
       /\ puzzle_ok (Player.puzzle p')
       /\ Player.steps p'
          = Player.steps (the_player "p1" round)
            + Z.of_nat (length (accepted "p1" [0; 0] round))
       /\ forall k, 0 <= k < 9 ->
            exists v, array_get (Player.puzzle (the_player "p1" round)) k = Some (Int v)
                      /\ array_get (Player.puzzle p') k
                         = Some (Int ((v + count_on k (accepted "p1" [0; 0] round)) mod 4)).
Proof.
  assert (Hok : puzzle_ok (Player.puzzle (the_player "p1" round))).
  { apply (bool_decide_unpack _). by vm_compute. }
  split; [exact Hok |].
  apply (rotation_history admin "p1" [0; 0] round (the_player "p1" round)).
  - by vm_compute.
  - exact Hok.
  - repeat constructor; lia.
Defined.

Lemma start_round_witness :
  run (opening ++ [turn_first_tile; turn_first_tile; turn_first_tile]) (Running lobby)
    = Running solved
  /\ match GameState.imageUrl (gameState solved) with
     | None => on_message admin (Parseable startGame) solved = Returned solved
     | Some _ =>
         exists w',
           on_message admin (Parseable startGame) solved = Returned w'
           /\ GameState.status (gameState w') = InPlay
           /\ GameState.gameStartTime (gameState w') = Some (Date_now (clock solved)).1
           /\ Map_keys (players_of w') = Map_keys (players_of solved)
           /\ (forall id p,
                Map_get id (players_of solved) = Some p ->
                exists p',
                  Map_get id (players_of w') = Some p'
                  /\ restarted (Date_now (clock solved)).2 (length (players_of solved)) p p'
                  /\ puzzle_ok (Player.puzzle p')
                  /\ Player.puzzle p' <> correctRotation0)
           /\ map Player.puzzle (Map_values (players_of w'))
              = (generated (length (players_of solved)) (random solved)).1
           /\ random w' = (generated (length (players_of solved)) (random solved)).2
           /\ map Player.startTime (Map_values (players_of w'))
              = map Some (next_readings (length (players_of solved)) (Date_now (clock solved)).2)
           /\ clock w' = {| readings := readings (clock solved);
                            reads := S (reads (clock solved)) + length (players_of solved) |}
     end.
Proof.
  split; [by vm_compute |].
  apply (start_round admin zero_source ticking (Some [("cat.png"%string, RegularFile)])
           (opening ++ [turn_first_tile; turn_first_tile; turn_first_tile]) solved).
  by vm_compute.
Defined.

Lemma message_effect_ignores_sender_witness :
  find_client 2 round = Some admin
  /\ deliver (Message 2 (Parseable (rotate "p1" 0))) round
     = deliver (Message 1 (Parseable (rotate "p1" 0))) round
  /\ Player.steps (the_player "p1" (world_after [Message 2 (Parseable (rotate "p1" 0))] round))
     = 1.
Proof.
  split; [by vm_compute |].
  split; [| by vm_compute].
  apply (message_effect_ignores_sender 2 1 admin (the_player_socket round)
           (Parseable (rotate "p1" 0)) round).
  - by vm_compute.
  - by vm_compute.
Defined.

(** * Further properties of the code *)

(** ** [arraysEqual] *)

Lemma agree_prefix (a b : array) :
  (forall k, (k < length a)%nat -> b !! k = a !! k) <-> a `prefix_of` b.
Proof.
  split.
  - intros H. exists (drop (length a) b). apply list_eq. intros k.
    destruct (decide (k < length a)%nat) as [Hk|Hk].
    + rewrite lookup_app_l by done. by apply H.
    + rewrite lookup_app_r by lia. rewrite lookup_drop. f_equal. lia.
  - intros [rest ->] k Hk. by rewrite lookup_app_l.
Qed.

(** X1.  [arraysEqual(a, b)] walks over [a] only: for an array [a] of
    integers without holes it holds exactly when [a] is a prefix of [b].
    So it is no equality: the empty array equals every array, and the test
    is not symmetric. *)
Theorem arraysEqual_is_prefix (a b : array) :
  Forall whole a ->
  arraysEqual a b = true <-> a `prefix_of` b.
Proof.
  intros Ha. unfold arraysEqual, every. rewrite every_from_agree by done.
  apply agree_prefix.
Qed.

Lemma arraysEqual_is_prefix_witness :
  Forall whole [Some (Int 0); Some (Int 0)]
  /\ (arraysEqual [Some (Int 0); Some (Int 0)] correctRotation0 = true
      <-> [Some (Int 0); Some (Int 0)] `prefix_of` correctRotation0).
Proof.
  assert (H : Forall whole [Some (Int 0); Some (Int 0)]).
  { repeat constructor; by exists 0. }
  split; [exact H |].
  apply (arraysEqual_is_prefix [Some (Int 0); Some (Int 0)] correctRotation0 H).
Defined.

Lemma every_from_NaN (f : num -> nat -> bool) (a : array) (i : nat) :
  (forall j, f NaN j = false) -> Some NaN ∈ a -> every_from i f a = false.
Proof.
  intros Hf Hin. revert i. induction a as [|c a IH]; intros i.
  - by apply elem_of_nil in Hin.
  - apply elem_of_cons in Hin as [<-|Hin].
    + cbn [every_from]. by rewrite Hf.
    + cbn [every_from]. destruct c as [val|]; [| by apply IH].
      rewrite (IH Hin). apply andb_false_r.
Qed.

(** X2.  An array that holds NaN equals no array in the sense of
    [arraysEqual], not even itself: NaN is never [===] to anything. *)
Theorem arraysEqual_never_with_NaN (a b : array) :
  Some NaN ∈ a -> arraysEqual a b = false.
Proof. intros Hin. unfold arraysEqual, every. by apply every_from_NaN. Qed.

Lemma arraysEqual_never_with_NaN_witness :
  arraysEqual [Some (Int 0); Some NaN] [Some (Int 0); Some NaN] = false.
Proof.
  apply (arraysEqual_never_with_NaN [Some (Int 0); Some NaN] [Some (Int 0); Some NaN]).
  repeat constructor.
Defined.

(** ** [generateRandomName] *)

Lemma nth_elem_of (l : list string) (i : nat) (d : string) :
  (i < length l)%nat -> nth i l d ∈ l.
Proof. intros Hi. apply list_elem_of_In. by apply nth_In. Qed.

(** X3.  Whatever the random source, a generated name is one of the ten
    adjectives, followed by one of the ten animals, followed by the decimal
    digits of a number below 1000: the two table lookups never leave their
    table.  The call takes three draws from the source. *)
Theorem generateRandomName_shape (g : rng) :
  exists adjective animal number,
    adjective ∈ adjectives /\ animal ∈ animals /\ 0 <= number < 1000
    /\ (generateRandomName g).1 = adjective +:+ animal +:+ pretty number
    /\ (generateRandomName g).2 = {| source := source g; used := used g + 3 |}.
Proof.
  unfold generateRandomName, random_int. cbn [fst snd source used].
  eexists _, _, _. split; [| split; [| split; [| split; [reflexivity |]]]].
  - apply nth_elem_of. rewrite Nat2Z.id. apply Nat.mod_upper_bound. done.
  - apply nth_elem_of. rewrite Nat2Z.id. apply Nat.mod_upper_bound. done.
  - pose proof (Nat.mod_upper_bound (source g (used g)) 1000). lia.
  - f_equal. lia.
Qed.

(** ** Fanout *)

Lemma addressed_filter (P : Client.t -> Prop) `{!forall client, Decision (P client)}
    (data : outmsg) (cs : list Client.t) (f : nat * outmsg) :
  f ∈ addressed data (filter P cs) <->
  exists client, client ∈ cs /\ P client /\ f = (Client.conn client, data).
Proof.
  unfold addressed. rewrite list_elem_of_In, in_map_iff. split.
  - intros (client & <- & Hin). apply list_elem_of_In, list_elem_of_filter in Hin as [HP Hin].
    eauto.
  - intros (client & Hin & HP & ->). exists client. split; [done |].
    apply list_elem_of_In, list_elem_of_filter. done.
Qed.

Lemma to_all_open (data : outmsg) (w : world) (cs : list Client.t) :
  clients w = cs -> Forall (reaches_open cs) (to_all data w).
Proof.
  intros <-. apply Forall_forall. intros f Hf.
  apply addressed_filter in Hf as (client & Hin & Hopen & ->).
  exists client. split; [done |]. split; [done |]. by apply Is_true_true.
Qed.

Lemma puzzle_frames_open (ps : list (string * Player.t)) (cs : list Client.t) :
  Forall (reaches_open cs) (puzzle_frames ps cs).
Proof.
  apply Forall_forall. intros f Hf. unfold puzzle_frames in Hf.
  apply list_elem_of_In, in_flat_map in Hf as (player & _ & Hf).
  apply list_elem_of_In, addressed_filter in Hf as (client & Hin & Hopen & ->).
  exists client. split; [done |]. split; [done |].
  apply Is_true_true. by apply andb_prop_elim in Hopen as [? _].
Qed.

Lemma case_rotate_sent id i w :
  clients (rotated id i w) = clients w
  /\ exists frames, sent (rotated id i w) = sent w ++ frames
                    /\ Forall (reaches_open (clients w)) frames.
Proof.
  unfold rotated, case_rotate. destruct (Map_get id (players_of w)) as [p|].
  2: { split; [done |]. exists []. by rewrite app_nil_r. }
  destruct (bool_decide _).
  2: { split; [done |]. exists []. by rewrite app_nil_r. }
  by_key i; try (split; [done |]; exists []; by rewrite app_nil_r);
    (destruct (arraysEqual _ _); cbn [Date_now];
     [destruct (all_finished _) |];
     (split; [done |]; eexists; split;
      [autorewrite with world; rewrite <- ?app_assoc; reflexivity
      | repeat (apply Forall_app; split); by apply to_all_open])).
Qed.

Lemma case_startGame_sent w :
  clients (case_startGame w) = clients w
  /\ exists frames, sent (case_startGame w) = sent w ++ frames
                    /\ Forall (reaches_open (clients w)) frames.
Proof.
  destruct (truthy (GameState.imageUrl (gameState w))) eqn:Hurl.
  - rewrite (case_startGame_eq _ Hurl). cbn zeta. split; [done |].
    eexists. split.
    + rewrite sent_broadcastLeaderboard. unfold post at 1. cbn [sent].
      rewrite sent_broadcast. rewrite <- !app_assoc. reflexivity.
    + repeat (apply Forall_app; split);
        [by apply to_all_open | apply puzzle_frames_open | by apply to_all_open].
  - rewrite (case_startGame_ignored _ Hurl). split; [done |].
    exists []. by rewrite app_nil_r.
Qed.

Lemma on_connection_sent c url uuid w :
  exists ws frames,
    clients (on_connection c url uuid w) = clients w ++ [ws]
    /\ Client.conn ws = c /\ Client.uuid ws = uuid /\ Client.readyState ws = OPEN
    /\ Client.playerId ws = (if includes_player url then Some uuid else None)
    /\ sent (on_connection c url uuid w) = sent w ++ frames
    /\ Forall (reaches_open (clients w ++ [ws])) frames.
Proof.
  unfold on_connection. destruct (generateRandomName _) as [playerName g].
  destruct (includes_player url).
  - cbn [random with_random]. destruct (shufflePuzzle g) as [puzzle g'].
    eexists _, _. split; [reflexivity |]. repeat (split; [reflexivity |]).
    split.
    + rewrite sent_broadcastLeaderboard. unfold post at 1. cbn [sent].
      rewrite <- app_assoc. reflexivity.
    + apply Forall_app. split; [| by apply to_all_open].
      apply Forall_singleton.
      exists {| Client.conn := c; Client.uuid := uuid;
                Client.playerId := Some uuid; Client.readyState := OPEN |}.
      split; [| done]. apply elem_of_app. right. by apply list_elem_of_singleton.
  - eexists _, []. split; [reflexivity |]. repeat (split; [reflexivity |]).
    split; [by rewrite app_nil_r | constructor].
Qed.

(** X4.  The log of sent frames only grows, and every frame that a handler
    sends is addressed to a socket that is in [wss.clients] and open when
    the handler returns: a socket that is closing or closed is never
    written to. *)
Theorem frames_reach_open_sockets (e : event) (w w' : world) :
  deliver e w = Returned w' ->
  exists frames, sent w' = sent w ++ frames
                 /\ Forall (reaches_open (clients w')) frames.
Proof.
  destruct e as [c url uuid|c message|c|c]; cbn [deliver].
  - intros [= <-].
    destruct (on_connection_sent c url uuid w) as (ws & frames & -> & _ & _ & _ & _ & ? & ?).
    eauto.
  - destruct (find_client c w) as [ws|].
    2: { intros [= <-]. exists []. by rewrite app_nil_r. }
    destruct message as [text|[|imageData filename| |id i| |type]];
      unfold on_message, JSON_parse; try done.
    + intros (name & -> & ->)%case_uploadImage_Returned.
      eexists. split; [reflexivity |]. by apply to_all_open.
    + intros [= <-]. destruct (case_startGame_sent w) as (-> & frames & ? & ?). eauto.
    + intros [->|(id' & -> & ->)]%case_rotate_Returned.
      { exists []. by rewrite app_nil_r. }
      destruct (case_rotate_sent id' i w) as (-> & frames & ? & ?). eauto.
    + unfold case_resetGame. cbn [uploads with_gameState].
      destruct (uploads w) as [entries|]; [| done].
      destruct (unlink_each entries) as [remaining [x|]]; [done |].
      intros [= <-]. eexists. split.
      * rewrite sent_broadcastLeaderboard, sent_broadcast.
        rewrite <- app_assoc. reflexivity.
      * apply Forall_app. split; by apply to_all_open.
    + intros [= <-]. exists []. by rewrite app_nil_r.
  - intros [= <-]. exists []. by rewrite app_nil_r.
  - destruct (find_client c w) as [ws|].
    2: { intros [= <-]. exists []. by rewrite app_nil_r. }
    intros [= <-]. unfold on_close. destruct (Map_has _ _).
    + eexists. split; [reflexivity |]. by apply to_all_open.
    + exists []. by rewrite app_nil_r.
Qed.

Lemma frames_reach_open_sockets_witness :
  exists frames,
    sent (world_after [turn_first_tile] round) = sent round ++ frames
    /\ Forall (reaches_open (clients (world_after [turn_first_tile] round))) frames.
Proof.
  apply (frames_reach_open_sockets turn_first_tile round (world_after [turn_first_tile] round)).
  by vm_compute.
Defined.

Lemma bound_to_true (id : string) (client : Client.t) :
  bound_to id client = true <-> Client.playerId client = Some id.
Proof.
  unfold bound_to. destruct (Client.playerId client) as [p|]; [| done].
  rewrite String.eqb_eq. split; congruence.
Qed.

Lemma puzzle_frames_elem (ps : list (string * Player.t)) (cs : list Client.t)
    (f : nat * outmsg) :
  f ∈ puzzle_frames ps cs <->
  exists client player,
    client ∈ cs /\ is_open client = true /\ player ∈ Map_values ps
    /\ Client.playerId client = Some (Player.id player)
    /\ f = (Client.conn client, puzzleUpdate (Player.puzzle player)).
Proof.
  unfold puzzle_frames. rewrite list_elem_of_In, in_flat_map. split.
  - intros (player & Hplayer & Hf).
    apply list_elem_of_In, addressed_filter in Hf as (client & Hin & Hopen & ->).
    apply andb_prop_elim in Hopen as [Hopen Hbound].
    apply Is_true_true in Hopen. apply Is_true_true, bound_to_true in Hbound.
    apply list_elem_of_In in Hplayer. by exists client, player.
  - intros (client & player & Hin & Hopen & Hplayer & Hbound & ->).
    exists player. split; [by apply list_elem_of_In |].
    apply list_elem_of_In, addressed_filter. exists client. split; [done |].
    split; [| done]. apply andb_prop_intro. split; apply Is_true_true; [done |].
    by apply bound_to_true.
Qed.

(** X5.  At the start of a round the puzzles are sent one by one, never
    broadcast: a puzzleUpdate frame goes to a socket exactly when the socket
    is open and its [playerId] is the id of a registered player, and it
    carries the new puzzle of that player.  No observer and no other player
    is sent it. *)
Theorem puzzleUpdate_is_targeted (ws : Client.t) (w : world) :
  truthy (GameState.imageUrl (gameState w)) = true ->
  exists w' frames,
    on_message ws (Parseable startGame) w = Returned w'
    /\ sent w' = sent w ++ frames
    /\ forall c a,
         (c, puzzleUpdate a) ∈ frames <->
         exists client player,
           client ∈ clients w /\ is_open client = true
           /\ player ∈ Map_values (players_of w')
           /\ Client.playerId client = Some (Player.id player)
           /\ c = Client.conn client /\ a = Player.puzzle player.
Proof.
  intros Hurl. unfold on_message, JSON_parse. rewrite (case_startGame_eq _ Hurl). cbn zeta.
  set (now := (Date_now (clock w)).1).
  set (r := restart_players _ _ _).
  eexists _, (to_all (gameStart (Some now)) w ++ puzzle_frames r.1.1 (clients w)
              ++ to_all (leaderboard (ranking r.1.1)) w).
  split; [reflexivity |]. split.
  { rewrite sent_broadcastLeaderboard. unfold post at 1. cbn [sent].
    rewrite sent_broadcast. by rewrite <- !app_assoc. }
  intros c a. rewrite !elem_of_app, puzzle_frames_elem.
  change (players_of (broadcastLeaderboard _)) with r.1.1.
  split.
  - intros [Hf|[Hf|Hf]].
    + by apply addressed_filter in Hf as (client & _ & _ & [= _ ?]).
    + destruct Hf as (client & player & ? & ? & ? & ? & [= -> ->]). eauto 10.
    + by apply addressed_filter in Hf as (client & _ & _ & [= _ ?]).
  - intros (client & player & ? & ? & ? & ? & -> & ->). right. left. eauto 10.
Qed.

Lemma puzzleUpdate_is_targeted_witness :
  exists w' frames,
    on_message admin (Parseable startGame) solved = Returned w'
    /\ sent w' = sent solved ++ frames
    /\ forall c a,
         (c, puzzleUpdate a) ∈ frames <->
         exists client player,
           client ∈ clients solved /\ is_open client = true
           /\ player ∈ Map_values (players_of w')
           /\ Client.playerId client = Some (Player.id player)
           /\ c = Client.conn client /\ a = Player.puzzle player.
Proof.
  apply (puzzleUpdate_is_targeted admin solved). by vm_compute.
Defined.

(** ** Connections *)

(** X6.  A connection whose URL contains 'player' registers a player under
    the id drawn for it: joined, with no steps, no times and a freshly
    generated puzzle (nine rotation values, not all 0).  The other players
    are as before, the session status and the asset are untouched, the new
    socket alone is sent init with that puzzle, and then the leaderboard
    goes to all open sockets, the new one included. *)
Theorem player_connection (c : nat) (url uuid : string) (w : world) :
  includes_player url = true ->
  exists p ws,
    Map_get uuid (players_of (on_connection c url uuid w)) = Some p
    /\ Player.id p = uuid /\ Player.status p = Joined
    /\ Player.steps p = 0 /\ Player.time p = 0
    /\ Player.startTime p = None /\ Player.finishTime p = None
    /\ puzzle_ok (Player.puzzle p) /\ Player.puzzle p <> correctRotation0
    /\ (forall id, id <> uuid ->
          Map_get id (players_of (on_connection c url uuid w)) = Map_get id (players_of w))
    /\ GameState.status (gameState (on_connection c url uuid w))
       = GameState.status (gameState w)
    /\ GameState.imageUrl (gameState (on_connection c url uuid w))
       = GameState.imageUrl (gameState w)
    /\ clients (on_connection c url uuid w) = clients w ++ [ws]
    /\ Client.conn ws = c /\ Client.playerId ws = Some uuid /\ is_open ws = true
    /\ sent (on_connection c url uuid w)
       = sent w
         ++ [(c, init uuid (Player.name p) (GameState.imageUrl (gameState w))
                   (Player.puzzle p) (GameState.status (gameState w)))]
         ++ to_all (leaderboard (ranking (players_of (on_connection c url uuid w))))
              (on_connection c url uuid w).
Proof.
  intros Hurl.
  pose proof (on_connection_gameState c url uuid w) as [Himage Hothers].
  unfold on_connection in *. destruct (generateRandomName _) as [playerName g].
  rewrite Hurl in *. cbn [random with_random] in *.
  destruct (shufflePuzzle g) as [puzzle g'] eqn:Hshuffle.
  destruct (shufflePuzzle_fresh g) as [Hok Hne]. rewrite Hshuffle in Hok, Hne.
  exists (new_player uuid playerName puzzle). eexists.
  split.
  { change (players_of (broadcastLeaderboard (post ?f (with_gameState (with_players ?ps ?gs) ?w0))))
      with ps. apply Map_get_set_eq. }
  do 8 (split; [done |]).
  split; [intros id Hid; by apply Hothers |].
  split; [done |]. split; [done |]. split; [reflexivity |].
  do 3 (split; [done |]).
  rewrite sent_broadcastLeaderboard. unfold post at 1. cbn [sent].
  rewrite <- app_assoc. f_equal. f_equal.
  change (players_of (with_gameState (with_players ?ps ?gs) ?w0)) with ps.
  by rewrite Map_get_set_eq.
Qed.

Lemma player_connection_witness :
  exists p,
    Map_get "p2" (players_of (on_connection 3 "/?role=player" "p2" round)) = Some p
    /\ Player.status p = Joined
    /\ puzzle_ok (Player.puzzle p).
Proof.
  destruct (player_connection 3 "/?role=player" "p2" round) as (p & ws & H).
  - by vm_compute.
  - exists p. split; [apply H |]. split; apply H.
Defined.

(** X7.  A connection whose URL does not contain 'player' (or has no URL)
    registers nobody and is sent nothing, not even init: the game state and
    the log are as before, and the socket joins [wss.clients] open and
    without a player id, so that it takes part in every broadcast. *)
Theorem observer_connection (c : nat) (url uuid : string) (w : world) :
  includes_player url = false ->
  gameState (on_connection c url uuid w) = gameState w
  /\ sent (on_connection c url uuid w) = sent w
  /\ exists ws,
       clients (on_connection c url uuid w) = clients w ++ [ws]
       /\ Client.conn ws = c /\ Client.playerId ws = None /\ is_open ws = true
       /\ forall data,
            (c, data) ∈ to_all data (on_connection c url uuid w).
Proof.
  intros Hurl. unfold on_connection. destruct (generateRandomName _) as [playerName g].
  rewrite Hurl. split; [done |]. split; [done |].
  eexists. split; [reflexivity |]. do 3 (split; [done |]).
  intros data. apply addressed_filter.
  exists {| Client.conn := c; Client.uuid := uuid;
            Client.playerId := None; Client.readyState := OPEN |}.
  split; [| done]. cbn. apply elem_of_app. right. by apply list_elem_of_singleton.
Qed.

Lemma observer_connection_witness :
  gameState (on_connection 3 "/admin.html" "a2" round) = gameState round
  /\ sent (on_connection 3 "/admin.html" "a2" round) = sent round.
Proof.
  destruct (observer_connection 3 "/admin.html" "a2" round) as (H1 & H2 & _).
  - by vm_compute.
  - by split.
Defined.

Lemma find_client_gone (c : nat) (cs : list Client.t) :
  find (is_conn c) (filter (fun client => negb (is_conn c client)) cs) = None.
Proof.
  induction cs as [|client cs IH]; [done |].
  rewrite filter_cons. destruct (is_conn c client) eqn:Hc; cbn [negb].
  - rewrite decide_False by (intros H; exact H). exact IH.
  - rewrite decide_True by exact I. cbn [find]. by rewrite Hc.
Qed.

Lemma Map_has_false (id : string) (ps : list (string * Player.t)) :
  Map_has id ps = false -> Map_get id ps = None.
Proof. unfold Map_has. by destruct (Map_get id ps). Qed.

Lemma frames_in_close (ws : Client.t) (w : world) :
  exists frames, sent (on_close ws w) = sent w ++ frames
                 /\ Forall (reaches_open (clients (on_close ws w))) frames.
Proof.
  unfold on_close. destruct (Map_has _ _).
  - eexists. split; [reflexivity |]. by apply to_all_open.
  - exists []. by rewrite app_nil_r.
Qed.

(** X8.  When a socket closes, the player registered under the id of its
    connection is removed and nobody else is touched; the session status
    stays as it is (a round is not ended by the players who leave).  The
    leaderboard is broadcast if a player was removed and nothing is sent
    otherwise; no frame goes to the socket that closed, and a second close
    of the same socket changes nothing. *)
Theorem close_unregisters (c : nat) (ws : Client.t) (w : world) :
  find_client c w = Some ws ->
  exists w',
    deliver (Close c) w = Returned w'
    /\ find_client c w' = None
    /\ Map_get (Client.uuid ws) (players_of w') = None
    /\ (forall id, id <> Client.uuid ws ->
          Map_get id (players_of w') = Map_get id (players_of w))
    /\ GameState.status (gameState w') = GameState.status (gameState w)
    /\ sent w' =
         (if Map_has (Client.uuid ws) (players_of w)
          then sent w ++ to_all (leaderboard (ranking (players_of w'))) w'
          else sent w)
    /\ Forall (fun f => f.1 <> c) (drop (length (sent w)) (sent w'))
    /\ deliver (Close c) w' = Returned w'.
Proof.
  intros Hfind. cbn [deliver]. rewrite Hfind. eexists. split; [reflexivity |].
  set (w0 := with_clients _ w).
  assert (Hgone : find_client c (on_close ws w0) = None).
  { unfold on_close. destruct (Map_has _ _); apply find_client_gone. }
  split; [exact Hgone |].
  split.
  { unfold on_close. change (players_of w0) with (players_of w).
    destruct (Map_has _ _) eqn:Hhas.
    - rewrite players_of_broadcastLeaderboard, players_of_with_gameState.
      apply Map_get_delete_eq.
    - by apply Map_has_false. }
  split.
  { intros id Hid. unfold on_close. change (players_of w0) with (players_of w).
    destruct (Map_has _ _); [| done].
    rewrite players_of_broadcastLeaderboard, players_of_with_gameState.
    by apply Map_get_delete_ne. }
  split; [unfold on_close; by destruct (Map_has _ _) |].
  split.
  { unfold on_close. change (players_of w0) with (players_of w).
    by destruct (Map_has _ _). }
  split.
  { destruct (frames_in_close ws w0) as (frames & Hsent & Hframes).
    change (sent w0) with (sent w) in Hsent. rewrite Hsent, drop_app_length.
    eapply Forall_impl; [exact Hframes |].
    intros f (client & Hin & Hconn & _) Hf. rewrite Hf in Hconn.
    assert (Hclient : client ∈ filter (fun client => negb (is_conn c client)) (clients w)).
    { revert Hin. unfold on_close. by destruct (Map_has _ _). }
    apply list_elem_of_filter in Hclient as [Hnot _].
    unfold is_conn in Hnot. rewrite Hconn, Nat.eqb_refl in Hnot. exact Hnot. }
  by rewrite Hgone.
Qed.

Lemma close_unregisters_witness :
  find_client 1 round = Some (the_player_socket round)
  /\ exists w',
       deliver (Close 1) round = Returned w'
       /\ Map_get "p1" (players_of w') = None
       /\ GameState.status (gameState w') = InPlay.
Proof.
  assert (H : find_client 1 round = Some (the_player_socket round)) by by vm_compute.
  split; [exact H |].
  destruct (close_unregisters 1 (the_player_socket round) round H)
    as (w' & Hdeliver & _ & Hgone & _ & Hstatus & _).
  exists w'. split; [exact Hdeliver |]. split; [exact Hgone |].
  rewrite Hstatus. by vm_compute.
Defined.

(** ** The asset and the start of a round *)

(** X9.  An uploadImage message sets the asset reference to '/uploads/'
    followed by the file name and tells every open socket; it changes
    neither the session status nor the players.  Whatever the file name
    (the empty one too), a start request that follows it is not ignored:
    the session is playing afterwards. *)
Theorem upload_enables_start (ws : Client.t) (imageData filename : string) (w : world) :
  exists w1 w2,
    on_message ws (Parseable (uploadImage imageData filename)) w = Returned w1
    /\ GameState.imageUrl (gameState w1) = Some ("/uploads/" +:+ filename)
    /\ GameState.status (gameState w1) = GameState.status (gameState w)
    /\ players_of w1 = players_of w
    /\ sent w1 = sent w ++ to_all (imageUpdate (Some ("/uploads/" +:+ filename))) w
    /\ on_message ws (Parseable startGame) w1 = Returned w2
    /\ GameState.status (gameState w2) = InPlay
    /\ GameState.imageUrl (gameState w2) = Some ("/uploads/" +:+ filename).
Proof.
  eexists _, _. split; [reflexivity |]. do 4 (split; [reflexivity |]).
  unfold on_message, JSON_parse.
  rewrite case_startGame_eq by reflexivity.
  split; [reflexivity |]. split; reflexivity.
Qed.

(** X10.  After a reset that returned, the session is empty: a start request
    is ignored and a rotate message for any player is ignored, both without
    a frame, until an image is published and a player connects again. *)
Theorem reset_disables_start (ws : Client.t) (w w' : world) (id : string) (i : Z) :
  on_message ws (Parseable resetGame) w = Returned w' ->
  on_message ws (Parseable startGame) w' = Returned w'
  /\ on_message ws (Parseable (rotate id i)) w' = Returned w'.
Proof.
  unfold on_message, JSON_parse, case_resetGame. cbn [uploads with_gameState].
  destruct (uploads w) as [entries|]; [| done].
  destruct (unlink_each entries) as [remaining [x|]]; [done |].
  intros [= <-]. split; reflexivity.
Qed.

Lemma reset_disables_start_witness :
  on_message admin (Parseable startGame)
    (world_after [Message 2 (Parseable resetGame)] round)
  = Returned (world_after [Message 2 (Parseable resetGame)] round)
  /\ on_message admin (Parseable (rotate "p1" 0))
       (world_after [Message 2 (Parseable resetGame)] round)
     = Returned (world_after [Message 2 (Parseable resetGame)] round).
Proof.
  apply (reset_disables_start admin round
           (world_after [Message 2 (Parseable resetGame)] round) "p1" 0).
  by vm_compute.
Defined.

(** ** The leaderboard, again *)

Lemma Array_sort_ordered {A : Type} (cmp : A -> A -> Z) (l : list A) :
  StronglySorted (before cmp) l -> Array_sort cmp l = l.
Proof.
  induction 1 as [|x l Hl IH Hx]; [done |].
  cbn [Array_sort foldr]. fold (Array_sort cmp l). rewrite IH.
  destruct l as [|y l]; [done |]. cbn [sort_insert].
  apply Forall_cons in Hx as [Hxy _]. unfold before in Hxy.
  by rewrite (proj2 (Z.leb_le _ _) Hxy).
Qed.

Lemma in_rank_order_sorted (l : list Entry.t) :
  StronglySorted in_rank_order l -> StronglySorted (before compare_entries) l.
Proof.
  induction 1 as [|e l Hl IH He]; constructor; [done |].
  eapply Forall_impl; [exact He |]. intros x. apply in_rank_order_before.
Qed.

Lemma ranking_order_kept (ps : list (string * Player.t)) :
  StronglySorted in_rank_order (map summary (Map_values ps)) ->
  ranking ps = map summary (Map_values ps).
Proof. intros Hsorted. by apply Array_sort_ordered, in_rank_order_sorted. Qed.



Lemma restart_players_values (ps : list (string * Player.t)) (t : timer) (g : rng) :
  Forall (fun p => Player.status p = Playing /\ Player.steps p = 0 /\ Player.time p = 0)
    (Map_values (restart_players ps t g).1.1)
  /\ map Player.id (Map_values (restart_players ps t g).1.1) = map Player.id (Map_values ps)
  /\ map Player.name (Map_values (restart_players ps t g).1.1)
     = map Player.name (Map_values ps).
Proof.
  revert t g. induction ps as [|[k p] ps IH]; intros t g; [by repeat constructor |].
  cbn [restart_players Date_now]. destruct (shufflePuzzle g) as [puzzle g1].
  specialize (IH {| readings := readings t; reads := S (reads t) |} g1).
  destruct (restart_players ps _ g1) as [[ps' t'] g']. cbn [fst snd] in *.
  destruct IH as (Hall & Hids & Hnames). cbn. split; [| split].
  - by constructor.
  - by f_equal.
  - by f_equal.
Qed.

Lemma all_tied_sorted (l : list Entry.t) :
  Forall (fun e => Entry.status e = Playing /\ Entry.steps e = 0) l ->
  StronglySorted in_rank_order l.
Proof.
  induction 1 as [|e l [Hs Hsteps] Hl IH]; constructor; [done |].
  eapply Forall_impl; [exact Hl |]. intros x [Hxs Hxsteps].
  unfold in_rank_order. rewrite Hs, Hxs, Hsteps, Hxsteps. done.
Qed.

(** X12.  The leaderboard that ends the start of a round lists the
    registered players in the order in which the registry iterates, each
    with its id and name, playing, with 0 steps and time 0: all entries
    tie, and the sort keeps them where they are. *)
Theorem leaderboard_at_start (ws : Client.t) (w : world) :
  truthy (GameState.imageUrl (gameState w)) = true ->
  exists w' earlier board,
    on_message ws (Parseable startGame) w = Returned w'
    /\ sent w' = earlier ++ to_all (leaderboard board) w
    /\ board = ranking (players_of w')
    /\ board = map summary (Map_values (players_of w'))
    /\ map Entry.id board = map Player.id (Map_values (players_of w))
    /\ map Entry.name board = map Player.name (Map_values (players_of w))
    /\ Forall (fun e => Entry.status e = Playing /\ Entry.steps e = 0 /\ Entry.time e = 0)
         board.
Proof.
  intros Hurl. unfold on_message, JSON_parse. rewrite (case_startGame_eq _ Hurl). cbn zeta.
  set (r := restart_players _ _ _).
  destruct (restart_players_values (players_of w) (Date_now (clock w)).2 (random w))
    as (Hall & Hids & Hnames). fold r in Hall, Hids, Hnames.
  assert (Hboard : Forall (fun e => Entry.status e = Playing /\ Entry.steps e = 0
                                    /\ Entry.time e = 0)
                     (map summary (Map_values r.1.1))).
  { apply List.Forall_map. eapply Forall_impl; [exact Hall |]. by intros p. }
  assert (Hrank : ranking r.1.1 = map summary (Map_values r.1.1)).
  { apply ranking_order_kept, all_tied_sorted.
    eapply Forall_impl; [exact Hboard |]. by intros e (? & ? & _). }
  eexists _, _, (ranking r.1.1). split; [reflexivity |].
  split; [rewrite sent_broadcastLeaderboard; reflexivity |].
  split; [reflexivity |]. split; [exact Hrank |].
  rewrite Hrank. split; [| split; [| exact Hboard]].
  - rewrite map_map. cbn [summary Entry.id]. exact Hids.
  - rewrite map_map. cbn [summary Entry.name]. exact Hnames.
Qed.

Lemma leaderboard_at_start_witness :
  exists w' earlier board,
    on_message admin (Parseable startGame) solved = Returned w'
    /\ sent w' = earlier ++ to_all (leaderboard board) solved
    /\ map Entry.id board = ["p1"%string].
Proof.
  destruct (leaderboard_at_start admin solved) as (w' & earlier & board & H1 & H2 & _ & _ & H3 & _).
  - by vm_compute.
  - exists w', earlier, board. split; [exact H1 |]. split; [exact H2 |].
    rewrite H3. by vm_compute.
Defined.

(** ** How the game state moves *)

Lemma with_players_same (gs : GameState.t) : with_players (GameState.players gs) gs = gs.
Proof. by destruct gs. Qed.

Lemma case_rotate_gameState (playerId : field) (k : key) (w w' : world) :
  case_rotate playerId k w = Returned w' ->
  gameState_step (gameState w) (gameState w').
Proof.
  unfold case_rotate. destruct playerId as [| |id|]; try (intros [= <-]; constructor).
  destruct (Map_get id (players_of w)) as [p|] eqn:Hget; [| intros [= <-]; constructor].
  destruct (bool_decide _) eqn:Hs; [| intros [= <-]; constructor].
  apply bool_decide_eq_true in Hs.
  destruct (is_key k) eqn:Hkey; [| done]. destruct (hides_every k) eqn:Hhides; [done |].
  cbn [negb]. intros [= <-].
  destruct (arraysEqual _ _) eqn:Hequal; cbn [Date_now].
  - rewrite gameState_broadcastLeaderboard.
    pose proof (step_complete (gameState w) id p k (readings (clock w) (reads (clock w)))
                  Hget Hs Hequal) as Hstep.
    cbn zeta in Hstep. rewrite players_with_players in Hstep.
    autorewrite with world. destruct (all_finished _); autorewrite with world; exact Hstep.
  - rewrite gameState_broadcastLeaderboard, gameState_with_gameState.
    by apply (step_move (gameState w) id p k).
Qed.

Lemma deliver_gameState_step (e : event) (w w' : world) :
  deliver e w = Returned w' -> gameState_step (gameState w) (gameState w').
Proof.
  destruct e as [c url uuid|c message|c|c]; cbn [deliver].
  - intros [= <-]. unfold on_connection.
    destruct (generateRandomName _) as [playerName g].
    destruct (includes_player url); [| constructor].
    cbn [random with_random]. destruct (shufflePuzzle g) as [puzzle g'] eqn:Hshuffle.
    replace puzzle with (shufflePuzzle g).1 by by rewrite Hshuffle.
    apply (step_join (gameState w) uuid playerName g).
  - destruct (find_client c w) as [ws|]; [| intros [= <-]; constructor].
    destruct message as [text|[|imageData filename| |id i| |type]];
      unfold on_message, JSON_parse; try done.
    + intros (name & -> & ->)%case_uploadImage_Returned.
      apply (step_upload (gameState w)).
    + intros [= <-]. destruct (truthy (GameState.imageUrl (gameState w))) eqn:Hurl.
      * rewrite (case_startGame_eq _ Hurl). cbn zeta.
        by apply (step_start (gameState w)).
      * rewrite (case_startGame_ignored _ Hurl). constructor.
    + apply case_rotate_gameState.
    + unfold case_resetGame. cbn [uploads with_gameState].
      destruct (uploads w) as [entries|]; [| done].
      destruct (unlink_each entries) as [remaining [x|]]; [done |].
      intros [= <-]. apply (step_reset (gameState w)).
    + intros [= <-]. constructor.
  - intros [= <-]. constructor.
  - destruct (find_client c w) as [ws|]; [| intros [= <-]; constructor].
    intros [= <-]. unfold on_close. destruct (Map_has _ _); [| constructor].
    apply (step_leave (gameState w)).
Qed.

(** A property of the initial game state that every step keeps holds in
    every state that the process reaches. *)
Lemma reachable_gameState (P : GameState.t -> Prop) :
  P initial_gameState ->
  (forall gs gs', P gs -> gameState_step gs gs' -> P gs') ->
  forall src ticks dir es w,
    run es (Running (boot src ticks dir)) = Running w -> P (gameState w).
Proof.
  intros Hinit Hstep src ticks dir es.
  induction es as [|e es IH] using rev_ind; intros w.
  - by intros [= <-].
  - rewrite run_snoc. destruct (run es _) as [w0|x]; [| done].
    cbn [step]. destruct (deliver e w0) as [w1|x w1] eqn:He; [| done].
    intros [= <-]. eapply Hstep; [by apply IH |]. by eapply deliver_gameState_step.
Qed.

Section JsMapEntries.
Context {V : Type}.
Implicit Types (m : list (string * V)) (k : string) (v : V).

Lemma Map_set_Forall (Q : string * V -> Prop) k v m :
  Forall Q m -> Q (k, v) -> Forall Q (Map_set k v m).
Proof.
  intros Hm Hv. induction Hm as [|[k' v'] m Hx Hm IH]; cbn [Map_set].
  - by constructor.
  - destruct (String.eqb k k'); by constructor.
Qed.

Lemma Map_delete_Forall (Q : string * V -> Prop) k m :
  Forall Q m -> Forall Q (Map_delete k m).
Proof.
  induction 1 as [|[k' v'] m Hx Hm IH]; cbn [Map_delete]; [done |].
  destruct (String.eqb k k'); [done | by constructor].
Qed.

Lemma Map_get_elem k v m : Map_get k m = Some v -> (k, v) ∈ m.
Proof.
  induction m as [|[k' v'] m IH]; cbn [Map_get]; [done |].
  destruct (String.eqb_spec k k') as [->|Hne].
  - intros [= ->]. apply list_elem_of_here.
  - intros H. apply list_elem_of_further. by apply IH.
Qed.

Lemma Map_get_None_keys k m : Map_get k m = None <-> k ∉ Map_keys m.
Proof.
  induction m as [|[k' v'] m IH]; cbn [Map_get Map_keys map fst].
  - split; [intros _ H; by apply elem_of_nil in H | done].
  - rewrite not_elem_of_cons. destruct (String.eqb_spec k k') as [->|Hne].
    + split; [done | by intros [? _]].
    + rewrite IH. unfold Map_keys. tauto.
Qed.

Lemma Map_keys_set k v m :
  Map_keys (Map_set k v m)
  = if Map_has k m then Map_keys m else Map_keys m ++ [k].
Proof.
  unfold Map_has. induction m as [|[k' v'] m IH]; cbn [Map_set Map_get Map_keys map fst].
  - done.
  - destruct (String.eqb_spec k k') as [->|Hne]; [done |].
    cbn [map fst]. fold (Map_keys (Map_set k v m)). rewrite IH.
    by destruct (Map_get k m).
Qed.

Lemma Map_set_NoDup k v m : NoDup (Map_keys m) -> NoDup (Map_keys (Map_set k v m)).
Proof.
  intros Hm. rewrite Map_keys_set. unfold Map_has.
  destruct (Map_get k m) eqn:Hget; [done |].
  apply NoDup_app. split; [done |]. split; [| apply NoDup_singleton].
  intros x Hx ->%list_elem_of_singleton. by apply Map_get_None_keys in Hget.
Qed.

Lemma Map_keys_delete k m k' : k' ∈ Map_keys (Map_delete k m) -> k' ∈ Map_keys m.
Proof.
  induction m as [|[k0 v0] m IH]; cbn [Map_delete Map_keys map fst]; [done |].
  destruct (String.eqb k k0); cbn [map fst]; rewrite ?elem_of_cons; unfold Map_keys in *; tauto.
Qed.

Lemma Map_delete_NoDup k m : NoDup (Map_keys m) -> NoDup (Map_keys (Map_delete k m)).
Proof.
  induction m as [|[k0 v0] m IH]; cbn [Map_delete Map_keys map fst]; [done |].
  intros [Hk0 Hm]%NoDup_cons. destruct (String.eqb k k0); [by apply IH |].
  cbn [map fst]. apply NoDup_cons. split; [| by apply IH].
  intros H. by apply Hk0, (Map_keys_delete k).
Qed.

Lemma Map_get_elem_NoDup k v m : NoDup (Map_keys m) -> (k, v) ∈ m -> Map_get k m = Some v.
Proof.
  induction m as [|[k' v'] m IH]; cbn [Map_get Map_keys map fst].
  - intros _ H. by apply elem_of_nil in H.
  - intros [Hk' Hm]%NoDup_cons [[= -> ->]|Hin]%elem_of_cons.
    + by rewrite String.eqb_refl.
    + destruct (String.eqb_spec k k') as [->|Hne]; [| by apply IH].
      exfalso. apply Hk'. apply list_elem_of_In, in_map_iff. exists (k', v).
      split; [done | by apply list_elem_of_In].
Qed.
End JsMapEntries.

Lemma restart_players_entries (ps : list (string * Player.t)) (t : timer) (g : rng) :
  Forall2 (fun entry entry' =>
             entry'.1 = entry.1
             /\ exists now g0, entry'.2 = restart now (shufflePuzzle g0).1 entry.2)
    ps (restart_players ps t g).1.1.
Proof.
  revert t g. induction ps as [|[k p] ps IH]; intros t g; [constructor |].
  cbn [restart_players Date_now]. destruct (shufflePuzzle g) as [puzzle g1] eqn:Hshuffle.
  specialize (IH {| readings := readings t; reads := S (reads t) |} g1).
  destruct (restart_players ps _ g1) as [[ps' t'] g']. cbn [fst snd] in *.
  constructor; [| exact IH]. split; [done |].
  exists (readings t (reads t)), g. by rewrite Hshuffle.
Qed.

Lemma restart_players_Forall (Q Q' : string * Player.t -> Prop)
    (ps : list (string * Player.t)) (t : timer) (g : rng) :
  (forall k p now g0, Q (k, p) -> Q' (k, restart now (shufflePuzzle g0).1 p)) ->
  Forall Q ps -> Forall Q' (restart_players ps t g).1.1.
Proof.
  intros HQ Hps. pose proof (restart_players_entries ps t g) as H.
  induction H as [|[k p] [k' p'] ps ps' [Hk (now & g0 & Hp)] H IH]; [constructor |].
  cbn [fst snd] in *. subst. apply Forall_cons in Hps as [Hkp Hps].
  constructor; [by apply HQ | by apply IH].
Qed.

Lemma fresh_puzzle_unsolved (g : rng) :
  arraysEqual (shufflePuzzle g).1 correctRotation0 = false.
Proof.
  destruct (shufflePuzzle_fresh g) as [Hok Hne].
  destruct (arraysEqual _ _) eqn:E; [| done]. by apply arraysEqual_target in E.
Qed.

(** ** What holds in every state that the process reaches *)

Ltac gs_simpl :=
  cbn [GameState.status GameState.image GameState.imageUrl GameState.players
       GameState.correctRotation GameState.gameStartTime with_players with_status] in *.

Lemma session_sound_step (gs gs' : GameState.t) :
  session_sound gs -> gameState_step gs gs' -> session_sound gs'.
Proof.
  intros (Hready & Hwait & Hurl & Himage & Hjoined & Hcorrect) Hstep.
  assert (Hplaying : forall k p, Map_get k (GameState.players gs) = Some p ->
                                 Player.status p = Playing ->
                                 GameState.status gs <> Waiting).
  { intros k p Hget Hs Hw. apply Map_get_elem in Hget.
    pose proof (proj1 (Forall_forall _ _) (Hjoined Hw) _ Hget) as Hj.
    cbn in Hj. congruence. }
  destruct Hstep as [|k name g|imageData filename|now t g Htruthy
                    |k p i Hget Hs Hequal|k p i now Hget Hs Hequal| |k];
    unfold session_sound; gs_simpl; try (destruct (all_finished _); gs_simpl);
    (split_and!; try tauto; try congruence; try done).
  all: try (intros; discriminate).
  - intros Hw. apply Map_set_Forall; [auto | done].
  - intros Hw. by destruct (Hplaying k p Hget Hs).
  - split; [done |]. intros Hnone. destruct (Hplaying k p Hget Hs). by apply Hwait.
  - intros _. apply Hurl. by apply (Hplaying k p).
  - intros Hw. by destruct (Hplaying k p Hget Hs).
  - intros Hw. by apply Map_delete_Forall, Hjoined.
Qed.

(** X13.  In every state that the process reaches: the session status is
    never 'ready'; it is 'waiting' exactly when no round has started since
    the start of the process or the last reset ([gameStartTime] is null),
    and then every registered player has status 'joined'; in the other
    states an asset is set; where the reference of the image is null the
    image is null too (not the other way round: an upload sets the
    reference and stores as image whatever the message holds as image data,
    which may be [null] or nothing); the target configuration is still the
    nine zeros.  The messages of the run are any that the handler returns
    from, whatever their fields hold. *)
Theorem session_is_sound (src : nat -> nat) (ticks : nat -> Z)
    (dir : option (list (string * entry_kind))) (es : list event) (w : world) :
  run es (Running (boot src ticks dir)) = Running w ->
  session_sound (gameState w).
Proof.
  apply (reachable_gameState session_sound).
  - unfold session_sound. cbn. by split_and!.
  - apply session_sound_step.
Qed.

Lemma session_is_sound_witness : session_sound (gameState solved).
Proof.
  apply (session_is_sound zero_source ticking (Some [("cat.png"%string, RegularFile)])
           (opening ++ [turn_first_tile; turn_first_tile; turn_first_tile]) solved).
  by vm_compute.
Defined.

Lemma players_sound_step (gs gs' : GameState.t) :
  Forall (fun entry => player_sound entry.1 entry.2) (GameState.players gs) ->
  gameState_step gs gs' ->
  Forall (fun entry => player_sound entry.1 entry.2) (GameState.players gs').
Proof.
  intros Hps Hstep.
  destruct Hstep as [|k name g|imageData filename|now t g Htruthy
                    |k p i Hget Hs Hequal|k p i now Hget Hs Hequal| |k].
  - done.
  - apply Map_set_Forall; [done |]. by repeat split.
  - done.
  - cbn [GameState.players]. eapply restart_players_Forall; [| exact Hps].
    intros k p now' g0 (Hid & Hsteps & _). repeat split; try done. by exists now'.
  - apply Map_set_Forall; [done |].
    apply Map_get_elem in Hget.
    pose proof (proj1 (Forall_forall _ _) Hps _ Hget) as (Hid & Hsteps & Hp).
    cbn [fst snd] in *. rewrite Hs in Hp.
    unfold player_sound, moved. cbn. rewrite Hs. split; [done |]. split; [lia | done].
  - cbn zeta. rewrite players_with_players.
    assert (Hall : Forall (fun entry => player_sound entry.1 entry.2)
                     (Map_set k (completed i now p) (GameState.players gs))).
    { apply Map_set_Forall; [done |].
      apply Map_get_elem in Hget.
      pose proof (proj1 (Forall_forall _ _) Hps _ Hget) as (Hid & Hsteps & Hp).
      cbn [fst snd] in *. rewrite Hs in Hp. destruct Hp as (_ & _ & started & Hstarted).
      unfold player_sound, completed. cbn. split; [done |]. split; [lia |].
      split; [lia |]. exists started, now. rewrite Hstarted. done. }
    by destruct (all_finished _).
  - constructor.
  - by apply Map_delete_Forall.
Qed.

(** X14.  In every state that the process reaches, every entry of the
    registry is a player that carries its key as id, with steps that are
    not negative; a joined player has no steps and no times; a playing one
    has a start time, no finish time and time 0; a finished one has made
    at least one step and its [time] is its finish time minus its start
    time, which stays so until the next round starts. *)
Theorem players_are_sound (src : nat -> nat) (ticks : nat -> Z)
    (dir : option (list (string * entry_kind))) (es : list event) (w : world) :
  run es (Running (boot src ticks dir)) = Running w ->
  Forall (fun entry => player_sound entry.1 entry.2) (players_of w).
Proof.
  apply (reachable_gameState
           (fun gs => Forall (fun entry => player_sound entry.1 entry.2)
                        (GameState.players gs))).
  - constructor.
  - apply players_sound_step.
Qed.

Lemma players_are_sound_witness :
  Forall (fun entry => player_sound entry.1 entry.2) (players_of solved).
Proof.
  apply (players_are_sound zero_source ticking (Some [("cat.png"%string, RegularFile)])
           (opening ++ [turn_first_tile; turn_first_tile; turn_first_tile]) solved).
  by vm_compute.
Defined.

Lemma solved_step (gs gs' : GameState.t) :
  GameState.correctRotation gs = correctRotation0
  /\ Forall (fun entry => finished_iff_solved entry.2) (GameState.players gs) ->
  gameState_step gs gs' ->
  GameState.correctRotation gs' = correctRotation0
  /\ Forall (fun entry => finished_iff_solved entry.2) (GameState.players gs').
Proof.
  intros [Hcorrect Hps] Hstep.
  destruct Hstep as [|k name g|imageData filename|now t g Htruthy
                    |k p i Hget Hs Hequal|k p i now Hget Hs Hequal| |k].
  - done.
  - split; [done |]. apply Map_set_Forall; [done |].
    unfold finished_iff_solved.
    cbn [snd Player.status Player.puzzle new_player restart moved completed]. by rewrite fresh_puzzle_unsolved.
  - done.
  - split; [done |]. cbn [GameState.players].
    eapply restart_players_Forall; [| exact Hps].
    intros k p now' g0 _. unfold finished_iff_solved.
    cbn [snd Player.status Player.puzzle new_player restart moved completed].
    by rewrite fresh_puzzle_unsolved.
  - split; [done |]. apply Map_set_Forall; [done |].
    unfold finished_iff_solved.
    cbn [snd Player.status Player.puzzle new_player restart moved completed]. rewrite Hs. rewrite Hcorrect in Hequal.
    by rewrite Hequal.
  - cbn zeta. rewrite players_with_players.
    assert (Hall : Forall (fun entry => finished_iff_solved entry.2)
                     (Map_set k (completed i now p) (GameState.players gs))).
    { apply Map_set_Forall; [done |].
      unfold finished_iff_solved.
    cbn [snd Player.status Player.puzzle new_player restart moved completed]. rewrite Hcorrect in Hequal. by rewrite Hequal. }
    by destruct (all_finished _).
  - split; [done | constructor].
  - split; [done |]. by apply Map_delete_Forall.
Qed.

(** X15.  In every state that the process reaches, whatever tile indices
    the rotate messages carried, a registered player has status 'finished'
    exactly when its puzzle matches the target in the sense of
    [arraysEqual]: nobody is finished with an unsolved puzzle, and nobody
    stays joined or playing with a solved one. *)
Theorem finished_exactly_when_solved (src : nat -> nat) (ticks : nat -> Z)
    (dir : option (list (string * entry_kind))) (es : list event) (w : world) :
  run es (Running (boot src ticks dir)) = Running w ->
  Forall (fun entry => finished_iff_solved entry.2) (players_of w).
Proof.
  intros Hrun.
  apply (reachable_gameState
           (fun gs => GameState.correctRotation gs = correctRotation0
                      /\ Forall (fun entry => finished_iff_solved entry.2)
                           (GameState.players gs))
           (conj eq_refl (Forall_nil_2 _)) solved_step _ _ _ _ _ Hrun).
Qed.

Lemma finished_exactly_when_solved_witness :
  Forall (fun entry => finished_iff_solved entry.2) (players_of solved).
Proof.
  apply (finished_exactly_when_solved zero_source ticking
           (Some [("cat.png"%string, RegularFile)])
           (opening ++ [turn_first_tile; turn_first_tile; turn_first_tile]) solved).
  by vm_compute.
Defined.

Lemma keys_step (gs gs' : GameState.t) :
  NoDup (Map_keys (GameState.players gs)) -> gameState_step gs gs' ->
  NoDup (Map_keys (GameState.players gs')).
Proof.
  intros Hps Hstep.
  destruct Hstep as [|k name g|imageData filename|now t g Htruthy
                    |k p i Hget Hs Hequal|k p i now Hget Hs Hequal| |k].
  - done.
  - by apply Map_set_NoDup.
  - done.
  - cbn [GameState.players].
    by rewrite (proj1 (restart_players_spec (GameState.players gs) t g)).
  - by apply Map_set_NoDup.
  - cbn zeta. rewrite players_with_players.
    destruct (all_finished _); by apply Map_set_NoDup.
  - constructor.
  - by apply Map_delete_NoDup.
Qed.

(** X16.  In every state that the process reaches, no id occurs twice in
    the registry, so that [get] finds exactly the entries that the
    iteration visits. *)
Theorem registry_keys_are_unique (src : nat -> nat) (ticks : nat -> Z)
    (dir : option (list (string * entry_kind))) (es : list event) (w : world) :
  run es (Running (boot src ticks dir)) = Running w ->
  NoDup (Map_keys (players_of w))
  /\ (forall k p, Map_get k (players_of w) = Some p <-> (k, p) ∈ players_of w).
Proof.
  intros Hrun.
  assert (Hkeys : NoDup (Map_keys (players_of w))).
  { apply (reachable_gameState (fun gs => NoDup (Map_keys (GameState.players gs)))
             (NoDup_nil_2) keys_step _ _ _ _ _ Hrun). }
  split; [done |].
  intros k p. split; [apply Map_get_elem | by apply Map_get_elem_NoDup].
Qed.

Lemma registry_keys_are_unique_witness : NoDup (Map_keys (players_of solved)).
Proof.
  apply (registry_keys_are_unique zero_source ticking
           (Some [("cat.png"%string, RegularFile)])
           (opening ++ [turn_first_tile; turn_first_tile; turn_first_tile]) solved).
  by vm_compute.
Defined.

(** ** Observers stay current *)

Lemma deliver_ends_with_leaderboard (e : event) (w w' : world) :
  deliver e w = Returned w' ->
  players_of w' = players_of w \/ exists w0, w' = broadcastLeaderboard w0.
Proof.
  destruct e as [c url uuid|c message|c|c]; cbn [deliver].
  - intros [= <-]. unfold on_connection.
    destruct (generateRandomName _) as [playerName g].
    destruct (includes_player url); [| by left].
    cbn [random with_random]. destruct (shufflePuzzle g) as [puzzle g']. right. eauto.
  - destruct (find_client c w) as [ws|]; [| intros [= <-]; by left].
    destruct message as [text|[|imageData filename| |id i| |type]];
      unfold on_message, JSON_parse; try done.
    + intros (name & -> & ->)%case_uploadImage_Returned. by left.
    + intros [= <-]. destruct (truthy (GameState.imageUrl (gameState w))) eqn:Hurl.
      * rewrite (case_startGame_eq _ Hurl). cbn zeta. right. eauto.
      * rewrite (case_startGame_ignored _ Hurl). by left.
    + unfold case_rotate. destruct id as [| |id|]; try (intros [= <-]; by left).
      destruct (Map_get id (players_of w)) as [p|]; [| intros [= <-]; by left].
      destruct (bool_decide _); [| intros [= <-]; by left].
      destruct (is_key i); [| done]. destruct (hides_every i); [done |].
      cbn [negb]. intros [= <-]. right. eauto.
    + unfold case_resetGame. cbn [uploads with_gameState].
      destruct (uploads w) as [entries|]; [| done].
      destruct (unlink_each entries) as [remaining [x|]]; [done |].
      intros [= <-]. right. eauto.
    + intros [= <-]. by left.
  - intros [= <-]. by left.
  - destruct (find_client c w) as [ws|]; [| intros [= <-]; by left].
    intros [= <-]. unfold on_close. destruct (Map_has _ _); [right; eauto | by left].
Qed.

(** X17.  Whenever a handled event changes the registry (a player joins,
    leaves, moves, finishes, is restarted or is wiped by a reset), the last
    thing the handler sends is the leaderboard of the registry as it then
    is, to every socket that is open: no change of a player goes without
    the ranking that reflects it. *)
Theorem registry_change_ends_with_leaderboard (e : event) (w w' : world) :
  deliver e w = Returned w' ->
  players_of w' <> players_of w ->
  exists earlier,
    sent w' = earlier ++ to_all (leaderboard (ranking (players_of w'))) w'.
Proof.
  intros Hdeliver Hchange.
  destruct (deliver_ends_with_leaderboard _ _ _ Hdeliver) as [Hsame|[w0 ->]]; [done |].
  by exists (sent w0).
Qed.

Lemma registry_change_ends_with_leaderboard_witness :
  exists earlier,
    sent (world_after [turn_first_tile] round)
    = earlier ++ to_all (leaderboard (ranking (players_of (world_after [turn_first_tile] round))))
                   (world_after [turn_first_tile] round).
Proof.
  apply (registry_change_ends_with_leaderboard turn_first_tile round
           (world_after [turn_first_tile] round)).
  - by vm_compute.
  - intros H. apply (f_equal (fun ps => Player.steps <$> Map_get "p1" ps)) in H.
    vm_compute in H. discriminate.
Defined.

(** ** The address of the player page *)

Lemma strip_trailing_slash_slash (s : string) :
  strip_trailing_slash (s +:+ "/") = s.
Proof.
  induction s as [|c s IH]; [done |].
  destruct s as [|d s]; [done |].
  change (String c (strip_trailing_slash (String d s +:+ "/")) = String c (String d s)).
  by rewrite IH.
Qed.

Lemma strip_trailing_slash_other (s : string) (c : ascii) :
  c <> "/"%char -> strip_trailing_slash (s +:+ String c "") = s +:+ String c "".
Proof.
  intros Hc. induction s as [|d s IH].
  - change (strip_trailing_slash (String c "") = String c "").
    cbn [strip_trailing_slash]. by rewrite (proj2 (Ascii.eqb_neq c "/"%char) Hc).
  - destruct s as [|e s].
    + change (String d (strip_trailing_slash (String c "")) = String d (String c "")).
      cbn [strip_trailing_slash]. by rewrite (proj2 (Ascii.eqb_neq c "/"%char) Hc).
    + change (String d (strip_trailing_slash (String e s +:+ String c ""))
              = String d (String e s +:+ String c "")).
      by rewrite IH.
Qed.

Lemma append_assoc (a b c : string) : (a +:+ b) +:+ c = a +:+ b +:+ c.
Proof.
  induction a as [|x a IH]; [done |].
  change (String x ((a +:+ b) +:+ c) = String x (a +:+ b +:+ c)). by rewrite IH.
Qed.

Lemma playerUrl_public (url : string) (railway render : option string)
    (interfaces : list (string * list iface)) :
  truthy (Some url) = true ->
  playerUrl {| PUBLIC_URL := Some url; RAILWAY_PUBLIC_DOMAIN := railway;
               RENDER_SERVICE_URL := render |} interfaces
  = (if String.prefix "https" url then "https"%string else "http"%string)
      +:+ "://" +:+ strip_trailing_slash (strip_scheme url) +:+ "/player.html".
Proof.
  intros Hurl. unfold playerUrl, getProtocol, getLocalIP.
  cbn [PUBLIC_URL default from_option]. by rewrite Hurl.
Qed.

(** X18.  A PUBLIC_URL that is made of 'http://' or 'https://', a host and
    one closing slash comes back as the address of the player page: the
    page is that URL followed by 'player.html', with the scheme of the
    variable, whatever the other variables and the network interfaces
    are.  The same holds without the closing slash when the URL does not
    end in a slash. *)
Theorem playerUrl_from_PUBLIC_URL (secure : bool) (host : string) (c : ascii)
    (railway render : option string) (interfaces : list (string * list iface)) :
  c <> "/"%char ->
  let scheme := if secure then "https"%string else "http"%string in
  let env url := {| PUBLIC_URL := Some url; RAILWAY_PUBLIC_DOMAIN := railway;
                    RENDER_SERVICE_URL := render |} in
  playerUrl (env (scheme +:+ "://" +:+ host +:+ "/")) interfaces
    = scheme +:+ "://" +:+ host +:+ "/player.html"
  /\ playerUrl (env (scheme +:+ "://" +:+ host +:+ String c "")) interfaces
     = scheme +:+ "://" +:+ host +:+ String c "" +:+ "/player.html".
Proof.
  intros Hc scheme env. unfold env, scheme.
  rewrite !playerUrl_public by by destruct secure.
  destruct secure.
  - change (strip_scheme ("https" +:+ "://" +:+ host +:+ "/")) with (host +:+ "/").
    change (strip_scheme ("https" +:+ "://" +:+ host +:+ String c ""))
      with (host +:+ String c "").
    rewrite strip_trailing_slash_slash, strip_trailing_slash_other by done.
    split; [reflexivity |]. by rewrite append_assoc.
  - change (strip_scheme ("http" +:+ "://" +:+ host +:+ "/")) with (host +:+ "/").
    change (strip_scheme ("http" +:+ "://" +:+ host +:+ String c ""))
      with (host +:+ String c "").
    rewrite strip_trailing_slash_slash, strip_trailing_slash_other by done.
    split; [reflexivity |]. by rewrite append_assoc.
Qed.

Lemma playerUrl_from_PUBLIC_URL_witness :
  playerUrl {| PUBLIC_URL := Some "https://puzzle.example.org/";
               RAILWAY_PUBLIC_DOMAIN := Some "other.up.railway.app";
               RENDER_SERVICE_URL := None |} []
  = "https://puzzle.example.org/player.html"%string.
Proof.
  refine (proj1 (playerUrl_from_PUBLIC_URL true "puzzle.example.org" "a"%char
                   (Some "other.up.railway.app"%string) None [] _)).
  discriminate.
Defined.

(** X19.  Without a PUBLIC_URL (unset or empty), the domain that Railway
    provides is used as it is, before the URL of Render and before any
    network interface; and without a Railway domain the URL of Render is
    used, stripped of its scheme and closing slash.  In both cases the
    page is announced under https, also when the URL of Render says
    http. *)
Theorem playerUrl_on_a_cloud (public railway render : option string)
    (domain host : string) (interfaces : list (string * list iface)) :
  truthy public = false ->
  truthy railway = false ->
  domain <> EmptyString ->
  playerUrl {| PUBLIC_URL := public; RAILWAY_PUBLIC_DOMAIN := Some domain;
               RENDER_SERVICE_URL := render |} interfaces
    = "https://" +:+ domain +:+ "/player.html"
  /\ playerUrl {| PUBLIC_URL := public; RAILWAY_PUBLIC_DOMAIN := railway;
                  RENDER_SERVICE_URL := Some ("http://" +:+ host +:+ "/") |} interfaces
     = "https://" +:+ host +:+ "/player.html".
Proof.
  intros Hpublic Hrailway Hdomain.
  assert (Htruthy : truthy (Some domain) = true).
  { cbn [truthy]. by rewrite (proj2 (String.eqb_neq domain "") Hdomain). }
  unfold playerUrl, getProtocol, getLocalIP.
  cbn [PUBLIC_URL RAILWAY_PUBLIC_DOMAIN RENDER_SERVICE_URL default from_option].
  rewrite Hpublic, Hrailway, Htruthy. split; [reflexivity |].
  change (truthy (Some ("http://" +:+ host +:+ "/"))) with true.
  unfold id. change (strip_scheme ("http://" +:+ host +:+ "/")) with (host +:+ "/").
  cbn [orb]. by rewrite strip_trailing_slash_slash.
Qed.

Lemma playerUrl_on_a_cloud_witness :
  playerUrl {| PUBLIC_URL := Some ""; RAILWAY_PUBLIC_DOMAIN := Some "puzzle.up.railway.app";
               RENDER_SERVICE_URL := Some "https://puzzle.onrender.com" |}
    [("eth0"%string, [{| family := "IPv4"; internal := false; address := "10.0.0.7" |}])]
  = "https://puzzle.up.railway.app/player.html"%string.
Proof.
  refine (proj1 (playerUrl_on_a_cloud (Some ""%string) None
                   (Some "https://puzzle.onrender.com"%string)
                   "puzzle.up.railway.app" "h" _ _ _ _)).
  - reflexivity.
  - reflexivity.
  - discriminate.
Defined.

Lemma find_first {A : Type} (f : A -> bool) (l : list A) :
  match find f l with
  | Some x => exists earlier later,
                l = earlier ++ x :: later /\ f x = true
                /\ Forall (fun y => f y = false) earlier
  | None => Forall (fun y => f y = false) l
  end.
Proof.
  induction l as [|y l IH]; cbn [find]; [constructor |].
  destruct (f y) eqn:Hy.
  - exists [], l. by repeat split.
  - destruct (find f l) as [x|].
    + destruct IH as (earlier & later & -> & Hx & Hearlier).
      exists (y :: earlier), later. repeat split; [done |]. by constructor.
    + by constructor.
Qed.

(** X20.  When none of the three variables is set (or they are empty), the
    page is announced under http at the address of the first interface
    address, in the order of the interfaces and of their addresses, that
    is IPv4 and not internal; an internal or non-IPv4 address is never
    announced, and when no address qualifies the host is 'localhost'. *)
Theorem playerUrl_on_the_local_network (env : environment)
    (interfaces : list (string * list iface)) :
  truthy (PUBLIC_URL env) = false ->
  truthy (RAILWAY_PUBLIC_DOMAIN env) = false ->
  truthy (RENDER_SERVICE_URL env) = false ->
  getProtocol env = "http"%string
  /\ ((exists earlier i later,
         flat_map snd interfaces = earlier ++ i :: later
         /\ family i = "IPv4"%string /\ internal i = false
         /\ Forall (fun j => family j <> "IPv4"%string \/ internal j = true) earlier
         /\ getLocalIP env interfaces = address i)
      \/ (Forall (fun j => family j <> "IPv4"%string \/ internal j = true)
            (flat_map snd interfaces)
          /\ getLocalIP env interfaces = "localhost"%string)).
Proof.
  intros Hpublic Hrailway Hrender. unfold getProtocol, getLocalIP.
  rewrite Hpublic, Hrailway, Hrender. split; [reflexivity |].
  assert (Hnot : forall j, external_IPv4 j = false ->
                           family j <> "IPv4"%string \/ internal j = true).
  { intros j Hj. unfold external_IPv4 in Hj. apply andb_false_iff in Hj as [Hj|Hj].
    - left. by apply String.eqb_neq.
    - right. by destruct (internal j). }
  pose proof (find_first external_IPv4 (flat_map snd interfaces)) as Hfind.
  destruct (find external_IPv4 (flat_map snd interfaces)) as [i|].
  - left. destruct Hfind as (earlier & later & Hsplit & Hi & Hearlier).
    exists earlier, i, later. split; [done |].
    unfold external_IPv4 in Hi. apply andb_true_iff in Hi as [Hfamily Hinternal].
    split; [by apply String.eqb_eq |]. split; [by destruct (internal i) |].
    split; [| done]. eapply Forall_impl; [exact Hearlier | exact Hnot].
  - right. split; [| done]. eapply Forall_impl; [exact Hfind | exact Hnot].
Qed.

Lemma playerUrl_on_the_local_network_witness :
  getProtocol {| PUBLIC_URL := None; RAILWAY_PUBLIC_DOMAIN := None;
                 RENDER_SERVICE_URL := Some "" |} = "http"%string.
Proof.
  refine (proj1 (playerUrl_on_the_local_network
                   {| PUBLIC_URL := None; RAILWAY_PUBLIC_DOMAIN := None;
                      RENDER_SERVICE_URL := Some "" |}
                   [("lo"%string, [{| family := "IPv4"; internal := true;
                                      address := "127.0.0.1" |}]);
                    ("eth0"%string, [{| family := "IPv6"; internal := false;
                                        address := "fe80::1" |};
                                     {| family := "IPv4"; internal := false;
                                        address := "192.168.1.20" |}])] _ _ _));
    reflexivity.
Defined.

(** ** Every round can be won *)

Lemma need_range (a : array) (j : Z) : 0 <= need a j <= 3.
Proof.
  unfold need. destruct (array_get a j) as [[v|]|]; try lia.
  pose proof (Z.mod_pos_bound (4 - v) 4). lia.
Qed.

Lemma need_turned (a : array) (k j : Z) :
  puzzle_ok a -> 0 <= k < 9 -> 0 <= j < 9 -> 0 < need a k ->
  need (turned a k) j = need a j - (if decide (k = j) then 1 else 0).
Proof.
  intros Hok Hk Hj Hneed.
  destruct (cell_of_puzzle _ _ Hok Hj) as (v & Hv & Hrange).
  unfold need at 1 2. rewrite (turned_cell _ _ _ _ Hok Hk Hj Hv), Hv.
  destruct (decide (k = j)) as [->|Hne].
  - unfold need in Hneed. rewrite Hv in Hneed.
    assert (v = 1 \/ v = 2 \/ v = 3) as [->|[->| ->]]; [| done | done | done].
    destruct (decide (v = 0)) as [->|?]; [by vm_compute in Hneed | lia].
  - rewrite Z.add_0_r, (Z.mod_small v 4) by lia. lia.
Qed.

Lemma remaining_turned (a : array) (k : Z) :
  puzzle_ok a -> 0 <= k < 9 -> 0 < need a k ->
  remaining (turned a k) = remaining a - 1.
Proof.
  intros Hok Hk Hneed. unfold remaining.
  rewrite !(need_turned a k) by (done || lia).
  assert (k = 0 \/ k = 1 \/ k = 2 \/ k = 3 \/ k = 4 \/ k = 5 \/ k = 6 \/ k = 7 \/ k = 8)
    as Hcases by lia.
  repeat (destruct Hcases as [->|Hcases]); try subst k;
    repeat (first [rewrite decide_True by lia | rewrite decide_False by lia]); lia.
Qed.

Lemma need_zero (a : array) (j : Z) :
  puzzle_ok a -> 0 <= j < 9 -> need a j = 0 -> a !! Z.to_nat j = Some (Some (Int 0)).
Proof.
  intros Hok Hj Hneed. destruct (cell_of_puzzle _ _ Hok Hj) as (v & Hv & Hrange).
  unfold need in Hneed. rewrite Hv in Hneed.
  assert (v = 0) as ->.
  { assert (v = 0 \/ v = 1 \/ v = 2 \/ v = 3) as [->|[->|[->| ->]]] by lia;
      by vm_compute in Hneed. }
  unfold array_get in Hv. rewrite in_range_index in Hv by done.
  by apply mjoin_lookup_Some.
Qed.

Lemma remaining_zero (a : array) :
  puzzle_ok a -> remaining a = 0 <-> a = correctRotation0.
Proof.
  intros Hok. split.
  - intros Hzero. unfold remaining in Hzero.
    pose proof (need_range a 0). pose proof (need_range a 1). pose proof (need_range a 2).
    pose proof (need_range a 3). pose proof (need_range a 4). pose proof (need_range a 5).
    pose proof (need_range a 6). pose proof (need_range a 7). pose proof (need_range a 8).
    apply list_eq. intros n. destruct (decide (n < 9)%nat) as [Hn|Hn].
    + rewrite <- (Nat2Z.id n). rewrite (need_zero a (Z.of_nat n)); [| done | lia |].
      * unfold correctRotation0. rewrite lookup_replicate_2 by lia. done.
      * assert (n = 0 \/ n = 1 \/ n = 2 \/ n = 3 \/ n = 4 \/ n = 5 \/ n = 6 \/ n = 7
                \/ n = 8)%nat as Hcases by lia.
        repeat (destruct Hcases as [->|Hcases]); try subst n;
          match goal with
          | |- need a ?z = 0 => let z' := eval vm_compute in z in change z with z'
          end; lia.
    + destruct Hok as [Hlen _]. rewrite !lookup_ge_None_2; [done | | lia].
      unfold correctRotation0. rewrite length_replicate. lia.
  - intros ->. reflexivity.
Qed.

Lemma needy_tile (a : array) :
  0 < remaining a -> exists k, 0 <= k < 9 /\ 0 < need a k.
Proof.
  unfold remaining. intros Hpos.
  pose proof (need_range a 0). pose proof (need_range a 1). pose proof (need_range a 2).
  pose proof (need_range a 3). pose proof (need_range a 4). pose proof (need_range a 5).
  pose proof (need_range a 6). pose proof (need_range a 7). pose proof (need_range a 8).
  destruct (decide (0 < need a 0)); [exists 0; lia |].
  destruct (decide (0 < need a 1)); [exists 1; lia |].
  destruct (decide (0 < need a 2)); [exists 2; lia |].
  destruct (decide (0 < need a 3)); [exists 3; lia |].
  destruct (decide (0 < need a 4)); [exists 4; lia |].
  destruct (decide (0 < need a 5)); [exists 5; lia |].
  destruct (decide (0 < need a 6)); [exists 6; lia |].
  destruct (decide (0 < need a 7)); [exists 7; lia |].
  exists 8. lia.
Qed.

(** What a rotation makes of the playing player that it names. *)
Lemma case_rotate_outcome id (i : Z) w p :
  Map_get id (players_of w) = Some p -> Player.status p = Playing ->
  GameState.correctRotation (gameState (rotated id i w))
    = GameState.correctRotation (gameState w)
  /\ exists p',
       Map_get id (players_of (rotated id i w)) = Some p'
       /\ Player.puzzle p' = turned (Player.puzzle p) i
       /\ Player.steps p' = Player.steps p + 1
       /\ Player.status p'
          = if arraysEqual (turned (Player.puzzle p) i)
                 (GameState.correctRotation (gameState w))
            then Finished else Playing.
Proof.
  intros Hget Hs. rewrite (case_rotate_playing _ _ _ _ Hget Hs). cbn zeta.
  rewrite players_of_broadcastLeaderboard, gameState_broadcastLeaderboard.
  destruct (arraysEqual _ _).
  - split; [by destruct (all_finished _) |].
    set (player := {| Player.id := Player.id p; Player.status := Finished |}).
    exists player. split; [| done].
    destruct (all_finished _); autorewrite with world; apply Map_get_set_eq.
  - split; [done |]. eexists. autorewrite with world.
    split; [apply Map_get_set_eq |]. cbn. by rewrite Hs.
Qed.

Lemma solve_in (n : nat) (ws : Client.t) (id : string) (w : world) (p : Player.t) :
  Map_get id (players_of w) = Some p ->
  Player.status p = Playing ->
  puzzle_ok (Player.puzzle p) ->
  GameState.correctRotation (gameState w) = correctRotation0 ->
  remaining (Player.puzzle p) = Z.of_nat (S n) ->
  exists history,
    length history = S n
    /\ Forall (fun i => 0 <= i < 9) history
    /\ (forall j, 0 <= j < 9 -> count_on j history = need (Player.puzzle p) j)
    /\ exists w' p',
         play ws id history w = Returned w'
         /\ Map_get id (players_of w') = Some p'
         /\ Player.status p' = Finished
         /\ Player.puzzle p' = correctRotation0
         /\ Player.steps p' = Player.steps p + Z.of_nat (S n).
Proof.
  revert w p. induction n as [|n IH]; intros w p Hget Hs Hok Hcorrect Hremaining.
  - destruct (needy_tile (Player.puzzle p)) as (k & Hk & Hneed); [lia |].
    destruct (turned_in_range _ _ Hok Hk) as (_ & _ & _ & _ & Hok1).
    pose proof (remaining_turned _ _ Hok Hk Hneed) as Hless.
    assert (Hsolved : turned (Player.puzzle p) k = correctRotation0).
    { apply remaining_zero; [done | lia]. }
    destruct (case_rotate_outcome id k w p Hget Hs) as (_ & p1 & Hget1 & Hp1 & Hsteps1 & Hs1).
    rewrite Hcorrect, Hsolved in Hs1. change (arraysEqual _ _) with true in Hs1.
    exists [k]. split; [done |]. split; [by apply Forall_singleton |]. split.
    + intros j Hj. rewrite count_on_cons. change (count_on j []) with 0.
      pose proof (need_turned _ _ _ Hok Hk Hj Hneed) as Hj1.
      rewrite Hsolved in Hj1.
      assert (need correctRotation0 j = 0) as Hzero.
      { assert (j = 0 \/ j = 1 \/ j = 2 \/ j = 3 \/ j = 4 \/ j = 5 \/ j = 6 \/ j = 7 \/ j = 8)
          as Hcases by lia.
        repeat (destruct Hcases as [->|Hcases]); try subst j; reflexivity. }
      lia.
    + exists (rotated id k w), p1. cbn [play]. rewrite on_message_rotate.
      split; [done |]. split; [done |]. split; [done |].
      split; [by rewrite Hp1 | lia].
  - destruct (needy_tile (Player.puzzle p)) as (k & Hk & Hneed); [lia |].
    destruct (turned_in_range _ _ Hok Hk) as (_ & _ & _ & _ & Hok1).
    pose proof (remaining_turned _ _ Hok Hk Hneed) as Hless.
    assert (Hunsolved : arraysEqual (turned (Player.puzzle p) k) correctRotation0 = false).
    { destruct (arraysEqual _ _) eqn:E; [| done].
      apply arraysEqual_target in E; [| done].
      apply (remaining_zero _ Hok1) in E. lia. }
    destruct (case_rotate_outcome id k w p Hget Hs)
      as (Hcorrect1 & p1 & Hget1 & Hp1 & Hsteps1 & Hs1).
    rewrite Hcorrect, Hunsolved in Hs1. rewrite Hcorrect in Hcorrect1.
    rewrite <- Hp1 in Hok1.
    destruct (IH (rotated id k w) p1 Hget1 Hs1 Hok1 Hcorrect1)
      as (history & Hlen & Hrange & Hcount & w' & p' & Hplay & Hget' & Hs' & Hp' & Hsteps').
    { rewrite Hp1. lia. }
    exists (k :: history). split; [cbn [length]; lia |].
    split; [by constructor |]. split.
    + intros j Hj. rewrite count_on_cons, (Hcount j Hj), Hp1.
      rewrite (need_turned _ _ _ Hok Hk Hj Hneed). lia.
    + exists w', p'. cbn [play]. rewrite on_message_rotate.
      split; [done |]. split; [done |]. split; [done |]. split; [done |]. lia.
Qed.

(** X21.  Every round can be won: a playing player whose puzzle holds nine
    rotation values that are not all 0 has a sequence of rotate messages,
    at most three for each tile and so at most 27 in all, after which the
    handler has counted each of them as a step, the puzzle is the all-zero
    target and the player is finished. *)
Theorem every_puzzle_can_be_solved (ws : Client.t) (id : string) (w : world) (p : Player.t) :
  Map_get id (players_of w) = Some p ->
  Player.status p = Playing ->
  puzzle_ok (Player.puzzle p) ->
  Player.puzzle p <> correctRotation0 ->
  GameState.correctRotation (gameState w) = correctRotation0 ->
  exists history,
    Forall (fun i => 0 <= i < 9) history
    /\ (forall j, 0 <= j < 9 -> count_on j history <= 3)
    /\ (length history <= 27)%nat
    /\ exists w' p',
         play ws id history w = Returned w'
         /\ Map_get id (players_of w') = Some p'
         /\ Player.status p' = Finished
         /\ Player.puzzle p' = correctRotation0
         /\ Player.steps p' = Player.steps p + Z.of_nat (length history).
Proof.
  intros Hget Hs Hok Hne Hcorrect.
  assert (Hpos : 0 < remaining (Player.puzzle p)).
  { destruct (decide (remaining (Player.puzzle p) = 0)) as [Hzero|Hnz].
    - by apply (remaining_zero _ Hok) in Hzero.
    - unfold remaining in *.
      pose proof (need_range (Player.puzzle p) 0). pose proof (need_range (Player.puzzle p) 1).
      pose proof (need_range (Player.puzzle p) 2). pose proof (need_range (Player.puzzle p) 3).
      pose proof (need_range (Player.puzzle p) 4). pose proof (need_range (Player.puzzle p) 5).
      pose proof (need_range (Player.puzzle p) 6). pose proof (need_range (Player.puzzle p) 7).
      pose proof (need_range (Player.puzzle p) 8). lia. }
  destruct (solve_in (Z.to_nat (remaining (Player.puzzle p)) - 1) ws id w p Hget Hs Hok Hcorrect)
    as (history & Hlen & Hrange & Hcount & w' & p' & Hplay & Hget' & Hs' & Hp' & Hsteps').
  { lia. }
  exists history. split; [done |]. split.
  { intros j Hj. rewrite (Hcount j Hj). apply need_range. }
  split.
  { unfold remaining in *.
    pose proof (need_range (Player.puzzle p) 0). pose proof (need_range (Player.puzzle p) 1).
    pose proof (need_range (Player.puzzle p) 2). pose proof (need_range (Player.puzzle p) 3).
    pose proof (need_range (Player.puzzle p) 4). pose proof (need_range (Player.puzzle p) 5).
    pose proof (need_range (Player.puzzle p) 6). pose proof (need_range (Player.puzzle p) 7).
    pose proof (need_range (Player.puzzle p) 8). lia. }
  exists w', p'. rewrite Hlen. done.
Qed.

Lemma every_puzzle_can_be_solved_witness :
  exists history,
    Forall (fun i => 0 <= i < 9) history
    /\ (forall j, 0 <= j < 9 -> count_on j history <= 3)
    /\ (length history <= 27)%nat
    /\ exists w' p',
         play admin "p1" history round = Returned w'
         /\ Map_get "p1" (players_of w') = Some p'
         /\ Player.status p' = Finished
         /\ Player.puzzle p' = correctRotation0
         /\ Player.steps p' = Player.steps (the_player "p1" round) + Z.of_nat (length history).
Proof.
  apply (every_puzzle_can_be_solved admin "p1" round (the_player "p1" round)).
  - by vm_compute.
  - by vm_compute.
  - apply (bool_decide_unpack _). by vm_compute.
  - intros H. by vm_compute in H.
  - by vm_compute.
Defined.

(** ** Completion on the grid *)

Lemma all_finished_Forall (ps : list (string * Player.t)) :
  all_finished ps = true
  <-> Forall (fun q => Player.status q = Finished) (Map_values ps).
Proof.
  unfold all_finished. rewrite forallb_forall, Forall_forall.
  split; intros H q Hq.
  - apply list_elem_of_In in Hq. specialize (H q Hq). by apply bool_decide_eq_true in H.
  - apply list_elem_of_In in Hq. apply bool_decide_eq_true. by apply H.
Qed.

(** X22.  On the grid the completion check does what it is there for.  A
    rotation of one of the nine tiles of a playing player with a
    well-formed puzzle returns, turns that tile, counts a step and touches
    no other player, and the player is finished afterwards exactly when all
    nine cells are 0.  In that case [finishTime] is the reading of the
    clock taken by the handler, [time] is that reading minus [startTime],
    and every open client is sent playerFinished with the id, the name, the
    time and the steps of the player; if every registered player is
    finished by then, the session status becomes finished and gameEnd is
    broadcast once, between playerFinished and the leaderboard, and if
    somebody is not, the status stays and no gameEnd is sent.  Without a
    completion the player stays playing, the status stays and nothing but
    the leaderboard is sent. *)
Theorem rotate_completion (ws : Client.t) (w : world) (id : string) (i : Z) (p : Player.t) :
  Map_get id (players_of w) = Some p ->
  Player.status p = Playing ->
  puzzle_ok (Player.puzzle p) ->
  0 <= i < 9 ->
  GameState.correctRotation (gameState w) = correctRotation0 ->
  exists w' p',
    on_message ws (Parseable (rotate id i)) w = Returned w'
    /\ Map_get id (players_of w') = Some p'
    /\ (forall id', id <> id' -> Map_get id' (players_of w') = Map_get id' (players_of w))
    /\ Player.puzzle p' = turned (Player.puzzle p) i
    /\ Player.steps p' = Player.steps p + 1
    /\ (Player.status p' = Finished <-> Player.puzzle p' = correctRotation0)
    /\ if decide (Player.puzzle p' = correctRotation0) then
         let now := (Date_now (clock w)).1 in
         let everybody :=
           Forall (fun q => Player.status q = Finished) (Map_values (players_of w')) in
         Player.finishTime p' = Some now
         /\ Player.time p' = now - default 0 (Player.startTime p)
         /\ sent w' =
              sent w
              ++ to_all (playerFinished (Player.id p) (Player.name p)
                           (Player.time p') (Player.steps p')) w
              ++ (if decide everybody then to_all gameEnd w else [])
              ++ to_all (leaderboard (ranking (players_of w'))) w
         /\ GameState.status (gameState w') =
              (if decide everybody then Over else GameState.status (gameState w))
       else
         Player.status p' = Playing
         /\ sent w' = sent w ++ to_all (leaderboard (ranking (players_of w'))) w
         /\ GameState.status (gameState w') = GameState.status (gameState w).
Proof.
  intros Hget Hs Hok Hi Hcorrect.
  destruct (turned_in_range _ _ Hok Hi) as (v & Hv & Hrange & Hturn & Hok').
  rewrite on_message_rotate. exists (rotated id i w).
  pose proof (case_rotate_others id) as Hothers.
  rewrite (case_rotate_playing _ _ _ _ Hget Hs) in *.
  cbn zeta in *. rewrite Hcorrect in *.
  pose proof (arraysEqual_target _ Hok') as Htarget.
  destruct (arraysEqual (turned (Player.puzzle p) i) correctRotation0) eqn:E.
  - assert (Hdone : turned (Player.puzzle p) i = correctRotation0) by by apply Htarget.
    set (now := (Date_now (clock w)).1) in *.
    set (player := {| Player.id := Player.id p; Player.status := Finished;
                      Player.puzzle := turned (Player.puzzle p) i |}) in *.
    set (ps := Map_set id player (players_of w)) in *.
    exists player. split; [reflexivity |].
    pose proof (all_finished_Forall ps) as Hall.
    autorewrite with world in *.
    destruct (all_finished ps) eqn:Hevery; autorewrite with world in *.
    + split; [apply Map_get_set_eq |]. split; [by intros; apply Map_get_set_ne |].
      split; [done |]. split; [done |]. split; [done |]. rewrite decide_True by done.
      cbn zeta. rewrite !decide_True by by apply Hall.
      repeat split; try done. by rewrite <- !app_assoc.
    + split; [apply Map_get_set_eq |]. split; [by intros; apply Map_get_set_ne |].
      split; [done |]. split; [done |]. split; [done |]. rewrite decide_True by done.
      cbn zeta. rewrite !decide_False by (intros H%Hall; discriminate).
      repeat split; try done. by rewrite <- !app_assoc.
  - assert (Hnot : turned (Player.puzzle p) i <> correctRotation0).
    { intros H. apply Htarget in H. congruence. }
    eexists. split; [reflexivity |]. autorewrite with world in *.
    split; [apply Map_get_set_eq |]. split; [by intros; apply Map_get_set_ne |].
    cbn [Player.puzzle Player.steps Player.status].
    split; [done |]. split; [done |].
    split; [rewrite Hs; split; [done | by intros H] |].
    rewrite decide_False by done. done.
Qed.

Lemma rotate_completion_witness :
  Player.status (the_player "p1" nearly_solved) = Playing
  /\ exists w' p',
       on_message admin (Parseable (rotate "p1" 0)) nearly_solved = Returned w'
       /\ Map_get "p1" (players_of w') = Some p'
       /\ (forall id', "p1"%string <> id' ->
             Map_get id' (players_of w') = Map_get id' (players_of nearly_solved))
       /\ Player.puzzle p' = turned (Player.puzzle (the_player "p1" nearly_solved)) 0
       /\ Player.steps p' = Player.steps (the_player "p1" nearly_solved) + 1
       /\ (Player.status p' = Finished <-> Player.puzzle p' = correctRotation0)
       /\ if decide (Player.puzzle p' = correctRotation0) then
            let now := (Date_now (clock nearly_solved)).1 in
            let everybody :=
              Forall (fun q => Player.status q = Finished) (Map_values (players_of w')) in
            Player.finishTime p' = Some now
            /\ Player.time p'
               = now - default 0 (Player.startTime (the_player "p1" nearly_solved))
            /\ sent w' =
                 sent nearly_solved
                 ++ to_all (playerFinished (Player.id (the_player "p1" nearly_solved))
                              (Player.name (the_player "p1" nearly_solved))
                              (Player.time p') (Player.steps p')) nearly_solved
                 ++ (if decide everybody then to_all gameEnd nearly_solved else [])
                 ++ to_all (leaderboard (ranking (players_of w'))) nearly_solved
            /\ GameState.status (gameState w') =
                 (if decide everybody then Over
                  else GameState.status (gameState nearly_solved))
          else
            Player.status p' = Playing
            /\ sent w' = sent nearly_solved
                         ++ to_all (leaderboard (ranking (players_of w'))) nearly_solved
            /\ GameState.status (gameState w') = GameState.status (gameState nearly_solved).
Proof.
  split; [by vm_compute |].
  apply (rotate_completion admin nearly_solved "p1" 0 (the_player "p1" nearly_solved)).
  - by vm_compute.
  - by vm_compute.
  - apply (bool_decide_unpack _). by vm_compute.
  - lia.
  - by vm_compute.
Defined.

(** ** Fields that end the process *)

(** X23.  Nothing in the message handler catches what a field of the
    message makes the handler throw, so that each of the following frames
    ends the process like an unparseable one: the frame 'null', of which
    [data.type] cannot be read; a rotate message for a playing player whose
    tile index has no conversion to a property key (nothing has changed by
    then), or is 'every' (the step is counted and the puzzle keeps its
    cells, but [arraysEqual] finds no method to call, and nothing is sent);
    an uploadImage message whose file name has no conversion to a string
    (the image data are stored by then, the reference is as it was, and
    nothing is sent).  A rotate message for a player who is not playing,
    or that names nobody, returns whatever its tile index is. *)
Theorem fields_that_end_the_process (ws : Client.t) (w : world) (id : string) (p : Player.t)
    (imageData : field) (later : list event) :
  Map_get id (players_of w) = Some p ->
  Player.status p = Playing ->
  on_message ws (Parseable null) w = Thrown TypeError w
  /\ on_message ws (Parseable (rotate id NoKey)) w = Thrown TypeError w
  /\ (exists w',
        on_message ws (Parseable (rotate id Every)) w = Thrown TypeError w'
        /\ Map_get id (players_of w') = Some (moved Every p)
        /\ Player.puzzle (moved Every p) = Player.puzzle p
        /\ Player.steps (moved Every p) = Player.steps p + 1
        /\ sent w' = sent w)
  /\ (exists w',
        on_message ws (Parseable (uploadImage imageData Unconvertible)) w
          = Thrown TypeError w'
        /\ GameState.image (gameState w') = imageData
        /\ GameState.imageUrl (gameState w') = GameState.imageUrl (gameState w)
        /\ sent w' = sent w)
  /\ (forall (playerId : field) (k : key),
        (forall q, playerId = JSstring q ->
                   forall p', Map_get q (players_of w) = Some p' ->
                              Player.status p' <> Playing) ->
        on_message ws (Parseable (rotate playerId k)) w = Returned w)
  /\ run (Message 2 (Parseable null) :: later) (Running round) = Exited TypeError
  /\ run (Message 2 (Parseable (rotate "p1" Every)) :: later) (Running round)
     = Exited TypeError
  /\ run (Message 2 (Parseable (rotate "p1" NoKey)) :: later) (Running round)
     = Exited TypeError
  /\ run (Message 2 (Parseable (uploadImage imageData Unconvertible)) :: later)
       (Running round) = Exited TypeError.
Proof.
  intros Hget Hs. split; [reflexivity |].
  assert (Hrotate : forall k,
            on_message ws (Parseable (rotate id k)) w = case_rotate id k w) by done.
  split.
  { rewrite Hrotate. unfold case_rotate. rewrite Hget.
    by rewrite bool_decide_eq_true_2 by done. }
  split.
  { rewrite Hrotate. unfold case_rotate. rewrite Hget.
    rewrite bool_decide_eq_true_2 by done. cbn [is_key hides_every negb].
    eexists. split; [reflexivity |]. autorewrite with world.
    split; [apply Map_get_set_eq |]. done. }
  split; [eexists; split; [reflexivity | done] |].
  split.
  { intros playerId k Hidle. unfold on_message, JSON_parse, case_rotate.
    destruct playerId as [| |q|]; try done.
    destruct (Map_get q (players_of w)) as [p'|] eqn:Hq; [| done].
    by rewrite bool_decide_eq_false_2 by by apply (Hidle q). }
  repeat split; rewrite run_cons;
    (replace (step _ _) with (Exited TypeError) by by vm_compute); apply run_Exited.
Qed.

Lemma fields_that_end_the_process_witness :
  on_message admin (Parseable (rotate "p1" Every)) round
    <> on_message admin (Parseable (rotate "p1" Name)) round
  /\ run [Message 2 (Parseable null); turn_first_tile] (Running round) = Exited TypeError.
Proof.
  destruct (fields_that_end_the_process admin round "p1" (the_player "p1" round)
              JSnull [turn_first_tile])
    as (_ & _ & (w' & Hevery & _) & _ & _ & Hnull & _).
  - by vm_compute.
  - by vm_compute.
  - split; [| exact Hnull]. rewrite Hevery. by vm_compute.
Defined.

(** ** The length of a puzzle as a tile *)

Lemma turn_length_nine (a : array) : length a = 9%nat -> turn a Length = take 2 a.
Proof.
  intros Hlen. unfold turn, set_length. rewrite Hlen.
  change (Z.to_nat (Z.rem (Z.of_nat 9 + 1) 4)) with 2%nat.
  change (replicate (2 - 9) None) with (@nil (option num)). by rewrite app_nil_r.
Qed.

Lemma arraysEqual_two (a : array) :
  puzzle_ok a ->
  arraysEqual (take 2 a) correctRotation0 = true
  <-> a !! 0%nat = Some (Some (Int 0)) /\ a !! 1%nat = Some (Some (Int 0)).
Proof.
  intros [Hlen Hall]. destruct a as [|c0 [|c1 rest]]; try done.
  apply Forall_cons in Hall as [H0 Hall]. apply Forall_cons in Hall as [H1 _].
  destruct c0 as [[v0|]|], c1 as [[v1|]|]; try done.
  cbn [take lookup list_lookup]. unfold arraysEqual, every. cbn.
  rewrite andb_true_r, andb_true_iff, !Z.eqb_eq. split.
  - by intros [-> ->].
  - by intros [[= ->] [= ->]].
Qed.

(** X24.  The name 'length' is a tile index like another for the handler:
    a rotate message with it, for a playing player who holds nine rotation
    values, is accepted, counts a step, and cuts the puzzle to its first two
    cells ((9 + 1) % 4 = 2), and the player is finished by it exactly when
    those two cells are 0, whatever the seven cells are that the message
    has cut off. *)
Theorem length_as_tile_index (ws : Client.t) (w : world) (id : string) (p : Player.t) :
  Map_get id (players_of w) = Some p ->
  Player.status p = Playing ->
  puzzle_ok (Player.puzzle p) ->
  GameState.correctRotation (gameState w) = correctRotation0 ->
  exists w' p',
    on_message ws (Parseable (rotate id Length)) w = Returned w'
    /\ Map_get id (players_of w') = Some p'
    /\ Player.puzzle p' = take 2 (Player.puzzle p)
    /\ Player.steps p' = Player.steps p + 1
    /\ (Player.status p' = Finished
        <-> Player.puzzle p !! 0%nat = Some (Some (Int 0))
            /\ Player.puzzle p !! 1%nat = Some (Some (Int 0))).
Proof.
  intros Hget Hs Hok Hcorrect.
  pose proof (arraysEqual_two _ Hok) as Htwo.
  unfold on_message, JSON_parse, case_rotate. rewrite Hget.
  rewrite bool_decide_eq_true_2 by done. cbn [is_key hides_every negb].
  rewrite Hcorrect, (turn_length_nine _ (proj1 Hok)).
  destruct (arraysEqual (take 2 (Player.puzzle p)) correctRotation0) eqn:Hequal.
  - cbn [Date_now]. eexists _, _. split; [reflexivity |].
    split.
    { destruct (all_finished _); autorewrite with world; apply Map_get_set_eq. }
    cbn [Player.puzzle Player.steps Player.status].
    split; [done |]. split; [done |]. split; [by intros _; apply Htwo | done].
  - eexists _, _. split; [reflexivity |]. autorewrite with world.
    split; [apply Map_get_set_eq |].
    cbn [Player.puzzle Player.steps Player.status].
    split; [done |]. split; [done |]. rewrite Hs. split; [done |].
    intros H%Htwo. discriminate.
Qed.

Lemma length_as_tile_index_witness :
  exists w' p',
    on_message admin (Parseable (rotate "p1" Length)) round = Returned w'
    /\ Map_get "p1" (players_of w') = Some p'
    /\ Player.puzzle p' = take 2 (Player.puzzle (the_player "p1" round))
    /\ Player.steps p' = Player.steps (the_player "p1" round) + 1
    /\ (Player.status p' = Finished
        <-> Player.puzzle (the_player "p1" round) !! 0%nat = Some (Some (Int 0))
            /\ Player.puzzle (the_player "p1" round) !! 1%nat = Some (Some (Int 0))).
Proof.
  apply (length_as_tile_index admin round "p1" (the_player "p1" round)).
  - by vm_compute.
  - by vm_compute.
  - apply (bool_decide_unpack _). by vm_compute.
  - by vm_compute.
Defined.
